(** * Time-dependent shortest paths on a traffic-light road network

    A shallow embedding of [src/main.c] (adjacency-list graph, indexed binary
    min-heap, Dijkstra with waiting at traffic lights, text snapshot
    save/load, map export, and the blocks of [main] that read the menu
    choice and a city typed in), the properties of it that the
    specification states, and further properties read off the code.
    [displayGraph], [freeMinHeap] and the rest of the menu loop are not
    embedded.

    Conventions of the embedding.
    - A C [int] is a [Z]; every arithmetic operation of the source goes
      through [CInt], which writes out the 32-bit two's-complement
      wrap-around.
    - A C array is a [list] read with [aget] and written with [aset]; both
      take the [int] index of the source.  Outside the array the C program
      has no defined behaviour; [aget] then yields a default and [aset]
      leaves the array as it is.
    - A linked adjacency list ([Edge *]) is a [list Edge], head first.
    - [printf] output is a list of [Event]s; the content of a file is a
      [Stdio.text], its characters in order, written and read by the
      conversions of [fprintf] and [fscanf] that the source uses.
    - A C [double] is a primitive binary64 [float]. *)

From Stdlib Require Import ZArith Lia List Bool String Ascii Floats.
From stdpp Require Import base list.

Open Scope Z_scope.

(** ** C [int] arithmetic *)

Module CInt.

Definition INT_MAX : Z := 2147483647.
Definition INT_MIN : Z := -2147483648.

Definition in_range (z : Z) : Prop := INT_MIN <= z <= INT_MAX.

(** Reduction of a mathematical integer to the 32-bit signed value. *)
Definition wrap (z : Z) : Z := (z + 2147483648) mod 4294967296 - 2147483648.

Definition add (a b : Z) : Z := wrap (a + b).
Definition sub (a b : Z) : Z := wrap (a - b).
Definition mul (a b : Z) : Z := wrap (a * b).
(** C99 division truncates toward zero: [/] is [Z.quot], [%] is [Z.rem]. *)
Definition div (a b : Z) : Z := wrap (Z.quot a b).
Definition rem (a b : Z) : Z := wrap (Z.rem a b).

End CInt.

(** ** Arrays indexed by an [int] *)

Definition aget {A : Type} (d : A) (l : list A) (i : Z) : A :=
  if i <? 0 then d else default d (l !! Z.to_nat i).

Definition aset {A : Type} (l : list A) (i : Z) (x : A) : list A :=
  if i <? 0 then l else <[Z.to_nat i := x]> l.

(** ** Constants and structures (main.c, lines 14-49) *)

Definition MAX : Z := 50.
Definition INF : Z := 999999.

Record TrafficLight : Type := mkLight { red : Z; green : Z; yellow : Z }.

(** One node of an adjacency list; [next] is the tail of the list. *)
Record Edge : Type := mkEdge { to : Z; weight : Z }.

Record Graph : Type := mkGraph {
  vertices : Z;
  adj : list (list Edge);
  lights : list TrafficLight;
  names : list string;
  lat : list float;
  lon : list float
}.

Record HeapNode : Type := mkNode { hv : Z; hdist : Z }.

(** [arr] holds pointers: [None] is [NULL]. *)
Record MinHeap : Type := mkHeap {
  size : Z;
  pos : list Z;
  arr : list (option HeapNode)
}.

Definition light0 : TrafficLight := mkLight 0 0 0.
Definition node0 : HeapNode := mkNode 0 0.

(** ** Signal model (main.c, lines 259-265) *)

Definition cycle_of (light : TrafficLight) : Z :=
  CInt.add (CInt.add (red light) (green light)) (yellow light).

Definition getWaitingTime (light : TrafficLight) (arrivalTime : Z) : Z :=
  let cycle := cycle_of light in
  if cycle <=? 0 then 0
  else
    let t := CInt.rem arrivalTime cycle in
    if t <? green light then 0 else CInt.sub cycle t.

(** ** Control structure shared by the embedding *)

(** [for (i = lo; count iterations; i++) s = body i s]. *)
Fixpoint for_loop {S : Type} (count : nat) (i : Z) (body : Z -> S -> S) (s : S) : S :=
  match count with
  | O => s
  | Datatypes.S k => for_loop k (i + 1) body (body i s)
  end.

(** [for (int i = 0; i < n; i++)]. *)
Definition for_upto {S : Type} (n : Z) (body : Z -> S -> S) (s : S) : S :=
  for_loop (Z.to_nat n) 0 body s.

(** ** Graph store (main.c, lines 78-105) *)

Definition set_adj (g : Graph) (a : list (list Edge)) : Graph :=
  mkGraph (vertices g) a (lights g) (names g) (lat g) (lon g).

Definition adj_of (g : Graph) (u : Z) : list Edge := aget [] (adj g) u.
Definition light_of (g : Graph) (v : Z) : TrafficLight := aget light0 (lights g) v.
Definition name_of (g : Graph) (v : Z) : string := aget EmptyString (names g) v.

Definition initGraph (g : Graph) : Graph :=
  for_upto MAX
    (fun i g' =>
       mkGraph (vertices g') (aset (adj g') i []) (lights g') (names g')
               (aset (lat g') i 0%float) (aset (lon g') i 0%float))
    (mkGraph 0 (adj g) (lights g) (names g) (lat g) (lon g)).

Definition newEdge (t w : Z) : Edge := mkEdge t w.

(** What the program prints or writes, in order. *)
Record LeafletDoc : Type := mkDoc {
  doc_nodes : list (Z * string * float * float);
  doc_edges : list (Z * Z * Z);
  doc_sp : list Z
}.

Inductive Event : Type :=
| EvInvalidEdge (u v : Z)
| EvInvalidSrcDest
| EvNoPath (src_name dest_name : string)
| EvShortestTime (src_name dest_name : string) (d : Z)
| EvPathSummary (junctions : list string)
| EvTotalTime (d : Z)
| EvExport (doc : LeafletDoc)
| EvFileNotFound
| EvLoaded (filename : string)
| EvSaved (filename : string)
| EvDotExported.

(** [addEdge] returns the graph it leaves behind and what it printed. *)
Definition addEdge (g : Graph) (u v w : Z) : Graph * list Event :=
  if (u <? 0) || (u >=? vertices g) || (v <? 0) || (v >=? vertices g)
  then (g, [EvInvalidEdge u v])
  else
    let e1 := newEdge v w in
    let g1 := set_adj g (aset (adj g) u (e1 :: adj_of g u)) in
    let e2 := newEdge u w in
    let g2 := set_adj g1 (aset (adj g1) v (e2 :: adj_of g1 v)) in
    (g2, []).

(** The loop of lines 139-154, 245-253 and 375-383: every adjacency entry
    [u -> v] with [u < v], by ascending [u], each list head first. *)
Definition edges_once (g : Graph) : list (Z * Z * Z) :=
  for_upto (vertices g)
    (fun u acc =>
       acc ++ map (fun p => (u, to p, weight p))
                  (filter (fun p => u < to p) (adj_of g u)))
    [].

(** ** Indexed min-heap (main.c, lines 268-328) *)

Definition set_pos (h : MinHeap) (p : list Z) : MinHeap := mkHeap (size h) p (arr h).
Definition set_arr (h : MinHeap) (a : list (option HeapNode)) : MinHeap := mkHeap (size h) (pos h) a.
Definition set_size (h : MinHeap) (s : Z) : MinHeap := mkHeap s (pos h) (arr h).

Definition ptr_at (h : MinHeap) (i : Z) : option HeapNode := aget None (arr h) i.
(** [h->arr[i]->...]: following a [NULL] pointer is undefined; the model
    reads [node0]. *)
Definition node_at (h : MinHeap) (i : Z) : HeapNode := default node0 (ptr_at h i).
Definition dist_at (h : MinHeap) (i : Z) : Z := hdist (node_at h i).
Definition v_at (h : MinHeap) (i : Z) : Z := hv (node_at h i).
Definition pos_of (h : MinHeap) (v : Z) : Z := aget 0 (pos h) v.

(** [h->arr[i]->dist = d]. *)
Definition set_dist_at (h : MinHeap) (i d : Z) : MinHeap :=
  match ptr_at h i with
  | Some nd => set_arr h (aset (arr h) i (Some (mkNode (hv nd) d)))
  | None => h
  end.

(** The block [malloc] returns is modelled with every slot zero; the
    program initialises the first [capacity] slots before it reads them. *)
Definition createMinHeap (capacity : Z) : MinHeap :=
  for_upto capacity
    (fun i h => mkHeap (size h) (aset (pos h) i (-1)) (aset (arr h) i None))
    (mkHeap 0 (replicate (Z.to_nat MAX) 0) (replicate (Z.to_nat MAX) None)).

Definition swapHeapNode (h : MinHeap) (a b : Z) : MinHeap :=
  let t := ptr_at h a in
  let h1 := set_arr h (aset (arr h) a (ptr_at h b)) in
  set_arr h1 (aset (arr h1) b t).

(** The recursion of [minHeapify] descends the tree; [fuel] bounds its
    depth and [None] means the fuel ran out. *)
Fixpoint minHeapify (fuel : nat) (h : MinHeap) (idx : Z) : option MinHeap :=
  match fuel with
  | O => None
  | Datatypes.S fuel' =>
    let smallest := idx in
    let left := CInt.add (CInt.mul 2 idx) 1 in
    let right := CInt.add (CInt.mul 2 idx) 2 in
    let smallest :=
      if (left <? size h) && (dist_at h left <? dist_at h smallest)
      then left else smallest in
    let smallest :=
      if (right <? size h) && (dist_at h right <? dist_at h smallest)
      then right else smallest in
    if negb (smallest =? idx) then
      let h1 := set_pos h (aset (pos h) (v_at h smallest) idx) in
      let h2 := set_pos h1 (aset (pos h1) (v_at h1 idx) smallest) in
      let h3 := swapHeapNode h2 smallest idx in
      minHeapify fuel' h3 smallest
    else Some h
  end.

Definition isEmpty (h : MinHeap) : bool := size h =? 0.

(** Result: the heap left behind and the pointer returned. *)
Definition extractMin (h : MinHeap) : option (MinHeap * option HeapNode) :=
  if isEmpty h then Some (h, None)
  else
    let root := ptr_at h 0 in
    let lastNode := ptr_at h (CInt.sub (size h) 1) in
    let h1 := set_arr h (aset (arr h) 0 lastNode) in
    let h2 := set_pos h1 (aset (pos h1) (hv (default node0 lastNode)) 0) in
    let h3 := set_pos h2 (aset (pos h2) (hv (default node0 root)) (-1)) in
    let h4 := set_size h3 (CInt.sub (size h3) 1) in
    match minHeapify (Datatypes.S (Z.to_nat (size h4))) h4 0 with
    | Some h5 => Some (h5, root)
    | None => None
    end.

(** The [while] loop of [decreaseKey] (lines 315-320). *)
Fixpoint siftUp (fuel : nat) (h : MinHeap) (i : Z) : option MinHeap :=
  match fuel with
  | O => None
  | Datatypes.S fuel' =>
    let parent := CInt.div (CInt.sub i 1) 2 in
    if negb (i =? 0) && (dist_at h i <? dist_at h parent) then
      let h1 := set_pos h (aset (pos h) (v_at h i) parent) in
      let h2 := set_pos h1 (aset (pos h1) (v_at h1 parent) i) in
      let h3 := swapHeapNode h2 i parent in
      siftUp fuel' h3 parent
    else Some h
  end.

Definition decreaseKey (h : MinHeap) (v d : Z) : option MinHeap :=
  let i := pos_of h v in
  if i =? -1 then Some h
  else siftUp (Datatypes.S (Z.to_nat i)) (set_dist_at h i d) i.

Definition isInMinHeap (h : MinHeap) (v : Z) : bool := negb (pos_of h v =? -1).

(** ** Leaflet map export (main.c, lines 331-431) *)

(** [js_escape_name]: at most [dstsz - 1] characters are copied; a double
    quote or a backslash becomes a single quote. *)
Fixpoint js_escape (room : nat) (src : string) : string :=
  match room, src with
  | Datatypes.S r, String c rest =>
    let c' :=
      if (Ascii.eqb c (ascii_of_nat 34) || Ascii.eqb c (ascii_of_nat 92))%bool
      then ascii_of_nat 39 else c in
    String c' (js_escape r rest)
  | _, _ => EmptyString
  end.

Definition js_escape_name (src : string) (dstsz : Z) : string :=
  js_escape (Z.to_nat (dstsz - 1)) src.

(** The data the generated page embeds: the [nodes], [edges] and [sp]
    arrays.  The remaining text of the page is constant.  Opening the file
    is taken to succeed. *)
Definition exportLeafletMap (g : Graph) (path : list Z) (path_len : Z) : LeafletDoc :=
  mkDoc
    (for_upto (vertices g)
       (fun i acc =>
          acc ++ [(i, js_escape_name (name_of g i) 64,
                   aget 0%float (lat g) i, aget 0%float (lon g) i)])
       [])
    (edges_once g)
    (for_upto path_len (fun i acc => acc ++ [aget 0 path i]) []).

(** ** Time-dependent Dijkstra (main.c, lines 434-526) *)

(** The local state of [dijkstra].  [st_cands] is a ghost trace: every
    candidate [(v, newDist)] computed at line 482, most recent first. *)
Record DState : Type := mkDState {
  st_dist : list Z;
  st_parent : list Z;
  st_heap : MinHeap;
  st_cands : list (Z * Z)
}.

Definition is_some {A : Type} (o : option A) : bool :=
  match o with Some _ => true | None => false end.

(** One pass of the inner [while (p)] body (lines 477-493). *)
Definition relax_edge (g : Graph) (u : Z) (st : DState) (p : Edge) : option DState :=
  let v := to p in
  let w := weight p in
  let h := st_heap st in
  if negb (pos_of h v =? -1) then
    let arrival := CInt.add (aget 0 (st_dist st) u) w in
    let wait := getWaitingTime (light_of g v) arrival in
    let newDist := CInt.add (CInt.add (aget 0 (st_dist st) u) w) wait in
    let cands := (v, newDist) :: st_cands st in
    if newDist <? aget 0 (st_dist st) v then
      let dist' := aset (st_dist st) v newDist in
      let parent' := aset (st_parent st) v u in
      let idx := pos_of h v in
      if negb (idx =? -1) && is_some (ptr_at h idx) then
        match decreaseKey (set_dist_at h idx newDist) v newDist with
        | Some h' => Some (mkDState dist' parent' h' cands)
        | None => None
        end
      else Some (mkDState dist' parent' h cands)
    else Some (mkDState (st_dist st) (st_parent st) h cands)
  else Some st.

(** The inner loop over the adjacency list of [u]. *)
Fixpoint relax_all (g : Graph) (u : Z) (st : DState) (ps : list Edge) : option DState :=
  match ps with
  | [] => Some st
  | p :: rest =>
    match relax_edge g u st p with
    | Some st' => relax_all g u st' rest
    | None => None
    end
  end.

(** The outer [while (!isEmpty(h))] loop; every turn removes one heap
    entry, [fuel] bounds the number of turns. *)
Fixpoint dijkstra_loop (fuel : nat) (g : Graph) (dest : Z) (st : DState) : option DState :=
  match fuel with
  | O => None
  | Datatypes.S fuel' =>
    if isEmpty (st_heap st) then Some st
    else
      match extractMin (st_heap st) with
      | None => None
      | Some (h', hn) =>
        let st1 := mkDState (st_dist st) (st_parent st) h' (st_cands st) in
        match hn with
        | None => Some st1
        | Some nd =>
          let u := hv nd in
          let du := hdist nd in
          if du =? INF then Some st1
          else if u =? dest then Some st1
          else
            match relax_all g u st1 (adj_of g u) with
            | Some st2 => dijkstra_loop fuel' g dest st2
            | None => None
            end
        end
      end
  end.

(** Lines 447-458: [createMinHeap] and the loop that gives every junction
    its entry, all keys [INF]. *)
Definition build_heap (n : Z) : MinHeap :=
  for_upto n
    (fun v h =>
       let hn := mkNode v INF in
       let h1 := set_arr h (aset (arr h) (size h) (Some hn)) in
       let h2 := set_pos h1 (aset (pos h1) v (size h1)) in
       set_size h2 (CInt.add (size h2) 1))
    (createMinHeap n).

(** Lines 441-463: the arrays, the heap with one entry per junction, and
    the source's key lowered to 0. *)
Definition dijkstra_init (g : Graph) (src : Z) : option DState :=
  let n := vertices g in
  let '(dist, parent) :=
    for_upto n
      (fun i dp => (aset (fst dp) i INF, aset (snd dp) i (-1)))
      (replicate (Z.to_nat MAX) 0, replicate (Z.to_nat MAX) 0) in
  let h := build_heap n in
  let dist := aset dist src 0 in
  let h := set_dist_at h (pos_of h src) 0 in
  match decreaseKey h src 0 with
  | Some h' => Some (mkDState dist parent h' [])
  | None => None
  end.

(** Lines 441-495: the search proper. *)
Definition dijkstra_search (g : Graph) (src dest : Z) : option DState :=
  match dijkstra_init g src with
  | Some st => dijkstra_loop (Datatypes.S (Z.to_nat (vertices g))) g dest st
  | None => None
  end.

(** Lines 509-510: follow [parent] from [dest]; [path] has [MAX] slots and
    a write past its end is undefined ([None]). *)
Fixpoint build_path (fuel : nat) (parent : list Z) (v : Z) (path : list Z) (idx : Z)
  : option (list Z * Z) :=
  if v =? -1 then Some (path, idx)
  else
    match fuel with
    | O => None
    | Datatypes.S fuel' =>
      if idx <? MAX
      then build_path fuel' parent (aget 0 parent v) (aset path idx v) (CInt.add idx 1)
      else None
    end.

(** Lines 497-523: the report and the map export. *)
Definition dijkstra_report (g : Graph) (src dest : Z) (st : DState) : option (list Event) :=
  let dist := st_dist st in
  if aget 0 dist dest =? INF then
    let dummy := [0] in
    Some [EvNoPath (name_of g src) (name_of g dest);
          EvExport (exportLeafletMap g dummy 0)]
  else
    match build_path (Z.to_nat MAX) (st_parent st) dest (replicate (Z.to_nat MAX) 0) 0 with
    | None => None
    | Some (path, idx) =>
      let summary :=
        for_upto idx (fun k acc => acc ++ [name_of g (aget 0 path (idx - 1 - k))]) [] in
      let forward :=
        for_upto idx (fun i f => aset f i (aget 0 path (idx - 1 - i)))
                 (replicate (Z.to_nat MAX) 0) in
      Some [EvShortestTime (name_of g src) (name_of g dest) (aget 0 dist dest);
            EvPathSummary summary;
            EvTotalTime (aget 0 dist dest);
            EvExport (exportLeafletMap g forward idx)]
    end.

(** [dijkstra]: [None] stands for a run without defined behaviour or
    without enough fuel; otherwise the events printed, in order. *)
Definition dijkstra (g : Graph) (src dest : Z) : option (list Event) :=
  let n := vertices g in
  if (src <? 0) || (src >=? n) || (dest <? 0) || (dest >=? n)
  then Some [EvInvalidSrcDest]
  else
    match dijkstra_search g src dest with
    | Some st => dijkstra_report g src dest st
    | None => None
    end.


(** * Snapshot files (main.c, lines 121-256)

    A file is the text it holds.  The calls [fprintf], [fscanf], [fgets]
    and [sscanf] belong to the C library, not to the program; the model
    below follows the C standard (7.21.6) for the conversions the program
    uses: [%d], [%s], [%19s], [%.6f] and [%lf].  Opening a file for
    writing is taken to succeed. *)

Module Stdio.

Definition text : Type := list ascii.

Definition lit (s : string) : text := list_ascii_of_string s.

Definition space : ascii := ascii_of_nat 32.
Definition newline : ascii := ascii_of_nat 10.
Definition minus : ascii := ascii_of_nat 45.
Definition plus : ascii := ascii_of_nat 43.
Definition dot : ascii := ascii_of_nat 46.
Definition quote : ascii := ascii_of_nat 34.
Definition backslash : ascii := ascii_of_nat 92.

(** [isspace] in the C locale: space, and the controls 9 to 13. *)
Definition isspace (c : ascii) : bool :=
  let n := nat_of_ascii c in
  (Nat.eqb n 32 || (Nat.leb 9 n && Nat.leb n 13))%bool.

Definition isdigit (c : ascii) : bool :=
  let n := nat_of_ascii c in (Nat.leb 48 n && Nat.leb n 57)%bool.

Definition digit_char (d : Z) : ascii := ascii_of_nat (48 + Z.to_nat d).
Definition digit_val (c : ascii) : Z := Z.of_nat (nat_of_ascii c) - 48.

(** *** Output conversions *)

(** The decimal digits of [n >= 0], most significant first; [fuel] bounds
    their number. *)
Fixpoint digits_aux (fuel : nat) (n : Z) : text :=
  match fuel with
  | O => []
  | Datatypes.S f =>
    (if n <? 10 then [] else digits_aux f (n / 10)) ++ [digit_char (n mod 10)]
  end.

Definition print_uint (n : Z) : text :=
  digits_aux (Datatypes.S (Z.to_nat (Z.log2 n))) n.

(** [%d] *)
Definition print_int (z : Z) : text :=
  if z <? 0 then minus :: print_uint (- z) else print_uint z.

(** Exactly [k] digits, with leading zeros. *)
Fixpoint digits_fixed (k : nat) (n : Z) : text :=
  match k with
  | O => []
  | Datatypes.S k' => digits_fixed k' (n / 10) ++ [digit_char (n mod 10)]
  end.

(** [num / den] rounded to the nearest integer, ties to even. *)
Definition div_half_even (num den : Z) : Z :=
  let q := num / den in
  let r := num mod den in
  if 2 * r <? den then q
  else if den <? 2 * r then q + 1
  else if Z.even q then q else q + 1.

(** The magnitude of a finite double [m * 2^e], in millionths, rounded. *)
Definition millionths (m : positive) (e : Z) : Z :=
  if 0 <=? e then Zpos m * 2 ^ e * 1000000
  else div_half_even (Zpos m * 1000000) (2 ^ (- e)).

Definition sign_text (s : bool) : text := if s then [minus] else [].

(** [%.6f]: the exact value rounded to six decimals.  The sign of a NaN
    is not visible in a [float]; the model prints [nan]. *)
Definition print_f6 (x : float) : text :=
  match Prim2SF x with
  | S754_nan => lit "nan"
  | S754_infinity s => sign_text s ++ lit "inf"
  | S754_zero s => sign_text s ++ lit "0.000000"
  | S754_finite s m e =>
    let n := millionths m e in
    sign_text s ++ print_uint (n / 1000000) ++ [dot] ++ digits_fixed 6 (n mod 1000000)
  end.

(** *** Input conversions

    A scanner takes the unread input and returns the value converted, if
    the conversion succeeded, and the input left unread. *)

Fixpoint skip_space (s : text) : text :=
  match s with
  | c :: rest => if isspace c then skip_space rest else s
  | [] => []
  end.

Fixpoint span_digits (s : text) : text * text :=
  match s with
  | c :: rest =>
    if isdigit c then let '(ds, r) := span_digits rest in (c :: ds, r) else ([], s)
  | [] => ([], [])
  end.

Definition value_of_digits (ds : text) : Z :=
  fold_left (fun a c => a * 10 + digit_val c) ds 0.

Definition scan_sign (s : text) : bool * text :=
  match s with
  | c :: rest =>
    if Ascii.eqb c minus then (true, rest)
    else if Ascii.eqb c plus then (false, rest)
    else (false, s)
  | [] => (false, [])
  end.

Definition LONG_MAX : Z := 9223372036854775807.
Definition LONG_MIN : Z := -9223372036854775808.

(** [%d]: white space, an optional sign, decimal digits.  The digits are
    converted as by [strtol], which saturates at the bounds of [long], and
    the result is stored in an [int]. *)
Definition scan_int (s : text) : option Z * text :=
  let s1 := skip_space s in
  let '(neg, s2) := scan_sign s1 in
  let '(ds, s3) := span_digits s2 in
  match ds with
  | [] => (None, s3)
  | _ =>
    let v := value_of_digits ds in
    let v := if neg then - v else v in
    (Some (CInt.wrap (Z.max LONG_MIN (Z.min LONG_MAX v))), s3)
  end.

Fixpoint span_nonspace (width : nat) (s : text) : text * text :=
  match width, s with
  | Datatypes.S k, c :: rest =>
    if isspace c then ([], s)
    else let '(w, r) := span_nonspace k rest in (c :: w, r)
  | _, _ => ([], s)
  end.

(** [%Ns]: white space, then at most [width] characters that are not
    white space. *)
Definition scan_str (width : nat) (s : text) : option text * text :=
  let s1 := skip_space s in
  let '(w, r) := span_nonspace width s1 in
  match w with
  | [] => (None, r)
  | _ => (Some w, r)
  end.

Definition lower (c : ascii) : ascii :=
  let n := nat_of_ascii c in
  if (Nat.leb 65 n && Nat.leb n 90)%bool then ascii_of_nat (n + 32) else c.

(** [s] starts with [word], letter case apart: the rest of [s]. *)
Fixpoint strip_word (word s : text) : option text :=
  match word, s with
  | [], _ => Some s
  | w :: word', c :: rest =>
    if Ascii.eqb (lower c) w then strip_word word' rest else None
  | _ :: _, [] => None
  end.

(** The double nearest to [n * 10^k] (ties to even), with sign [neg]. *)
Definition decimal_to_float (neg : bool) (n k : Z) : float :=
  if n =? 0 then (if neg then neg_zero else zero)
  else
    SF2Prim
      (if 0 <=? k then binary_normalize prec emax (n * 10 ^ k) 0 neg
       else
         let q := SFdiv prec emax (S754_finite false (Z.to_pos n) 0)
                        (S754_finite false (Z.to_pos (10 ^ (- k))) 0) in
         if neg then SFopp q else q).

(** An exponent part [e], optional sign, digits; absent if no digit
    follows. *)
Definition scan_exponent (s : text) : Z * text :=
  match s with
  | c :: rest =>
    if Ascii.eqb (lower c) (ascii_of_nat 101) then
      let '(neg, s1) := scan_sign rest in
      let '(ds, s2) := span_digits s1 in
      match ds with
      | [] => (0, s)
      | _ => ((if neg then - value_of_digits ds else value_of_digits ds), s2)
      end
    else (0, s)
  | [] => (0, [])
  end.

(** The part of [%lf] after the sign: [inf], [infinity], [nan], or decimal
    digits with an optional point and an optional exponent, converted as
    by [strtod].  Hexadecimal constants are not modelled. *)
Definition scan_lf_unsigned (neg : bool) (s2 : text) : option float * text :=
  match strip_word (lit "infinity") s2 with
  | Some r => (Some (if neg then neg_infinity else infinity), r)
  | None =>
    match strip_word (lit "inf") s2 with
    | Some r => (Some (if neg then neg_infinity else infinity), r)
    | None =>
      match strip_word (lit "nan") s2 with
      | Some r => (Some nan, r)
      | None =>
        let '(ip, s3) := span_digits s2 in
        let '(fp, s4) :=
          match s3 with
          | c :: rest => if Ascii.eqb c dot then span_digits rest else ([], s3)
          | [] => ([], s3)
          end in
        match ip ++ fp with
        | [] => (None, s4)
        | ds =>
          let '(ex, s5) := scan_exponent s4 in
          (Some (decimal_to_float neg (value_of_digits ds)
                                  (ex - Z.of_nat (length fp))), s5)
        end
      end
    end
  end.

(** [%lf]: white space, an optional sign, then the number. *)
Definition scan_lf (s : text) : option float * text :=
  let s1 := skip_space s in
  let '(neg, s2) := scan_sign s1 in
  scan_lf_unsigned neg s2.

(** One conversion after another; the first that fails ends the call. *)
Definition scan_bind {A B : Type}
           (m : text -> option A * text) (k : A -> text -> option B * text)
  : text -> option B * text :=
  fun s =>
    match m s with
    | (Some a, s') => k a s'
    | (None, s') => (None, s')
    end.

Definition scan_ret {A : Type} (a : A) : text -> option A * text :=
  fun s => (Some a, s).

(** [fgets(line, size, fp)]: at most [size - 1] characters, up to and
    including a newline; [None] at the end of the input. *)
Fixpoint fgets_aux (room : nat) (s : text) : text * text :=
  match room, s with
  | Datatypes.S r, c :: rest =>
    if Ascii.eqb c newline then ([c], rest)
    else let '(l, rest') := fgets_aux r rest in (c :: l, rest')
  | _, _ => ([], s)
  end.

Definition fgets (size : nat) (s : text) : option text * text :=
  match s with
  | [] => (None, [])
  | _ => let '(l, r) := fgets_aux (size - 1) s in (Some l, r)
  end.

End Stdio.

Import Stdio.

(** ** Saving (lines 126-161 and 233-256) *)

(** Lines 131-134: [name R G Y lat lon]. *)
Definition junction_line (g : Graph) (i : Z) : text :=
  lit (name_of g i) ++ [space] ++
  print_int (red (light_of g i)) ++ [space] ++
  print_int (green (light_of g i)) ++ [space] ++
  print_int (yellow (light_of g i)) ++ [space] ++
  print_f6 (aget 0%float (lat g) i) ++ [space] ++
  print_f6 (aget 0%float (lon g) i) ++ [newline].

(** Lines 138-145: the number of adjacency entries [u -> v] with [u < v]. *)
Definition count_edges (g : Graph) : Z :=
  for_upto (vertices g)
    (fun u count =>
       fold_left (fun c p => if u <? to p then CInt.add c 1 else c) (adj_of g u) count)
    0.

Definition edge_line (e : Z * Z * Z) : text :=
  let '(u, v, w) := e in
  print_int u ++ [space] ++ print_int v ++ [space] ++ print_int w ++ [newline].

(** The text written to [filename]. *)
Definition snapshot (g : Graph) : text :=
  print_int (vertices g) ++ [newline] ++
  for_upto (vertices g) (fun i out => out ++ junction_line g i) [] ++
  print_int (count_edges g) ++ [newline] ++
  concat (map edge_line (edges_once g)).

(** [writeGraphViz]: the text written to the DOT file. *)
Definition writeGraphViz (g : Graph) : text :=
  lit "graph City {" ++ [newline] ++
  lit "  overlap=false;" ++ [newline] ++
  lit "  splines=true;" ++ [newline] ++
  for_upto (vertices g)
    (fun i out =>
       out ++ lit "  n" ++ print_int i ++ lit " [label=" ++ [quote] ++
       lit (name_of g i) ++ [backslash] ++ lit "nR:" ++
       print_int (red (light_of g i)) ++ lit " G:" ++
       print_int (green (light_of g i)) ++ lit " Y:" ++
       print_int (yellow (light_of g i)) ++ [quote] ++ lit "];" ++ [newline])
    [] ++
  concat
    (map (fun e : Z * Z * Z =>
            let '(u, v, w) := e in
            lit "  n" ++ print_int u ++ lit " -- n" ++ print_int v ++
            lit " [label=" ++ [quote] ++ print_int w ++ [quote] ++ lit "];" ++ [newline])
         (edges_once g)) ++
  lit "}" ++ [newline].

(** [saveGraphToFile]: the text of the snapshot, the text of
    [graphviz.dot], and what was printed. *)
Definition saveGraphToFile (g : Graph) (filename : string) : text * text * list Event :=
  (snapshot g, writeGraphViz g, [EvSaved filename; EvDotExported]).

(** ** Loading (lines 165-230) *)

(** [fscanf(fp, "%19s %d %d %d %lf %lf", ...) == 6] *)
Definition scan_junction6 : text -> option (text * Z * Z * Z * float * float) * text :=
  scan_bind (scan_str 19) (fun name =>
  scan_bind scan_int (fun r =>
  scan_bind scan_int (fun gr =>
  scan_bind scan_int (fun y =>
  scan_bind scan_lf (fun la =>
  scan_bind scan_lf (fun lo =>
  scan_ret (name, r, gr, y, la, lo))))))).

(** [sscanf(line, "%19s %d %d %d", ...) == 4] *)
Definition scan_junction4 : text -> option (text * Z * Z * Z) * text :=
  scan_bind (scan_str 19) (fun name =>
  scan_bind scan_int (fun r =>
  scan_bind scan_int (fun gr =>
  scan_bind scan_int (fun y =>
  scan_ret (name, r, gr, y))))).

(** [fscanf(fp, "%d %d %d", ...) == 3] *)
Definition scan_edge : text -> option (Z * Z * Z) * text :=
  scan_bind scan_int (fun u =>
  scan_bind scan_int (fun v =>
  scan_bind scan_int (fun w =>
  scan_ret (u, v, w)))).

(** Lines 186-189 and 198-201: [strncpy] of at most 19 characters, then
    the phase and the coordinates. *)
Definition store_junction (g : Graph) (i : Z) (name : text) (r gr y : Z) (la lo : float)
  : Graph :=
  mkGraph (vertices g) (adj g)
          (aset (lights g) i (mkLight r gr y))
          (aset (names g) i (string_of_list_ascii (firstn 19 name)))
          (aset (lat g) i la) (aset (lon g) i lo).

(** Lines 196-204: read lines until one holds [name R G Y]. *)
Fixpoint fallback_lines (fuel : nat) (s : text) : option (text * Z * Z * Z) * text :=
  match fuel with
  | O => (None, s)
  | Datatypes.S f =>
    match fgets 256 s with
    | (None, s') => (None, s')
    | (Some line, s') =>
      match fst (scan_junction4 line) with
      | Some r => (Some r, s')
      | None => fallback_lines f s'
      end
    end
  end.

(** The body of the loop of lines 179-212, for junction [i]. *)
Definition load_junction (i : Z) (st : Graph * text) : Graph * text :=
  let '(g, inp) := st in
  match scan_junction6 inp with
  | (Some (name, r, gr, y, la, lo), inp') =>
    (store_junction g i name r gr y la lo, inp')
  | (None, inp') =>
    match fallback_lines (Datatypes.S (length inp')) inp' with
    | (Some (name, r, gr, y), inp'') =>
      (store_junction g i name r gr y 0%float 0%float, inp'')
    | (None, inp'') =>
      (store_junction g i
         (firstn 19 (lit "J" ++ print_int i)) 10 5 2 0%float 0%float, inp'')
    end
  end.

(** Lines 219-225: the two entries of a road, without any range check. *)
Definition push_edge (g : Graph) (u vv w : Z) : Graph :=
  let e1 := newEdge vv w in
  let g1 := set_adj g (aset (adj g) u (e1 :: adj_of g u)) in
  let e2 := newEdge u w in
  set_adj g1 (aset (adj g1) vv (e2 :: adj_of g1 vv)).

(** The loop of lines 216-226; a line that does not hold three numbers
    ends it. *)
Fixpoint load_edges (count : nat) (g : Graph) (inp : text) : Graph :=
  match count with
  | O => g
  | Datatypes.S k =>
    match scan_edge inp with
    | (Some (u, vv, w), inp') => load_edges k (push_edge g u vv w) inp'
    | (None, _) => g
    end
  end.

(** [loadGraphFromFile]: [content] is the text of the file, or [None]
    when it cannot be opened. *)
Definition loadGraphFromFile (g : Graph) (filename : string) (content : option text)
  : Graph * list Event :=
  match content with
  | None => (initGraph g, [EvFileNotFound])
  | Some inp =>
    let g := initGraph g in
    match scan_int inp with
    | (None, _) => (initGraph g, [])
    | (Some v, inp1) =>
      let g := mkGraph v (adj g) (lights g) (names g) (lat g) (lon g) in
      let '(g, inp2) := for_upto (vertices g) load_junction (g, inp1) in
      let '(edges_count, inp3) :=
        match scan_int inp2 with
        | (Some c, r) => (c, r)
        | (None, r) => (0, r)
        end in
      (load_edges (Z.to_nat edges_count) g inp3, [EvLoaded filename])
    end
  end.

(** * Specification vocabulary *)

(** ** Values of type [int] *)

Definition int_ok (z : Z) : bool := (CInt.INT_MIN <=? z) && (z <=? CInt.INT_MAX).


(** ** Coordinates that survive a snapshot *)

(** What [%lf] reads back from the text that [%.6f] printed for [x]. *)
Definition reread (x : float) : float :=
  match Prim2SF x with
  | S754_nan => nan
  | S754_infinity s => if s then neg_infinity else infinity
  | S754_zero s => decimal_to_float s 0 (-6)
  | S754_finite s m e => decimal_to_float s (millionths m e) (-6)
  end.

Definition is_number (x : float) : bool :=
  match Prim2SF x with
  | S754_zero _ | S754_finite _ _ _ => true
  | _ => false
  end.

(** [x] is finite and is the double nearest to its own value rounded to
    six decimals. *)
Definition six_decimal (x : float) : Prop := is_number x = true /\ reread x = x.

(** ** Paths and their cost *)

(** Departure time from a junction as a function of the arrival time. *)
Definition depart (light : TrafficLight) (a : Z) : Z := a + getWaitingTime light a.

(** Time at which one may leave junction [to e], having left the tail of
    [e] at time [t]. *)
Definition arrive (g : Graph) (t : Z) (e : Edge) : Z :=
  depart (light_of g (to e)) (t + weight e).

(** Cost of traversing the edges of [p] in order, starting at time 0: base
    weights plus the waits met on the way, each wait taken at the arrival
    time accumulated along this very path. *)
Definition path_cost (g : Graph) (p : list Edge) : Z := fold_left (arrive g) p 0.

(** [p] is a sequence of adjacency entries that can be followed from [u]. *)
Fixpoint is_path (g : Graph) (u : Z) (p : list Edge) : Prop :=
  match p with
  | [] => True
  | e :: rest => In e (adj_of g u) /\ is_path g (to e) rest
  end.

Definition path_end (u : Z) (p : list Edge) : Z := List.last (map to p) u.

Definition connects (g : Graph) (src dest : Z) (p : list Edge) : Prop :=
  is_path g src p /\ path_end src p = dest.

(** A simple path visits no junction twice. *)
Definition simple_path (g : Graph) (src dest : Z) (p : list Edge) : Prop :=
  connects g src dest p /\ NoDup (src :: map to p).

(** ** Well-formed graphs *)

Definition in_bounds (n x : Z) : bool := (0 <=? x) && (x <? n).

(** The arrays have their [MAX] slots, the junction count fits, and every
    adjacency entry of a junction points to a junction. *)
Definition wf_graph (g : Graph) : bool :=
  (0 <=? vertices g) && (vertices g <=? MAX)
  && (Z.of_nat (length (adj g)) =? MAX)
  && (Z.of_nat (length (lights g)) =? MAX)
  && (Z.of_nat (length (names g)) =? MAX)
  && (Z.of_nat (length (lat g)) =? MAX)
  && (Z.of_nat (length (lon g)) =? MAX)
  && forallb (fun es => forallb (fun e => in_bounds (vertices g) (to e)) es)
             (firstn (Z.to_nat (vertices g)) (adj g)).

(** Weights are non-negative, and small enough for line 482 to stay
    within [int]: a tentative distance below [INF] plus a weight plus a
    full signal cycle. *)
Definition costs_ok (g : Graph) : bool :=
  forallb
    (fun es =>
       forallb
         (fun e =>
            (0 <=? weight e)
            && (weight e + Z.max 0 (cycle_of (light_of g (to e)))
                <=? CInt.INT_MAX - INF))
         es)
    (firstn (Z.to_nat (vertices g)) (adj g)).

(** ** Graphs that a snapshot reproduces *)

(** The junction ids [0 .. n-1]. *)
Definition range (n : Z) : list Z := map Z.of_nat (seq 0 (Z.to_nat n)).

(** A name that [%s] prints as one word for [%19s]: not empty, no white
    space, at most 19 characters. *)
Definition name_ok (s : string) : bool :=
  negb (Nat.eqb (length (lit s)) 0)
  && Nat.leb (length (lit s)) 19
  && forallb (fun c => negb (isspace c)) (lit s).

Definition light_ok (l : TrafficLight) : bool :=
  int_ok (red l) && int_ok (green l) && int_ok (yellow l).

Definition Edge_eq_dec (a b : Edge) : {a = b} + {a <> b}.
Proof. decide equality; apply Z.eq_dec. Defined.

Definition triple_eq_dec (a b : Z * Z * Z) : {a = b} + {a <> b}.
Proof. repeat decide equality. Defined.

(** The five arrays have their [MAX] slots. *)
Definition sized (g : Graph) : bool :=
  (Z.of_nat (length (adj g)) =? MAX)
  && (Z.of_nat (length (lights g)) =? MAX)
  && (Z.of_nat (length (names g)) =? MAX)
  && (Z.of_nat (length (lat g)) =? MAX)
  && (Z.of_nat (length (lon g)) =? MAX).

Definition junctions_ok (g : Graph) : bool :=
  forallb (fun i => name_ok (name_of g i) && light_ok (light_of g i))
          (range (vertices g)).

Definition weights_int (g : Graph) : bool :=
  forallb (fun u => forallb (fun e => int_ok (weight e)) (adj_of g u))
          (range (vertices g)).

Definition no_self_loop (g : Graph) : bool :=
  forallb (fun u => forallb (fun e => negb (to e =? u)) (adj_of g u))
          (range (vertices g)).

(** Every road is held in both directions, as often in the one as in the
    other (what [addEdge] and the loader produce). *)
Definition symmetric_adj (g : Graph) : bool :=
  forallb
    (fun u =>
       forallb
         (fun e =>
            Nat.eqb (count_occ Edge_eq_dec (adj_of g u) e)
                    (count_occ Edge_eq_dec (adj_of g (to e)) (mkEdge u (weight e))))
         (adj_of g u))
    (range (vertices g)).

Definition snapshot_ok (g : Graph) : bool :=
  wf_graph g && junctions_ok g && weights_int g && no_self_loop g
  && symmetric_adj g
  && (Z.of_nat (length (edges_once g)) <=? CInt.INT_MAX).

Definition coords_ok (g : Graph) : Prop :=
  forall i, 0 <= i < vertices g ->
    six_decimal (aget 0%float (lat g) i) /\ six_decimal (aget 0%float (lon g) i).

(** The junction stored for id [i] when the line that [g] saved for it is
    read into [gl]. *)
Definition restored (g gl : Graph) (i : Z) : Graph :=
  store_junction gl i (lit (name_of g i))
    (red (light_of g i)) (green (light_of g i)) (yellow (light_of g i))
    (reread (aget 0%float (lat g) i)) (reread (aget 0%float (lon g) i)).

Definition same_junction (g1 g2 : Graph) (j : Z) : Prop :=
  name_of g1 j = name_of g2 j /\ light_of g1 j = light_of g2 j /\
  aget 0%float (lat g1) j = aget 0%float (lat g2) j /\
  aget 0%float (lon g1) j = aget 0%float (lon g2) j.

Definition junction_ok (g : Graph) (i : Z) : Prop :=
  name_ok (name_of g i) = true /\ light_ok (light_of g i) = true /\
  is_number (aget 0%float (lat g) i) = true /\
  is_number (aget 0%float (lon g) i) = true.

(** ** Heap invariants *)

(** Slots below [size] hold the entries present; [pos] is their inverse. *)
Definition heap_shape (n : Z) (h : MinHeap) : Prop :=
  0 <= size h <= n /\ n <= MAX /\
  Z.of_nat (length (pos h)) = MAX /\ Z.of_nat (length (arr h)) = MAX /\
  (forall i, 0 <= i < size h ->
     exists nd, ptr_at h i = Some nd /\ 0 <= hv nd < n /\ pos_of h (hv nd) = i) /\
  (forall v, 0 <= v < n -> pos_of h v <> -1 ->
     0 <= pos_of h v < size h /\ v_at h (pos_of h v) = v).

Definition heap_order (h : MinHeap) : Prop :=
  forall i, 1 <= i < size h -> dist_at h ((i - 1) / 2) <= dist_at h i.

Definition heap_inv (n : Z) (h : MinHeap) : Prop := heap_shape n h /\ heap_order h.

(** The key of a junction that is present. *)
Definition key_of (h : MinHeap) (v : Z) : Z := dist_at h (pos_of h v).

(** Lines 288-290 and 316-318: the two [pos] writes and the pointer swap. *)
Definition exchange (h : MinHeap) (a b : Z) : MinHeap :=
  let h1 := set_pos h (aset (pos h) (v_at h a) b) in
  let h2 := set_pos h1 (aset (pos h1) (v_at h1 b) a) in
  swapHeapNode h2 a b.

(** [h'] holds the same junctions as [h], each with the same key. *)
Definition same_entries (n : Z) (h h' : MinHeap) : Prop :=
  size h' = size h /\
  forall v, 0 <= v < n ->
    (pos_of h' v = -1 <-> pos_of h v = -1) /\
    (pos_of h v <> -1 -> key_of h' v = key_of h v).

(** Heap order with one possible exception: slot [i] may be below its
    parent (while sifting up). *)
Definition up_inv (h : MinHeap) (i : Z) : Prop :=
  (forall j, 1 <= j < size h -> j <> i -> dist_at h ((j - 1) / 2) <= dist_at h j) /\
  (forall c, 1 <= i -> 1 <= c < size h -> (c - 1) / 2 = i ->
     dist_at h ((i - 1) / 2) <= dist_at h c).

(** Heap order with one possible exception: slot [i] may be above its
    children (while sifting down). *)
Definition down_inv (h : MinHeap) (i : Z) : Prop :=
  (forall j, 1 <= j < size h -> (j - 1) / 2 <> i ->
     dist_at h ((j - 1) / 2) <= dist_at h j) /\
  (forall c, 1 <= i -> 1 <= c < size h -> (c - 1) / 2 = i ->
     dist_at h ((i - 1) / 2) <= dist_at h c).

(** What [decreaseKey h v d] leaves behind: every junction is present or
    absent as before, [v] has key [d], the others keep their keys. *)
Definition decreased (n : Z) (h : MinHeap) (v d : Z) (h' : MinHeap) : Prop :=
  size h' = size h /\
  forall w, 0 <= w < n ->
    (pos_of h' w = -1 <-> pos_of h w = -1) /\
    (pos_of h w <> -1 -> key_of h' w = if w =? v then d else key_of h w).


(** What [extractMin] leaves behind after removing junction [u]: [u] is
    absent, the others are present or absent as before, with their keys. *)
Definition extracted (n : Z) (h : MinHeap) (u : Z) (h' : MinHeap) : Prop :=
  size h' = size h - 1 /\ pos_of h' u = -1 /\
  forall w, 0 <= w < n -> w <> u ->
    (pos_of h' w = -1 <-> pos_of h w = -1) /\
    (pos_of h w <> -1 -> key_of h' w = key_of h w).

(** ** Runs of the heap *)

(** The heaps reachable from the one built for [n] junctions by calls of
    [decreaseKey] (with a key not above the current one, as its contract
    asks) and of [extractMin]; the list records the junctions extracted,
    most recent first. *)
Inductive heap_run (n : Z) : MinHeap -> list Z -> Prop :=
| run_build : heap_run n (build_heap n) []
| run_decreaseKey h out v d h' :
    heap_run n h out ->
    0 <= v < n -> (pos_of h v <> -1 -> d <= key_of h v) ->
    decreaseKey h v d = Some h' ->
    heap_run n h' out
| run_extractMin h out h' nd :
    heap_run n h out ->
    extractMin h = Some (h', Some nd) ->
    heap_run n h' (hv nd :: out).

(** ** Invariants of the search *)

Definition dist_of (st : DState) (v : Z) : Z := aget 0 (st_dist st) v.

(** A junction is closed once it has left the heap. *)
Definition closed (st : DState) (v : Z) : Prop := pos_of (st_heap st) v = -1.

(** The candidate distance of line 482, for an edge [e] leaving a junction
    whose distance is [du]. *)
Definition candidate (g : Graph) (du : Z) (e : Edge) : Z :=
  CInt.add (CInt.add du (weight e))
           (getWaitingTime (light_of g (to e)) (CInt.add du (weight e))).

(** Holds at every point of the search, for any well-formed graph: the
    heap is a heap over the junctions, its keys are the tentative
    distances, and a junction with a distance other than [INF] can be
    reached from the source. *)
Definition search_inv (g : Graph) (src : Z) (st : DState) : Prop :=
  heap_inv (vertices g) (st_heap st) /\
  Z.of_nat (length (st_dist st)) = MAX /\
  Z.of_nat (length (st_parent st)) = MAX /\
  (forall v, 0 <= v < vertices g -> pos_of (st_heap st) v <> -1 ->
     key_of (st_heap st) v = dist_of st v) /\
  (forall v, 0 <= v < vertices g -> dist_of st v <> INF ->
     exists p, connects g src v p).

(** The effect of one pass of the inner loop on edge [e] out of [u]. *)
Inductive relaxed (g : Graph) (u : Z) (e : Edge) (st st' : DState) : Prop :=
| relaxed_closed :
    pos_of (st_heap st) (to e) = -1 -> st' = st -> relaxed g u e st st'
| relaxed_keep :
    pos_of (st_heap st) (to e) <> -1 ->
    dist_of st (to e) <= candidate g (dist_of st u) e ->
    st' = mkDState (st_dist st) (st_parent st) (st_heap st)
                   ((to e, candidate g (dist_of st u) e) :: st_cands st) ->
    relaxed g u e st st'
| relaxed_lower :
    pos_of (st_heap st) (to e) <> -1 ->
    candidate g (dist_of st u) e < dist_of st (to e) ->
    0 <= to e < Z.of_nat (length (st_dist st)) ->
    0 <= to e < Z.of_nat (length (st_parent st)) ->
    st_dist st' = aset (st_dist st) (to e) (candidate g (dist_of st u) e) ->
    st_parent st' = aset (st_parent st) (to e) u ->
    st_cands st' = (to e, candidate g (dist_of st u) e) :: st_cands st ->
    heap_inv (vertices g) (st_heap st') ->
    decreased (vertices g) (st_heap st) (to e)
              (candidate g (dist_of st u) e) (st_heap st') ->
    relaxed g u e st st'.

(** Holds with non-negative, bounded costs.  [u] is the junction whose
    edges are being relaxed and [done] those already relaxed; at the head
    of the outer loop [u] is [-1]. *)
Definition opt_inv (g : Graph) (src dest u : Z) (done : list Edge) (st : DState) : Prop :=
  (forall v, 0 <= v < vertices g -> 0 <= dist_of st v <= INF) /\
  dist_of st src = 0 /\
  (forall v, 0 <= v < vertices g -> dist_of st v < INF ->
     exists p, connects g src v p /\ path_cost g p = dist_of st v) /\
  (forall v, 0 <= v < vertices g -> closed st v ->
     dist_of st v < INF /\
     forall p, connects g src v p -> dist_of st v <= path_cost g p) /\
  (forall u' e, 0 <= u' < vertices g -> closed st u' -> In e (adj_of g u') ->
     (u' = u -> In e done) ->
     dist_of st (to e) <= arrive g (dist_of st u') e) /\
  (forall x y, 0 <= x < vertices g -> 0 <= y < vertices g ->
     closed st x -> ~ closed st y -> dist_of st x <= dist_of st y) /\
  ~ closed st dest /\
  (0 <= u < vertices g ->
     closed st u /\
     forall x, 0 <= x < vertices g -> closed st x -> dist_of st x <= dist_of st u).

(** The destination's distance is [INF] or a candidate that was logged. *)
Definition cand_inv (dest : Z) (st : DState) : Prop :=
  dist_of st dest = INF \/
  (dist_of st dest < INF /\ In (dest, dist_of st dest) (st_cands st)).

(** The distance [dijkstra] printed, if it printed one. *)
Definition reported_distance (evs : list Event) : option Z :=
  match evs with
  | EvShortestTime _ _ d :: _ => Some d
  | _ => None
  end.

(** [d] is the least cost of a simple path from [src] to [dest]. *)
Definition min_cost (g : Graph) (src dest d : Z) : Prop :=
  (exists p, simple_path g src dest p /\ path_cost g p = d) /\
  (forall p, simple_path g src dest p -> d <= path_cost g p).

(** The effect of the inner loop over a list of edges out of [u]. *)
Inductive relaxed_all (g : Graph) (u : Z) : list Edge -> DState -> DState -> Prop :=
| relaxed_all_nil st : relaxed_all g u [] st st
| relaxed_all_cons e es st st1 st2 :
    relaxed g u e st st1 -> relaxed_all g u es st1 st2 ->
    relaxed_all g u (e :: es) st st2.

(** What the search has established about the destination when it stops. *)
Definition search_result (g : Graph) (src dest : Z) (st : DState) : Prop :=
  (dist_of st dest < INF /\
   (exists p, connects g src dest p /\ path_cost g p = dist_of st dest) /\
   (forall p, connects g src dest p -> dist_of st dest <= path_cost g p))
  \/
  (dist_of st dest = INF /\
   forall p, connects g src dest p -> INF <= path_cost g p).

(** ** The parent links *)

(** Following [parent] from [v] reaches [-1] after [k] junctions. *)
Inductive chain (parent : list Z) : Z -> nat -> Prop :=
| chain_end : chain parent (-1) O
| chain_link v k :
    v <> -1 -> chain parent (aget 0 parent v) k -> chain parent v (Datatypes.S k).

(** The parent of each junction of the list is [-1] or occurs later in it. *)
Inductive ranked (parent : list Z) : list Z -> Prop :=
| ranked_nil : ranked parent []
| ranked_cons v l :
    ranked parent l ->
    aget 0 parent v = -1 \/ In (aget 0 parent v) l ->
    ranked parent (v :: l).

(** [order] lists the closed junctions, the last extracted first; parent
    links point into it, towards junctions extracted earlier. *)
Definition tree_inv (g : Graph) (order : list Z) (st : DState) : Prop :=
  ranked (st_parent st) order /\
  (forall x, In x order -> 0 <= x < vertices g /\ closed st x) /\
  (forall v, 0 <= v < vertices g -> closed st v -> In v order) /\
  (forall v, 0 <= v < vertices g ->
     aget 0 (st_parent st) v = -1 \/ In (aget 0 (st_parent st) v) order) /\
  Z.of_nat (length order) + size (st_heap st) = vertices g.

(** * Sample data *)

(** Three junctions "A", "B", "C" whose lights are always green and no
    road yet. *)
Definition demo_junctions : Graph :=
  mkGraph 3
    (replicate 50 [])
    (replicate 50 (mkLight 0 100 0))
    (["A"; "B"; "C"]%string ++ replicate 47 EmptyString)
    (replicate 50 0%float)
    (replicate 50 0%float).

(** The roads A-B (4), B-C (4) and A-C (10). *)
Definition demo_graph : Graph :=
  fst (addEdge (fst (addEdge (fst (addEdge demo_junctions 0 1 4)) 1 2 4)) 0 2 10).

(** A single road A-B that takes a million time units. *)
Definition far_graph : Graph := fst (addEdge demo_junctions 0 1 1000000).

(** The heap for three junctions after [decreaseKey(1, 5)]. *)
Definition demo_heap : MinHeap :=
  default (build_heap 3) (decreaseKey (build_heap 3) 1 5).

(** Three junctions with their signals and coordinates, and the roads
    between them. *)
Definition city_junctions : Graph :=
  mkGraph 3
    (replicate 50 [])
    ([mkLight 30 25 5; mkLight 20 40 0; mkLight 0 100 0] ++ replicate 47 light0)
    (["Rajiv_Chowk"; "Noida"; "Gurgaon"]%string ++ replicate 47 EmptyString)
    ([0x1.c9d288ce703bp+4; 0x1.c8916872b020cp+4; 0x1.c75a1cac08312p+4]%float
       ++ replicate 47 0%float)
    ([0x1.34d604189374cp+6; 0x1.3590624dd2f1bp+6; 0x1.341b3d07c84b6p+6]%float
       ++ replicate 47 0%float).

Definition city_graph : Graph :=
  fst (addEdge (fst (addEdge (fst (addEdge city_junctions 0 1 4)) 1 2 4)) 0 2 10).

(** The junctions of [demo_junctions] with a road from C to C itself. *)
Definition loop_graph : Graph := fst (addEdge demo_junctions 2 2 7).

(** * Vocabulary for further properties *)

(** A text in the layout of a snapshot: the junction lines of [g], then
    the count [c] and one line per road of [es]. *)
Definition snapshot_text (g : Graph) (c : Z) (es : list (Z * Z * Z)) : text :=
  print_int (vertices g) ++ [newline] ++
  concat (map (junction_line g) (range (vertices g))) ++
  print_int c ++ [newline] ++
  concat (map edge_line es).

(** The text is empty, blank, or its first character after the white
    space is neither a digit nor a sign. *)
Definition no_leading_int (s : text) : bool :=
  match skip_space s with
  | [] => true
  | c :: _ => negb (isdigit c) && negb (Ascii.eqb c minus) && negb (Ascii.eqb c plus)
  end.

(** [freeGraph] (lines 529-539): the list of every junction is released
    and its head set to [NULL].  The memory itself is not modelled. *)
Definition freeGraph (g : Graph) : Graph :=
  for_upto (vertices g) (fun i g' => set_adj g' (aset (adj g') i [])) g.

(** What [js_escape_name] does to one character. *)
Definition js_escape_char (c : ascii) : ascii :=
  if (Ascii.eqb c quote || Ascii.eqb c backslash)%bool then ascii_of_nat 39 else c.

(** ** The route that the parent links describe *)

(** What the search keeps true of [parent]: the source has none; a
    junction other than the source without a parent has not been reached;
    and the parent [u] of [v] is a closed junction, itself reached, with
    an entry [u -> v] along which the distance of [v] is the arrival
    time. *)
Definition link_inv (g : Graph) (src : Z) (st : DState) : Prop :=
  aget 0 (st_parent st) src = -1 /\
  forall v, 0 <= v < vertices g ->
    (aget 0 (st_parent st) v = -1 -> v <> src -> dist_of st v = INF) /\
    (aget 0 (st_parent st) v <> -1 ->
     0 <= aget 0 (st_parent st) v < vertices g /\
     closed st (aget 0 (st_parent st) v) /\
     dist_of st (aget 0 (st_parent st) v) < INF /\
     dist_of st v < INF /\
     exists e, In e (adj_of g (aget 0 (st_parent st) v)) /\ to e = v /\
               dist_of st v = arrive g (dist_of st (aget 0 (st_parent st) v)) e).

(** [v], its parent, the parent of its parent, ...: [k] junctions. *)
Fixpoint ancestors (k : nat) (parent : list Z) (v : Z) : list Z :=
  match k with
  | O => []
  | Datatypes.S k' => v :: ancestors k' parent (aget 0 parent v)
  end.





(** * Entering a city at the menu (main.c, lines 564-595)

    The block that [main] runs for choice 1.  Standard input is the text
    still unread; what the block prints is kept in order, prompts as text
    and the messages of the functions called as their events.  A [scanf]
    whose result is not looked at leaves the objects it did not reach as
    they were; where the program then reads a local variable that was
    never written ([vcount], [e], [u], [v], [w]) its behaviour is
    undefined, and the model answers [None]. *)

Inductive Shown : Type :=
| Say (t : text)
| Did (e : Event).

Definition set_name (g : Graph) (i : Z) (w : text) : Graph :=
  mkGraph (vertices g) (adj g) (lights g)
          (aset (names g) i (string_of_list_ascii w)) (lat g) (lon g).

Definition set_light (g : Graph) (i : Z) (l : TrafficLight) : Graph :=
  mkGraph (vertices g) (adj g) (aset (lights g) i l) (names g) (lat g) (lon g).

Definition set_lat (g : Graph) (i : Z) (x : float) : Graph :=
  mkGraph (vertices g) (adj g) (lights g) (names g) (aset (lat g) i x) (lon g).

Definition set_lon (g : Graph) (i : Z) (x : float) : Graph :=
  mkGraph (vertices g) (adj g) (lights g) (names g) (lat g) (aset (lon g) i x).

(** [scanf("%d %d %d", &lights[i].red, &lights[i].green, &lights[i].yellow)] *)
Definition read_phases (g : Graph) (i : Z) (inp : text) : Graph * text :=
  match scan_int inp with
  | (None, inp1) => (g, inp1)
  | (Some r, inp1) =>
    let g1 := set_light g i (mkLight r (green (light_of g i)) (yellow (light_of g i))) in
    match scan_int inp1 with
    | (None, inp2) => (g1, inp2)
    | (Some gr, inp2) =>
      let g2 := set_light g1 i (mkLight r gr (yellow (light_of g1 i))) in
      match scan_int inp2 with
      | (None, inp3) => (g2, inp3)
      | (Some y, inp3) => (set_light g2 i (mkLight r gr y), inp3)
      end
    end
  end.

(** [scanf("%lf %lf", &lat[i], &lon[i])] *)
Definition read_coords (g : Graph) (i : Z) (inp : text) : Graph * text :=
  match scan_lf inp with
  | (None, inp1) => (g, inp1)
  | (Some la, inp1) =>
    let g1 := set_lat g i la in
    match scan_lf inp1 with
    | (None, inp2) => (g1, inp2)
    | (Some lo, inp2) => (set_lon g1 i lo, inp2)
    end
  end.

(** The body of the loop of lines 575-584, for junction [i]. *)
Definition read_junction (i : Z) (st : Graph * text * list Shown)
  : Graph * text * list Shown :=
  let '(g, inp, out) := st in
  let out := out ++ [Say ([newline] ++ lit "Junction " ++ print_int i ++ lit " name: ")] in
  let '(g, inp) :=
    match scan_str 19 inp with
    | (Some w, r) => (set_name g i w, r)
    | (None, r) => (g, r)
    end in
  let out :=
    out ++ [Say (lit "Enter traffic light timings (Red Green Yellow) for " ++
                 lit (name_of g i) ++ lit ": ")] in
  let '(g, inp) := read_phases g i inp in
  let out :=
    out ++ [Say (lit "Enter latitude and longitude for " ++ lit (name_of g i) ++
                 lit " (e.g., 28.6139 77.2090): ")] in
  let '(g, inp) := read_coords g i inp in
  (set_adj g (aset (adj g) i []), inp, out).

(** The loop of lines 590-594. *)
Fixpoint read_roads (count : nat) (st : Graph * text * list Shown)
  : option (Graph * text * list Shown) :=
  match count with
  | O => Some st
  | Datatypes.S k =>
    let '(g, inp, out) := st in
    match scan_edge inp with
    | (Some (u, v, w), inp') =>
      let '(g', evs) := addEdge g u v w in
      read_roads k (g', inp', out ++ map Did evs)
    | (None, _) => None
    end
  end.

Definition menu_choice1 (g : Graph) (inp : text) : option (Graph * text * list Shown) :=
  let g := freeGraph g in
  let out := [Say (lit "Enter number of junctions (max " ++ print_int MAX ++ lit "): ")] in
  match scan_int inp with
  | (None, _) => None
  | (Some vcount, inp) =>
    if (vcount <? 1) || (vcount >? MAX) then
      Some (g, inp,
            out ++ [Say (lit "Invalid number; must be 1.." ++ print_int MAX ++ [newline])])
    else
      let g := mkGraph vcount (adj g) (lights g) (names g) (lat g) (lon g) in
      let '(g, inp, out) := for_upto (vertices g) read_junction (g, inp, out) in
      let out := out ++ [Say (lit "Enter number of roads: ")] in
      match scan_int inp with
      | (None, _) => None
      | (Some e, inp) =>
        let out :=
          out ++ [Say (lit "Enter roads (u v distance) each in a new line:" ++ [newline])] in
        read_roads (Z.to_nat e) (g, inp, out)
      end
  end.

(** The roads of [es] whose two ends are junctions below [n]. *)
Definition valid_roads (n : Z) (es : list (Z * Z * Z)) : list (Z * Z * Z) :=
  List.filter (fun e => in_bounds n (fst (fst e)) && in_bounds n (snd (fst e))) es.

(** The junction [i] of [g] entered at the menu: its line stored into
    [gl], and its adjacency list emptied. *)
Definition entered (g gl : Graph) (i : Z) : Graph :=
  set_adj (restored g gl i) (aset (adj gl) i []).

(** The three prompts shown for junction [i]. *)
Definition junction_prompts (g : Graph) (i : Z) : list Shown :=
  [Say ([newline] ++ lit "Junction " ++ print_int i ++ lit " name: ");
   Say (lit "Enter traffic light timings (Red Green Yellow) for " ++
        lit (name_of g i) ++ lit ": ");
   Say (lit "Enter latitude and longitude for " ++ lit (name_of g i) ++
        lit " (e.g., 28.6139 77.2090): ")].

(** Three road lines: a road A-B, a road to a junction that does not
    exist, and a road from C to C. *)
Definition sample_roads : list (Z * Z * Z) := [(0, 1, 4); (1, 5, 2); (2, 2, 9)].

(** * Reading the menu choice (main.c, lines 559-562) *)


(** * Properties *)

(** ** [int] arithmetic and arrays *)

Lemma wrap_id (z : Z) : CInt.in_range z -> CInt.wrap z = z.
Proof.
  unfold CInt.in_range, CInt.wrap, CInt.INT_MIN, CInt.INT_MAX. intros Hz.
  rewrite Z.mod_small; lia.
Qed.

Lemma wrap_in_range (z : Z) : CInt.in_range (CInt.wrap z).
Proof.
  unfold CInt.in_range, CInt.wrap, CInt.INT_MIN, CInt.INT_MAX.
  pose proof (Z.mod_pos_bound (z + 2147483648) 4294967296). lia.
Qed.

Lemma add_exact (a b : Z) : CInt.in_range (a + b) -> CInt.add a b = a + b.
Proof. apply wrap_id. Qed.

Lemma sub_exact (a b : Z) : CInt.in_range (a - b) -> CInt.sub a b = a - b.
Proof. apply wrap_id. Qed.

Lemma mul_exact (a b : Z) : CInt.in_range (a * b) -> CInt.mul a b = a * b.
Proof. apply wrap_id. Qed.

Lemma rem_nonneg_exact (a b : Z) :
  0 <= a -> 0 < b -> CInt.in_range b -> CInt.rem a b = a mod b.
Proof.
  intros Ha Hb Hr. unfold CInt.rem.
  rewrite Z.rem_mod_nonneg by lia.
  apply wrap_id. pose proof (Z.mod_pos_bound a b Hb).
  unfold CInt.in_range, CInt.INT_MIN, CInt.INT_MAX in *. lia.
Qed.

Lemma div2_nonneg_exact (a : Z) :
  0 <= a -> CInt.in_range a -> CInt.div a 2 = a / 2.
Proof.
  intros Ha Hr. unfold CInt.div.
  rewrite Z.quot_div_nonneg by lia.
  apply wrap_id. pose proof (Z.div_pos a 2). pose proof (Z.div_le_upper_bound a 2 a).
  unfold CInt.in_range, CInt.INT_MIN, CInt.INT_MAX in *. lia.
Qed.

Section Arrays.
Context {A : Type}.
Implicit Types (l : list A) (i j : Z) (x d : A).

Lemma length_aset l i x : length (aset l i x) = length l.
Proof. unfold aset. destruct (i <? 0); [reflexivity | apply length_insert]. Qed.

Lemma aget_aset_eq d l i x :
  0 <= i < Z.of_nat (length l) -> aget d (aset l i x) i = x.
Proof.
  intros Hi. unfold aget, aset.
  destruct (Z.ltb_spec i 0); [lia |].
  rewrite list_lookup_insert_eq by lia. reflexivity.
Qed.

Lemma aget_aset_ne d l i j x : i <> j -> aget d (aset l i x) j = aget d l j.
Proof.
  intros Hne. unfold aget, aset.
  destruct (Z.ltb_spec j 0); [reflexivity |].
  destruct (Z.ltb_spec i 0); [reflexivity |].
  rewrite list_lookup_insert_ne by lia. reflexivity.
Qed.

Lemma aget_aset d l i j x :
  0 <= i < Z.of_nat (length l) ->
  aget d (aset l i x) j = if j =? i then x else aget d l j.
Proof.
  intros Hi. destruct (Z.eqb_spec j i) as [-> | Hne].
  - apply aget_aset_eq; assumption.
  - apply aget_aset_ne; congruence.
Qed.

Lemma aget_lookup d l i x :
  0 <= i -> l !! Z.to_nat i = Some x -> aget d l i = x.
Proof.
  intros Hi Hl. unfold aget. destruct (Z.ltb_spec i 0); [lia |].
  rewrite Hl. reflexivity.
Qed.

Lemma aget_replicate d (n : nat) x i :
  0 <= i < Z.of_nat n -> aget d (replicate n x) i = x.
Proof.
  intros Hi. apply aget_lookup; [lia |].
  apply lookup_replicate_2. lia.
Qed.

End Arrays.

(** ** Signal model *)

Lemma cycle_of_in_range (light : TrafficLight) : CInt.in_range (cycle_of light).
Proof. apply wrap_in_range. Qed.

(** The [int] sum of line 260 is the mathematical sum whenever that fits. *)
Lemma cycle_of_exact (light : TrafficLight) :
  0 <= red light -> 0 <= green light -> 0 <= yellow light ->
  red light + green light + yellow light <= CInt.INT_MAX ->
  cycle_of light = red light + green light + yellow light.
Proof.
  intros Hr Hg Hy Hs. unfold cycle_of.
  rewrite (add_exact (red light)); [apply add_exact |];
    unfold CInt.in_range, CInt.INT_MIN, CInt.INT_MAX in *; lia.
Qed.

(** [getWaitingTime] on a non-negative arrival time, without the wrapping. *)
Lemma getWaitingTime_eq (light : TrafficLight) (a : Z) :
  0 <= a ->
  getWaitingTime light a =
    if cycle_of light <=? 0 then 0
    else if a mod cycle_of light <? green light then 0
         else cycle_of light - a mod cycle_of light.
Proof.
  intros Ha. unfold getWaitingTime. cbv zeta.
  destruct (Z.leb_spec (cycle_of light) 0) as [Hc | Hc]; [reflexivity |].
  pose proof (cycle_of_in_range light) as Hr.
  rewrite rem_nonneg_exact by assumption.
  destruct (Z.ltb_spec (a mod cycle_of light) (green light)); [reflexivity |].
  apply sub_exact.
  pose proof (Z.mod_pos_bound a (cycle_of light) Hc).
  unfold CInt.in_range, CInt.INT_MIN, CInt.INT_MAX in *. lia.
Qed.

Lemma getWaitingTime_bounds (light : TrafficLight) (a : Z) :
  0 <= a -> 0 <= getWaitingTime light a <= Z.max 0 (cycle_of light).
Proof.
  intros Ha. rewrite getWaitingTime_eq by assumption.
  destruct (Z.leb_spec (cycle_of light) 0) as [Hc | Hc]; [lia |].
  pose proof (Z.mod_pos_bound a (cycle_of light) Hc).
  destruct (Z.ltb_spec (a mod cycle_of light) (green light)); lia.
Qed.

(** First in, first out: arriving later never lets one leave earlier. *)
Lemma depart_mono (light : TrafficLight) (a b : Z) :
  0 <= a -> a <= b -> depart light a <= depart light b.
Proof.
  intros Ha Hab. unfold depart.
  rewrite !getWaitingTime_eq by lia.
  destruct (Z.leb_spec (cycle_of light) 0) as [Hc | Hc]; [lia |].
  set (c := cycle_of light) in *.
  pose proof (Z.mod_pos_bound a c Hc) as Hma.
  pose proof (Z.mod_pos_bound b c Hc) as Hmb.
  pose proof (Z.div_mod a c ltac:(lia)) as Hda.
  pose proof (Z.div_mod b c ltac:(lia)) as Hdb.
  assert (Hq : a / c <= b / c) by (apply Z.div_le_mono; lia).
  destruct (Z.ltb_spec (a mod c) (green light)) as [Hga | Hga];
    destruct (Z.ltb_spec (b mod c) (green light)) as [Hgb | Hgb]; try lia.
  - (* a waits, b passes: b is in a later cycle *)
    destruct (Z.eq_dec (a / c) (b / c)) as [Heq | Hneq].
    + rewrite Heq in Hda. lia.
    + assert (a / c + 1 <= b / c) by lia. nia.
  - (* both wait *)
    destruct (Z.eq_dec (a / c) (b / c)) as [Heq | Hneq].
    + rewrite Heq in Hda. lia.
    + assert (a / c + 1 <= b / c) by lia. nia.
Qed.

Lemma depart_ge (light : TrafficLight) (a : Z) : 0 <= a -> a <= depart light a.
Proof. intros Ha. unfold depart. pose proof (getWaitingTime_bounds light a Ha). lia. Qed.

(** ** Heap: reading after the elementary writes *)

Lemma pos_of_aset (h : MinHeap) (v x w : Z) :
  0 <= v < Z.of_nat (length (pos h)) ->
  pos_of (set_pos h (aset (pos h) v x)) w = if w =? v then x else pos_of h w.
Proof. intros Hv. unfold pos_of, set_pos. simpl. apply aget_aset. assumption. Qed.

Lemma ptr_at_aset (h : MinHeap) (i j : Z) (p : option HeapNode) :
  0 <= i < Z.of_nat (length (arr h)) ->
  ptr_at (set_arr h (aset (arr h) i p)) j = if j =? i then p else ptr_at h j.
Proof. intros Hi. unfold ptr_at, set_arr. simpl. apply aget_aset. assumption. Qed.

Lemma exchange_size (h : MinHeap) (a b : Z) : size (exchange h a b) = size h.
Proof. reflexivity. Qed.

Lemma exchange_length_pos (h : MinHeap) (a b : Z) :
  length (pos (exchange h a b)) = length (pos h).
Proof. unfold exchange, swapHeapNode. simpl. rewrite !length_aset. reflexivity. Qed.

Lemma exchange_length_arr (h : MinHeap) (a b : Z) :
  length (arr (exchange h a b)) = length (arr h).
Proof. unfold exchange, swapHeapNode. simpl. rewrite !length_aset. reflexivity. Qed.

Lemma exchange_pos (h : MinHeap) (a b w : Z) :
  0 <= v_at h a < Z.of_nat (length (pos h)) ->
  0 <= v_at h b < Z.of_nat (length (pos h)) ->
  pos_of (exchange h a b) w =
    if w =? v_at h b then a else if w =? v_at h a then b else pos_of h w.
Proof.
  intros Ha Hb. unfold exchange, swapHeapNode, pos_of. simpl.
  change (v_at (set_pos h (aset (pos h) (v_at h a) b)) b) with (v_at h b).
  rewrite aget_aset by (rewrite length_aset; assumption).
  rewrite aget_aset by assumption. reflexivity.
Qed.

Lemma exchange_ptr (h : MinHeap) (a b i : Z) :
  0 <= a < Z.of_nat (length (arr h)) ->
  0 <= b < Z.of_nat (length (arr h)) ->
  ptr_at (exchange h a b) i =
    if i =? b then ptr_at h a else if i =? a then ptr_at h b else ptr_at h i.
Proof.
  intros Ha Hb. unfold exchange, swapHeapNode, ptr_at. simpl.
  rewrite aget_aset by (rewrite length_aset; assumption).
  rewrite aget_aset by assumption. reflexivity.
Qed.

Lemma exchange_node (h : MinHeap) (a b i : Z) :
  0 <= a < Z.of_nat (length (arr h)) ->
  0 <= b < Z.of_nat (length (arr h)) ->
  node_at (exchange h a b) i =
    if i =? b then node_at h a else if i =? a then node_at h b else node_at h i.
Proof.
  intros Ha Hb. unfold node_at. rewrite exchange_ptr by assumption.
  destruct (i =? b); [reflexivity |]. destruct (i =? a); reflexivity.
Qed.

(** ** Heap: the shape invariant *)

Lemma shape_slot (n : Z) (h : MinHeap) (i : Z) :
  heap_shape n h -> 0 <= i < size h ->
  exists nd, ptr_at h i = Some nd /\ node_at h i = nd /\
             0 <= v_at h i < n /\ pos_of h (v_at h i) = i.
Proof.
  intros (_ & _ & _ & _ & Hslot & _) Hi.
  destruct (Hslot i Hi) as (nd & Hp & Hv & Hpos).
  exists nd. unfold v_at, node_at. rewrite Hp. simpl. auto.
Qed.

Lemma shape_bounds (n : Z) (h : MinHeap) :
  heap_shape n h ->
  0 <= size h <= n /\ n <= Z.of_nat (length (pos h)) /\ n <= Z.of_nat (length (arr h)).
Proof. intros (Hs & Hn & Hlp & Hla & _). lia. Qed.

Lemma shape_present (n : Z) (h : MinHeap) (v : Z) :
  heap_shape n h -> 0 <= v < n -> pos_of h v <> -1 ->
  0 <= pos_of h v < size h /\ v_at h (pos_of h v) = v.
Proof. intros (_ & _ & _ & _ & _ & Hpos). apply Hpos. Qed.

Lemma exchange_shape (n : Z) (h : MinHeap) (a b : Z) :
  heap_shape n h -> 0 <= a < size h -> 0 <= b < size h -> a <> b ->
  heap_shape n (exchange h a b) /\ same_entries n h (exchange h a b).
Proof.
  intros Hs Ha Hb Hab.
  destruct (shape_bounds n h Hs) as (Hsz & Hlp & Hla).
  destruct (shape_slot n h a Hs Ha) as (na & Hpa & Hna & Hva & Hposa).
  destruct (shape_slot n h b Hs Hb) as (nb & Hpb & Hnb & Hvb & Hposb).
  assert (Hvab : v_at h a <> v_at h b) by (intros E; rewrite E in Hposa; lia).
  assert (Hpos' : forall w, pos_of (exchange h a b) w =
            if w =? v_at h b then a else if w =? v_at h a then b else pos_of h w)
    by (intros w; apply exchange_pos; lia).
  assert (Hnode' : forall i, node_at (exchange h a b) i =
            if i =? b then node_at h a else if i =? a then node_at h b else node_at h i)
    by (intros i; apply exchange_node; lia).
  assert (Hptr' : forall i, ptr_at (exchange h a b) i =
            if i =? b then ptr_at h a else if i =? a then ptr_at h b else ptr_at h i)
    by (intros i; apply exchange_ptr; lia).
  destruct Hs as (Hs1 & Hs2 & Hs3 & Hs4 & Hslot & Hpres).
  split.
  - unfold heap_shape. rewrite exchange_size, exchange_length_pos, exchange_length_arr.
    repeat split; try lia.
    + intros i Hi. rewrite Hptr'.
      destruct (Z.eqb_spec i b) as [-> | Hib].
      { exists na. split; [assumption |]. unfold v_at in *. rewrite Hna in *.
        split; [lia |]. rewrite Hpos'.
        destruct (Z.eqb_spec (hv na) (hv (node_at h b))); [contradiction |].
        rewrite Z.eqb_refl. reflexivity. }
      destruct (Z.eqb_spec i a) as [-> | Hia].
      { exists nb. split; [assumption |]. unfold v_at in *. rewrite Hnb in *.
        split; [lia |]. rewrite Hpos'. rewrite Z.eqb_refl. reflexivity. }
      destruct (Hslot i Hi) as (nd & Hp & Hv & Hpo).
      exists nd. split; [assumption |]. split; [assumption |].
      rewrite Hpos'.
      destruct (Z.eqb_spec (hv nd) (v_at h b)) as [E | _]; [rewrite E in Hpo; lia |].
      destruct (Z.eqb_spec (hv nd) (v_at h a)) as [E | _]; [rewrite E in Hpo; lia |].
      assumption.
    + rewrite Hpos' in *.
      destruct (Z.eqb_spec v (v_at h b)); [lia |].
      destruct (Z.eqb_spec v (v_at h a)); [lia |].
      apply Hpres; assumption.
    + rewrite Hpos' in *.
      destruct (Z.eqb_spec v (v_at h b)); [lia |].
      destruct (Z.eqb_spec v (v_at h a)); [lia |].
      apply Hpres; assumption.
    + unfold v_at. rewrite Hnode'. rewrite Hpos' in *.
      destruct (Z.eqb_spec v (v_at h b)) as [-> | Hvb'].
      { destruct (Z.eqb_spec a b); [lia |]. rewrite Z.eqb_refl. reflexivity. }
      destruct (Z.eqb_spec v (v_at h a)) as [-> | Hva'].
      { rewrite Z.eqb_refl. reflexivity. }
      destruct (Hpres v ltac:(lia) ltac:(assumption)) as (Hr & Hv).
      destruct (Z.eqb_spec (pos_of h v) b) as [E | _];
        [rewrite E in Hv; congruence |].
      destruct (Z.eqb_spec (pos_of h v) a) as [E | _];
        [rewrite E in Hv; congruence |].
      exact Hv.
  - split; [apply exchange_size |].
    intros v Hv. unfold key_of, dist_at. rewrite Hnode', Hpos'.
    destruct (Z.eqb_spec v (v_at h b)) as [-> | Hvb'].
    { rewrite Hposb. split; [lia |]. intros _.
      destruct (Z.eqb_spec a b); [lia |]. rewrite Z.eqb_refl. reflexivity. }
    destruct (Z.eqb_spec v (v_at h a)) as [-> | Hva'].
    { rewrite Hposa. split; [lia |]. intros _. rewrite Z.eqb_refl. reflexivity. }
    split; [reflexivity |]. intros Hp.
    destruct (Hpres v Hv Hp) as (Hr & Hvv).
    destruct (Z.eqb_spec (pos_of h v) b) as [E | _];
      [rewrite E in Hvv; congruence |].
    destruct (Z.eqb_spec (pos_of h v) a) as [E | _];
      [rewrite E in Hvv; congruence |].
    reflexivity.
Qed.

Lemma same_entries_refl (n : Z) (h : MinHeap) : same_entries n h h.
Proof. split; [reflexivity |]. intros v _. split; [reflexivity | reflexivity]. Qed.

Lemma same_entries_trans (n : Z) (h1 h2 h3 : MinHeap) :
  same_entries n h1 h2 -> same_entries n h2 h3 -> same_entries n h1 h3.
Proof.
  intros (Hs12 & H12) (Hs23 & H23). split; [congruence |].
  intros v Hv. destruct (H12 v Hv) as (Ha & Hb). destruct (H23 v Hv) as (Hc & Hd).
  split; [tauto |]. intros Hp. rewrite Hd by tauto. apply Hb. assumption.
Qed.

(** ** Heap: index arithmetic *)

Lemma parent_facts (i : Z) :
  1 <= i ->
  0 <= (i - 1) / 2 < i /\ (i = 2 * ((i - 1) / 2) + 1 \/ i = 2 * ((i - 1) / 2) + 2).
Proof.
  intros Hi. pose proof (Z.div_mod (i - 1) 2 ltac:(lia)).
  pose proof (Z.mod_pos_bound (i - 1) 2 ltac:(lia)). lia.
Qed.

Lemma parent_of_left (p : Z) : (2 * p + 1 - 1) / 2 = p.
Proof. replace (2 * p + 1 - 1) with (p * 2) by lia. apply Z.div_mul. lia. Qed.

Lemma parent_of_right (p : Z) : (2 * p + 2 - 1) / 2 = p.
Proof.
  replace (2 * p + 2 - 1) with (1 + p * 2) by lia.
  rewrite Z.div_add by lia. reflexivity.
Qed.

Lemma exchange_dist (n : Z) (h : MinHeap) (a b j : Z) :
  heap_shape n h -> 0 <= a < size h -> 0 <= b < size h ->
  dist_at (exchange h a b) j =
    if j =? b then dist_at h a else if j =? a then dist_at h b else dist_at h j.
Proof.
  intros Hs Ha Hb. destruct (shape_bounds n h Hs) as (Hsz & _ & Hla).
  unfold dist_at. rewrite exchange_node by lia.
  destruct (j =? b); [reflexivity |]. destruct (j =? a); reflexivity.
Qed.

(** ** Heap: sifting up (the loop of [decreaseKey]) *)

Lemma siftUp_unfold (fuel : nat) (h : MinHeap) (i : Z) :
  siftUp (Datatypes.S fuel) h i =
    let parent := CInt.div (CInt.sub i 1) 2 in
    if negb (i =? 0) && (dist_at h i <? dist_at h parent)
    then siftUp fuel (exchange h i parent) parent
    else Some h.
Proof. reflexivity. Qed.

Lemma parent_exact (i : Z) :
  1 <= i <= MAX -> CInt.div (CInt.sub i 1) 2 = (i - 1) / 2.
Proof.
  intros Hi. unfold MAX in Hi.
  rewrite sub_exact by (unfold CInt.in_range, CInt.INT_MIN, CInt.INT_MAX; lia).
  apply div2_nonneg_exact; [lia |].
  unfold CInt.in_range, CInt.INT_MIN, CInt.INT_MAX; lia.
Qed.

Lemma up_inv_stop (h : MinHeap) (i : Z) :
  up_inv h i -> (i = 0 \/ dist_at h ((i - 1) / 2) <= dist_at h i) -> heap_order h.
Proof.
  intros (H1 & _) Hstop j Hj.
  destruct (Z.eq_dec j i) as [-> | Hne]; [| apply H1; assumption].
  destruct Hstop as [-> | Hle]; [lia | assumption].
Qed.

Lemma up_inv_step (n : Z) (h : MinHeap) (i : Z) :
  heap_shape n h -> 1 <= i < size h -> up_inv h i ->
  dist_at h i < dist_at h ((i - 1) / 2) ->
  up_inv (exchange h i ((i - 1) / 2)) ((i - 1) / 2).
Proof.
  intros Hs Hi (H1 & H2) Hlt.
  destruct (parent_facts i ltac:(lia)) as (Hp & _).
  set (p := (i - 1) / 2) in *.
  assert (Hd : forall j, dist_at (exchange h i p) j =
            if j =? p then dist_at h i else if j =? i then dist_at h p else dist_at h j)
    by (intros j; apply (exchange_dist n); [assumption | lia | lia]).
  split.
  - intros j Hj Hjp. rewrite exchange_size in Hj.
    destruct (parent_facts j ltac:(lia)) as (Hpj & _).
    rewrite !Hd.
    destruct (Z.eqb_spec j p); [contradiction |].
    destruct (Z.eqb_spec j i) as [-> | Hji].
    + fold p. rewrite Z.eqb_refl. lia.
    + destruct (Z.eqb_spec ((j - 1) / 2) p) as [E | Hpp].
      * specialize (H1 j Hj Hji). rewrite E in H1. lia.
      * destruct (Z.eqb_spec ((j - 1) / 2) i) as [E | Hpi].
        -- specialize (H2 j ltac:(lia) Hj E). fold p in H2. exact H2.
        -- apply H1; assumption.
  - intros c Hp1 Hc Hcp. rewrite exchange_size in Hc.
    destruct (parent_facts p ltac:(lia)) as (Hpp & _).
    rewrite !Hd.
    destruct (Z.eqb_spec ((p - 1) / 2) p); [lia |].
    destruct (Z.eqb_spec ((p - 1) / 2) i); [lia |].
    destruct (Z.eqb_spec c p) as [-> | Hcp'].
    { destruct (parent_facts p ltac:(lia)). lia. }
    assert (Hpar : dist_at h ((p - 1) / 2) <= dist_at h p) by (apply H1; lia).
    destruct (Z.eqb_spec c i) as [-> | Hci]; [exact Hpar |].
    specialize (H1 c Hc Hci). rewrite Hcp in H1. lia.
Qed.

Lemma siftUp_correct (n : Z) (fuel : nat) :
  forall (h : MinHeap) (i : Z),
    heap_shape n h -> 0 <= i < size h -> (Z.to_nat i < fuel)%nat -> up_inv h i ->
    exists h', siftUp fuel h i = Some h' /\ heap_inv n h' /\ same_entries n h h'.
Proof.
  induction fuel as [| fuel IH]; intros h i Hs Hi Hfuel Hinv; [lia |].
  destruct (shape_bounds n h Hs) as (Hsz & _ & _).
  assert (HnMAX : n <= MAX) by (destruct Hs as (_ & ? & _); assumption).
  rewrite siftUp_unfold. cbv zeta.
  destruct (Z.eqb_spec i 0) as [-> | Hi0].
  { simpl. exists h. split; [reflexivity |]. split; [| apply same_entries_refl].
    split; [assumption |]. apply (up_inv_stop h 0); auto. }
  rewrite parent_exact by lia. simpl negb. rewrite andb_true_l.
  destruct (parent_facts i ltac:(lia)) as (Hp & _).
  destruct (Z.ltb_spec (dist_at h i) (dist_at h ((i - 1) / 2))) as [Hlt | Hge].
  - destruct (exchange_shape n h i ((i - 1) / 2) Hs ltac:(lia) ltac:(lia) ltac:(lia))
      as (Hs' & Hsame).
    destruct (IH (exchange h i ((i - 1) / 2)) ((i - 1) / 2)) as (h' & Hr & Hinv' & Hsame').
    + assumption.
    + rewrite exchange_size. lia.
    + lia.
    + apply (up_inv_step n); [assumption | lia | assumption | assumption].
    + exists h'. split; [assumption |]. split; [assumption |].
      eapply same_entries_trans; eassumption.
  - exists h. split; [reflexivity |]. split; [| apply same_entries_refl].
    split; [assumption |]. apply (up_inv_stop h i); auto.
Qed.

(** ** Heap: sifting down ([minHeapify]) *)

Lemma minHeapify_unfold (fuel : nat) (h : MinHeap) (idx : Z) :
  minHeapify (Datatypes.S fuel) h idx =
    let left := CInt.add (CInt.mul 2 idx) 1 in
    let right := CInt.add (CInt.mul 2 idx) 2 in
    let s1 :=
      if (left <? size h) && (dist_at h left <? dist_at h idx) then left else idx in
    let s2 :=
      if (right <? size h) && (dist_at h right <? dist_at h s1) then right else s1 in
    if negb (s2 =? idx) then minHeapify fuel (exchange h s2 idx) s2 else Some h.
Proof. reflexivity. Qed.

Lemma children_exact (idx : Z) :
  0 <= idx <= MAX ->
  CInt.add (CInt.mul 2 idx) 1 = 2 * idx + 1 /\ CInt.add (CInt.mul 2 idx) 2 = 2 * idx + 2.
Proof.
  intros Hi. unfold MAX in Hi.
  rewrite mul_exact by (unfold CInt.in_range, CInt.INT_MIN, CInt.INT_MAX; lia).
  split; apply add_exact; unfold CInt.in_range, CInt.INT_MIN, CInt.INT_MAX; lia.
Qed.

Lemma down_inv_stop (h : MinHeap) (i : Z) :
  0 <= i -> down_inv h i ->
  (2 * i + 1 < size h -> dist_at h i <= dist_at h (2 * i + 1)) ->
  (2 * i + 2 < size h -> dist_at h i <= dist_at h (2 * i + 2)) ->
  heap_order h.
Proof.
  intros Hi (H1 & _) Hl Hr j Hj.
  destruct (Z.eq_dec ((j - 1) / 2) i) as [E | Hne]; [| apply H1; assumption].
  rewrite E. destruct (parent_facts j ltac:(lia)) as (_ & Hc). rewrite E in Hc.
  destruct Hc as [Hc | Hc]; rewrite Hc in Hj |- *; [apply Hl | apply Hr]; lia.
Qed.

Lemma down_inv_step (n : Z) (h : MinHeap) (i s : Z) :
  heap_shape n h -> 0 <= i -> s < size h -> down_inv h i ->
  (s = 2 * i + 1 \/ s = 2 * i + 2) ->
  dist_at h s < dist_at h i ->
  (2 * i + 1 < size h -> dist_at h s <= dist_at h (2 * i + 1)) ->
  (2 * i + 2 < size h -> dist_at h s <= dist_at h (2 * i + 2)) ->
  down_inv (exchange h s i) s.
Proof.
  intros Hs Hi Hss (H1 & H2) Hchild Hlt Hl Hr.
  assert (Hps : (s - 1) / 2 = i)
    by (destruct Hchild as [-> | ->]; [apply parent_of_left | apply parent_of_right]).
  assert (Hd : forall j, dist_at (exchange h s i) j =
            if j =? i then dist_at h s else if j =? s then dist_at h i else dist_at h j)
    by (intros j; apply (exchange_dist n); [assumption | lia | lia]).
  split.
  - intros j Hj Hpj. rewrite exchange_size in Hj.
    destruct (parent_facts j ltac:(lia)) as (Hpjb & Hjc).
    rewrite !Hd.
    destruct (Z.eqb_spec j s) as [-> | Hjs].
    + rewrite Hps, Z.eqb_refl.
      destruct (Z.eqb_spec s i); [lia |]. lia.
    + destruct (Z.eqb_spec j i) as [-> | Hji].
      * destruct (Z.eqb_spec ((i - 1) / 2) i); [lia |].
        destruct (Z.eqb_spec ((i - 1) / 2) s); [lia |].
        apply H2; [lia | lia | assumption].
      * destruct (Z.eqb_spec ((j - 1) / 2) i) as [E | Hpi].
        -- rewrite E in Hjc. destruct Hjc as [-> | ->]; [apply Hl | apply Hr]; lia.
        -- destruct (Z.eqb_spec ((j - 1) / 2) s); [contradiction |].
           apply H1; assumption.
  - intros c Hs1 Hc Hpc. rewrite exchange_size in Hc.
    destruct (parent_facts c ltac:(lia)) as (Hpcb & _).
    rewrite Hps, !Hd, Z.eqb_refl.
    destruct (Z.eqb_spec c i); [lia |].
    destruct (Z.eqb_spec c s); [lia |].
    specialize (H1 c Hc ltac:(lia)). rewrite Hpc in H1. exact H1.
Qed.

Lemma minHeapify_correct (n : Z) (fuel : nat) :
  forall (h : MinHeap) (idx : Z),
    heap_shape n h -> 0 <= idx <= size h ->
    (Z.to_nat (size h - idx) < fuel)%nat -> down_inv h idx ->
    exists h', minHeapify fuel h idx = Some h' /\ heap_inv n h' /\ same_entries n h h'.
Proof.
  induction fuel as [| fuel IH]; intros h idx Hs Hi Hfuel Hinv; [lia |].
  destruct (shape_bounds n h Hs) as (Hsz & _ & _).
  assert (HnMAX : n <= MAX) by (destruct Hs as (_ & ? & _); assumption).
  rewrite minHeapify_unfold. cbv zeta.
  destruct (children_exact idx ltac:(lia)) as (-> & ->).
  set (l := 2 * idx + 1). set (r := 2 * idx + 2).
  set (s1 := if (l <? size h) && (dist_at h l <? dist_at h idx) then l else idx).
  set (s2 := if (r <? size h) && (dist_at h r <? dist_at h s1) then r else s1).
  assert (Hcases :
    (s2 = idx /\ (l < size h -> dist_at h idx <= dist_at h l)
              /\ (r < size h -> dist_at h idx <= dist_at h r)) \/
    ((s2 = l \/ s2 = r) /\ s2 < size h /\ dist_at h s2 < dist_at h idx
       /\ (l < size h -> dist_at h s2 <= dist_at h l)
       /\ (r < size h -> dist_at h s2 <= dist_at h r))).
  { subst s2 s1.
    destruct (Z.ltb_spec l (size h)) as [Hl | Hl]; simpl;
      [destruct (Z.ltb_spec (dist_at h l) (dist_at h idx)) as [Hdl | Hdl] |]; simpl;
      (destruct (Z.ltb_spec r (size h)) as [Hr | Hr]; simpl;
       [match goal with
        | |- context [dist_at h r <? ?x] =>
          destruct (Z.ltb_spec (dist_at h r) x) as [Hdr | Hdr]
        end |]); simpl; subst l r; lia. }
  destruct Hcases as [(-> & Hl & Hr) | (Hchild & Hlt & Hd & Hl & Hr)].
  - rewrite Z.eqb_refl. simpl. exists h. split; [reflexivity |].
    split; [| apply same_entries_refl]. split; [assumption |].
    apply (down_inv_stop h idx); [lia | assumption | exact Hl | exact Hr].
  - assert (Hne : s2 <> idx) by (subst l r; lia).
    destruct (Z.eqb_spec s2 idx); [contradiction |]. simpl.
    destruct (exchange_shape n h s2 idx Hs ltac:(subst l r; lia) ltac:(subst l r; lia) Hne)
      as (Hs' & Hsame).
    destruct (IH (exchange h s2 idx) s2) as (h' & Hr' & Hinv' & Hsame').
    + assumption.
    + rewrite exchange_size. subst l r. lia.
    + rewrite exchange_size. subst l r. lia.
    + apply (down_inv_step n); [assumption | lia | assumption | assumption
                               | exact Hchild | assumption | exact Hl | exact Hr].
    + exists h'. split; [assumption |]. split; [assumption |].
      eapply same_entries_trans; eassumption.
Qed.

(** ** Heap: [decreaseKey] *)

Lemma aset_aset_eq {A : Type} (l : list A) (i : Z) (x y : A) :
  aset (aset l i y) i x = aset l i x.
Proof. unfold aset. destruct (i <? 0); [reflexivity | apply list_insert_insert_eq]. Qed.

Lemma set_dist_at_live (n : Z) (h : MinHeap) (i d : Z) :
  heap_shape n h -> 0 <= i < size h ->
  set_dist_at h i d = set_arr h (aset (arr h) i (Some (mkNode (v_at h i) d))).
Proof.
  intros Hs Hi. destruct (shape_slot n h i Hs Hi) as (nd & Hp & Hn & _).
  unfold set_dist_at, v_at. rewrite Hp, Hn. reflexivity.
Qed.

Lemma set_dist_at_node (n : Z) (h : MinHeap) (i d j : Z) :
  heap_shape n h -> 0 <= i < size h ->
  node_at (set_dist_at h i d) j =
    if j =? i then mkNode (v_at h i) d else node_at h j.
Proof.
  intros Hs Hi. destruct (shape_bounds n h Hs) as (Hsz & _ & Hla).
  rewrite (set_dist_at_live n) by assumption.
  unfold node_at. rewrite ptr_at_aset by lia.
  destruct (j =? i); reflexivity.
Qed.

Lemma set_dist_at_twice (n : Z) (h : MinHeap) (i d : Z) :
  heap_shape n h -> 0 <= i < size h ->
  set_dist_at (set_dist_at h i d) i d = set_dist_at h i d.
Proof.
  intros Hs Hi. destruct (shape_bounds n h Hs) as (Hsz & _ & Hla).
  rewrite (set_dist_at_live n h) by assumption.
  unfold set_dist_at at 1. rewrite ptr_at_aset by lia. rewrite Z.eqb_refl.
  unfold set_arr. simpl. rewrite aset_aset_eq. reflexivity.
Qed.

Lemma set_dist_at_shape (n : Z) (h : MinHeap) (i d : Z) :
  heap_shape n h -> 0 <= i < size h -> heap_shape n (set_dist_at h i d).
Proof.
  intros Hs Hi. destruct (shape_bounds n h Hs) as (Hsz & _ & Hla).
  pose proof (fun j => set_dist_at_node n h i d j Hs Hi) as Hnode.
  destruct (shape_slot n h i Hs Hi) as (ni & Hpi & Hni & Hvi & Hposi).
  rewrite (set_dist_at_live n) in * by assumption.
  destruct Hs as (Hs1 & Hs2 & Hs3 & Hs4 & Hslot & Hpres).
  unfold heap_shape. simpl. rewrite length_aset.
  repeat split; try lia.
  - intros j Hj. rewrite ptr_at_aset by lia.
    destruct (Z.eqb_spec j i) as [-> | Hne].
    + eexists. split; [reflexivity |]. simpl. split; [lia | exact Hposi].
    + destruct (Hslot j Hj) as (nd & ? & ? & ?). exists nd. auto.
  - apply (Hpres v); assumption.
  - apply (Hpres v); assumption.
  - change (pos_of (set_arr h (aset (arr h) i (Some (mkNode (v_at h i) d)))) v)
      with (pos_of h v) in *.
    destruct (Hpres v ltac:(lia) ltac:(assumption)) as (Hr & Hvv).
    unfold v_at at 1. rewrite Hnode.
    destruct (Z.eqb_spec (pos_of h v) i) as [E | _]; [| exact Hvv].
    simpl. rewrite <- E. exact Hvv.
Qed.

Lemma set_dist_at_up_inv (n : Z) (h : MinHeap) (i d : Z) :
  heap_inv n h -> 0 <= i < size h -> d <= dist_at h i ->
  up_inv (set_dist_at h i d) i.
Proof.
  intros (Hs & Ho) Hi Hd.
  assert (Hdist : forall j, dist_at (set_dist_at h i d) j =
                    if j =? i then d else dist_at h j).
  { intros j. unfold dist_at. rewrite (set_dist_at_node n) by assumption.
    destruct (j =? i); reflexivity. }
  assert (Hsize : size (set_dist_at h i d) = size h)
    by (rewrite (set_dist_at_live n) by assumption; reflexivity).
  split.
  - intros j Hj Hji. rewrite Hsize in Hj. rewrite !Hdist.
    destruct (Z.eqb_spec j i); [contradiction |].
    specialize (Ho j Hj).
    destruct (Z.eqb_spec ((j - 1) / 2) i) as [E | _]; [rewrite E in Ho |]; lia.
  - intros c Hi1 Hc Hpc. rewrite Hsize in Hc. rewrite !Hdist.
    destruct (parent_facts i ltac:(lia)) as (Hp & _).
    destruct (parent_facts c ltac:(lia)) as (Hpcb & _).
    destruct (Z.eqb_spec ((i - 1) / 2) i); [lia |].
    destruct (Z.eqb_spec c i); [lia |].
    pose proof (Ho c Hc) as H1. rewrite Hpc in H1.
    pose proof (Ho i ltac:(lia)) as H2. lia.
Qed.

Lemma decreaseKey_correct (n : Z) (h : MinHeap) (v d : Z) :
  heap_inv n h -> 0 <= v < n ->
  (pos_of h v <> -1 -> d <= key_of h v) ->
  exists h', decreaseKey h v d = Some h' /\ heap_inv n h' /\ decreased n h v d h'.
Proof.
  intros Hinv Hv Hd. pose proof Hinv as (Hs & Ho).
  unfold decreaseKey. cbv zeta.
  destruct (Z.eqb_spec (pos_of h v) (-1)) as [E | Hp].
  { exists h. split; [reflexivity |]. split; [assumption |].
    split; [reflexivity |]. intros w Hw. split; [reflexivity |]. intros Hpw.
    destruct (Z.eqb_spec w v) as [-> | _]; [contradiction | reflexivity]. }
  destruct (shape_present n h v Hs Hv Hp) as (Hi & Hvi).
  set (i := pos_of h v) in *.
  pose proof (set_dist_at_shape n h i d Hs Hi) as Hs1.
  pose proof (set_dist_at_up_inv n h i d Hinv Hi (Hd Hp)) as Hup.
  assert (Hsize : size (set_dist_at h i d) = size h)
    by (rewrite (set_dist_at_live n) by assumption; reflexivity).
  destruct (siftUp_correct n (Datatypes.S (Z.to_nat i)) (set_dist_at h i d) i)
    as (h' & Hr & Hinv' & Hsz' & Hsame); try assumption; try lia.
  exists h'. split; [assumption |]. split; [assumption |].
  split; [lia |]. intros w Hw. destruct (Hsame w Hw) as (Ha & Hb).
  assert (Hposw : pos_of (set_dist_at h i d) w = pos_of h w)
    by (rewrite (set_dist_at_live n) by assumption; reflexivity).
  rewrite Hposw in Ha, Hb. split; [exact Ha |]. intros Hpw.
  rewrite (Hb Hpw). unfold key_of, dist_at. rewrite Hposw.
  rewrite (set_dist_at_node n) by assumption.
  destruct (shape_present n h w Hs Hw Hpw) as (_ & Hvw).
  destruct (Z.eqb_spec (pos_of h w) i) as [E | Hne];
    destruct (Z.eqb_spec w v) as [-> | Hwv]; try reflexivity.
  - exfalso. apply Hwv. rewrite <- Hvw, E. exact Hvi.
  - exfalso. apply Hne. reflexivity.
Qed.

(** Lines 488-489 write the key and then call [decreaseKey], which writes
    it again. *)
Lemma decreaseKey_after_set (n : Z) (h : MinHeap) (v d : Z) :
  heap_shape n h -> 0 <= v < n -> pos_of h v <> -1 ->
  decreaseKey (set_dist_at h (pos_of h v) d) v d = decreaseKey h v d.
Proof.
  intros Hs Hv Hp. destruct (shape_present n h v Hs Hv Hp) as (Hi & _).
  unfold decreaseKey. cbv zeta.
  assert (Hpos : pos_of (set_dist_at h (pos_of h v) d) v = pos_of h v)
    by (rewrite (set_dist_at_live n) by assumption; reflexivity).
  rewrite Hpos. rewrite (set_dist_at_twice n) by assumption.
  destruct (Z.eqb_spec (pos_of h v) (-1)); [contradiction | reflexivity].
Qed.

(** ** Heap: [extractMin] *)

Lemma root_min (h : MinHeap) :
  heap_order h -> forall i, 0 <= i < size h -> dist_at h 0 <= dist_at h i.
Proof.
  intros Ho i Hi. destruct Hi as (Hi0 & Hi1). revert Hi1. pattern i.
  apply Zlt_0_ind; [| assumption]. clear i Hi0. intros i IH Hi0 Hi1.
  destruct (Z.eq_dec i 0) as [-> | Hne]; [lia |].
  destruct (parent_facts i ltac:(lia)) as (Hp & _).
  specialize (IH ((i - 1) / 2) ltac:(lia) ltac:(lia)).
  specialize (Ho i ltac:(lia)). lia.
Qed.

Lemma extractMin_correct (n : Z) (h : MinHeap) :
  heap_inv n h -> 0 < size h ->
  exists h', extractMin h = Some (h', Some (node_at h 0)) /\
             heap_inv n h' /\ extracted n h (v_at h 0) h' /\
             0 <= v_at h 0 < n /\ pos_of h (v_at h 0) = 0 /\
             forall i, 0 <= i < size h -> dist_at h 0 <= dist_at h i.
Proof.
  intros (Hs & Ho) Hsize.
  destruct (shape_bounds n h Hs) as (Hsz & Hlp & Hla).
  assert (HnMAX : n <= MAX) by (destruct Hs as (_ & ? & _); assumption).
  destruct (shape_slot n h 0 Hs ltac:(lia)) as (nr & Hpr & Hnr & Hvr & Hposr).
  destruct (shape_slot n h (size h - 1) Hs ltac:(lia)) as (nl & Hpl & Hnl & Hvl & Hposl).
  unfold extractMin, isEmpty.
  destruct (Z.eqb_spec (size h) 0) as [E | _]; [lia |].
  cbv zeta. simpl size.
  rewrite sub_exact
    by (unfold CInt.in_range, CInt.INT_MIN, CInt.INT_MAX, MAX in *; lia).
  rewrite Hpr, Hpl. simpl default.
  unfold v_at in Hvr, Hposr, Hvl, Hposl. rewrite Hnr in Hvr, Hposr. rewrite Hnl in Hvl, Hposl.
  match goal with
  | |- context [minHeapify _ ?x 0] => set (h4 := x)
  end.
  assert (Hsz4 : size h4 = size h - 1) by reflexivity.
  assert (Hpos4 : forall w, pos_of h4 w =
            if w =? hv nr then -1 else if w =? hv nl then 0 else pos_of h w).
  { intros w. unfold h4, pos_of. simpl.
    rewrite aget_aset by (rewrite length_aset; lia).
    rewrite aget_aset by lia. reflexivity. }
  assert (Hptr4 : forall j, ptr_at h4 j = if j =? 0 then Some nl else ptr_at h j).
  { intros j. unfold h4, ptr_at. simpl. apply aget_aset. lia. }
  assert (Hnode4 : forall j, node_at h4 j = if j =? 0 then nl else node_at h j).
  { intros j. unfold node_at. rewrite Hptr4. destruct (j =? 0); reflexivity. }
  assert (Hone : hv nl = hv nr -> size h = 1) by (intros E; rewrite E in Hposl; lia).
  assert (Hone' : size h = 1 -> hv nl = hv nr).
  { intros E. rewrite E in Hpl. replace (1 - 1) with 0 in Hpl by lia. congruence. }
  assert (Hs4 : heap_shape n h4).
  { destruct Hs as (Hs1 & Hs2 & Hs3 & Hs4 & Hslot & Hpres).
    unfold heap_shape. rewrite Hsz4.
    assert (Z.of_nat (length (pos h4)) = MAX)
      by (unfold h4; simpl; rewrite !length_aset; assumption).
    assert (Z.of_nat (length (arr h4)) = MAX)
      by (unfold h4; simpl; rewrite !length_aset; assumption).
    split; [lia |]. split; [assumption |]. split; [assumption |].
    split; [assumption |]. split.
    - intros j Hj. rewrite Hptr4.
      destruct (Z.eqb_spec j 0) as [-> | Hj0].
      + exists nl. split; [reflexivity |]. split; [assumption |].
        rewrite Hpos4. destruct (Z.eqb_spec (hv nl) (hv nr)) as [E | _]; [lia |].
        rewrite Z.eqb_refl. reflexivity.
      + destruct (Hslot j ltac:(lia)) as (nd & Hp & Hv & Hpo).
        exists nd. split; [assumption |]. split; [assumption |].
        rewrite Hpos4.
        destruct (Z.eqb_spec (hv nd) (hv nr)) as [E | _]; [rewrite E in Hpo; lia |].
        destruct (Z.eqb_spec (hv nd) (hv nl)) as [E | _]; [rewrite E in Hpo; lia |].
        assumption.
    - intros v Hv. rewrite Hpos4. unfold v_at. rewrite Hnode4.
      destruct (Z.eqb_spec v (hv nr)) as [-> | Hvr']; [lia |].
      destruct (Z.eqb_spec v (hv nl)) as [-> | Hvl'].
      + intros _. simpl. split; [lia | reflexivity].
      + intros Hp. destruct (Hpres v Hv Hp) as (Hr & Hvv).
        assert (pos_of h v <> 0).
        { intros E. rewrite E in Hvv. unfold v_at in Hvv. rewrite Hnr in Hvv. lia. }
        assert (pos_of h v <> size h - 1).
        { intros E. rewrite E in Hvv. unfold v_at in Hvv. rewrite Hnl in Hvv. lia. }
        destruct (Z.eqb_spec (pos_of h v) 0); [lia |]. split; [lia | exact Hvv]. }
  assert (Hdown : down_inv h4 0).
  { split.
    - intros j Hj Hpj. rewrite Hsz4 in Hj. unfold dist_at. rewrite !Hnode4.
      destruct (Z.eqb_spec ((j - 1) / 2) 0); [contradiction |].
      destruct (Z.eqb_spec j 0); [lia |]. apply Ho. lia.
    - intros c Hc. lia. }
  destruct (minHeapify_correct n (Datatypes.S (Z.to_nat (size h4))) h4 0)
    as (h5 & Hr5 & Hinv5 & Hsz5 & Hsame5); try assumption; try lia.
  rewrite Hsz4 in Hr5. rewrite Hr5. exists h5. rewrite Hnr.
  unfold v_at. rewrite Hnr.
  split; [reflexivity |]. split; [assumption |].
  split; [| split; [assumption | split; [assumption | apply root_min; assumption]]].
  split; [lia |]. split.
  - apply (proj1 (Hsame5 (hv nr) Hvr)). rewrite Hpos4, Z.eqb_refl. reflexivity.
  - intros w Hw Hwu. destruct (Hsame5 w Hw) as (Ha & Hb).
    rewrite Hpos4 in Ha, Hb. unfold key_of at 2 in Hb. rewrite Hpos4 in Hb.
    destruct (Z.eqb_spec w (hv nr)); [contradiction |].
    destruct (Z.eqb_spec w (hv nl)) as [-> | Hwl].
    + split; [rewrite Hposl; lia |]. intros _.
      rewrite Hb by lia. unfold key_of, dist_at. rewrite Hnode4, Hposl, Hnl.
      reflexivity.
    + split; [exact Ha |]. intros Hp. rewrite (Hb Hp).
      unfold key_of, dist_at. rewrite Hnode4.
      destruct (shape_present n h w Hs Hw Hp) as (_ & Hvv).
      destruct (Z.eqb_spec (pos_of h w) 0) as [E | _]; [| reflexivity].
      exfalso. rewrite E in Hvv. unfold v_at in Hvv. rewrite Hnr in Hvv. lia.
Qed.

(** ** Loops *)

Lemma for_loop_ind {S : Type} (P : Z -> S -> Prop) (body : Z -> S -> S) :
  forall (count : nat) (lo : Z) (s : S),
    P lo s ->
    (forall i s', lo <= i < lo + Z.of_nat count -> P i s' -> P (i + 1) (body i s')) ->
    P (lo + Z.of_nat count) (for_loop count lo body s).
Proof.
  induction count as [| k IH]; intros lo s H0 Hstep.
  - simpl. replace (lo + Z.of_nat 0) with lo by lia. exact H0.
  - simpl for_loop.
    replace (lo + Z.of_nat (Datatypes.S k)) with ((lo + 1) + Z.of_nat k) by lia.
    apply IH.
    + apply Hstep; [lia | exact H0].
    + intros i s' Hi. apply Hstep. lia.
Qed.

Lemma for_upto_ind {S : Type} (P : Z -> S -> Prop) (body : Z -> S -> S) (n : Z) (s : S) :
  0 <= n ->
  P 0 s ->
  (forall i s', 0 <= i < n -> P i s' -> P (i + 1) (body i s')) ->
  P n (for_upto n body s).
Proof.
  intros Hn H0 Hstep. unfold for_upto.
  replace n with (0 + Z.of_nat (Z.to_nat n)) at 1 by lia.
  apply for_loop_ind; [exact H0 |].
  intros i s' Hi. apply Hstep. lia.
Qed.

(** ** Heap: construction *)

Lemma createMinHeap_spec (n : Z) :
  0 <= n <= MAX ->
  let h := createMinHeap n in
  size h = 0 /\ Z.of_nat (length (pos h)) = MAX /\ Z.of_nat (length (arr h)) = MAX /\
  forall v, 0 <= v < n -> pos_of h v = -1.
Proof.
  intros Hn. unfold createMinHeap.
  apply (for_upto_ind
           (fun k h => size h = 0 /\ Z.of_nat (length (pos h)) = MAX /\
                       Z.of_nat (length (arr h)) = MAX /\
                       forall v, 0 <= v < k -> pos_of h v = -1)); [lia | |].
  - cbv beta. cbn [size pos arr]. rewrite !length_replicate.
    unfold MAX in *. repeat split; try lia.
  - intros i h Hi (Hsz & Hlp & Hla & Hpos). simpl. rewrite !length_aset.
    repeat split; try assumption.
    intros v Hv. unfold pos_of. simpl. rewrite aget_aset by lia.
    destruct (Z.eqb_spec v i); [reflexivity |]. apply Hpos. lia.
Qed.

Lemma build_heap_spec (n : Z) :
  0 <= n <= MAX ->
  let h := build_heap n in
  size h = n /\ Z.of_nat (length (pos h)) = MAX /\ Z.of_nat (length (arr h)) = MAX /\
  forall v, 0 <= v < n -> pos_of h v = v /\ ptr_at h v = Some (mkNode v INF).
Proof.
  intros Hn. unfold build_heap.
  destruct (createMinHeap_spec n Hn) as (Hc1 & Hc2 & Hc3 & Hc4).
  pose (P := fun (k : Z) (h : MinHeap) =>
    size h = k /\ Z.of_nat (length (pos h)) = MAX /\ Z.of_nat (length (arr h)) = MAX /\
    forall v, 0 <= v < k -> pos_of h v = v /\ ptr_at h v = Some (mkNode v INF)).
  apply (for_upto_ind P); [lia | |].
  - unfold P. repeat split; try assumption; lia.
  - intros i h Hi (Hsz & Hlp & Hla & Hfill). unfold P. cbv zeta. simpl.
    rewrite !length_aset. rewrite Hsz.
    split; [apply add_exact; unfold CInt.in_range, CInt.INT_MIN, CInt.INT_MAX, MAX in *; lia |].
    split; [assumption |]. split; [assumption |].
    intros v Hv. unfold pos_of, ptr_at. simpl.
    rewrite !aget_aset by lia.
    destruct (Z.eqb_spec v i) as [-> | Hne]; [split; reflexivity |].
    apply Hfill. lia.
Qed.

Lemma build_heap_inv (n : Z) :
  0 <= n <= MAX ->
  heap_inv n (build_heap n) /\
  forall v, 0 <= v < n -> pos_of (build_heap n) v = v /\ key_of (build_heap n) v = INF.
Proof.
  intros Hn. destruct (build_heap_spec n Hn) as (Hsz & Hlp & Hla & Hfill).
  assert (Hdist : forall i, 0 <= i < n -> dist_at (build_heap n) i = INF).
  { intros i Hi. unfold dist_at, node_at. rewrite (proj2 (Hfill i Hi)). reflexivity. }
  split; [split |].
  - unfold heap_shape. rewrite Hsz. repeat split; try lia.
    + intros i Hi. exists (mkNode i INF). simpl.
      destruct (Hfill i Hi) as (Hp & Hq). auto.
    + rewrite (proj1 (Hfill v ltac:(lia))). lia.
    + rewrite (proj1 (Hfill v ltac:(lia))). lia.
    + rewrite (proj1 (Hfill v ltac:(lia))). unfold v_at, node_at.
      rewrite (proj2 (Hfill v ltac:(lia))). reflexivity.
  - intros i Hi. rewrite Hsz in Hi. destruct (parent_facts i ltac:(lia)).
    rewrite !Hdist by lia. lia.
  - intros v Hv. destruct (Hfill v Hv) as (Hp & _). split; [assumption |].
    unfold key_of. rewrite Hp. apply Hdist. assumption.
Qed.

(** ** Heap: runs *)

Lemma heap_run_inv (n : Z) (h : MinHeap) (out : list Z) :
  0 <= n <= MAX -> heap_run n h out ->
  heap_inv n h /\ forall v, 0 <= v < n -> (pos_of h v = -1 <-> In v out).
Proof.
  intros Hn Hrun. induction Hrun as
    [| h out v d h' Hrun (Hinv & Hout) Hv Hd Hdk
     | h out h' nd Hrun (Hinv & Hout) Hex].
  - destruct (build_heap_inv n Hn) as (Hinv & Hpos). split; [assumption |].
    intros v Hv. rewrite (proj1 (Hpos v Hv)). simpl. lia.
  - destruct (decreaseKey_correct n h v d Hinv Hv Hd) as (h'' & Hr & Hinv' & _ & Hsame).
    rewrite Hdk in Hr. injection Hr as <-. split; [assumption |].
    intros w Hw. rewrite <- (Hout w Hw). apply (Hsame w Hw).
  - assert (Hsize : 0 < size h).
    { destruct (Z.eq_dec (size h) 0) as [E | Hne].
      - unfold extractMin, isEmpty in Hex. rewrite E in Hex. simpl in Hex. discriminate.
      - destruct Hinv as (Hs & _). destruct (shape_bounds n h Hs). lia. }
    destruct (extractMin_correct n h Hinv Hsize)
      as (h'' & Hr & Hinv' & (Hsz & Hgone & Hrest) & Hvr & _).
    rewrite Hex in Hr. injection Hr as <- ->. split; [assumption |].
    intros w Hw. simpl. fold (v_at h 0).
    destruct (Z.eq_dec w (v_at h 0)) as [-> | Hne].
    + split; [intros _; left; reflexivity | intros _; assumption].
    + rewrite (proj1 (Hrest w Hw Hne)), (Hout w Hw). split; [tauto |].
      intros [E | Hin]; [congruence | assumption].
Qed.

(** ** Well-formed graphs *)

Lemma adj_of_firstn (g : Graph) (u : Z) :
  0 <= u < vertices g ->
  adj_of g u = [] \/ In (adj_of g u) (firstn (Z.to_nat (vertices g)) (adj g)).
Proof.
  intros Hu. unfold adj_of, aget.
  destruct (Z.ltb_spec u 0); [lia |].
  destruct (adj g !! Z.to_nat u) as [es |] eqn:E; [right | left; reflexivity].
  simpl. apply list_elem_of_In. apply list_elem_of_lookup.
  exists (Z.to_nat u). rewrite lookup_take_lt by lia. exact E.
Qed.

Lemma wf_graph_facts (g : Graph) :
  wf_graph g = true ->
  0 <= vertices g <= MAX /\
  (forall u e, 0 <= u < vertices g -> In e (adj_of g u) -> 0 <= to e < vertices g).
Proof.
  unfold wf_graph. rewrite !andb_true_iff.
  intros (((((((H0 & H1) & _) & _) & _) & _) & _) & Hall).
  split; [lia |].
  intros u e Hu He.
  destruct (adj_of_firstn g u Hu) as [E | Hin]; [rewrite E in He; contradiction |].
  rewrite forallb_forall in Hall. specialize (Hall _ Hin).
  rewrite forallb_forall in Hall. specialize (Hall _ He).
  unfold in_bounds in Hall. lia.
Qed.

Lemma costs_ok_facts (g : Graph) (u : Z) (e : Edge) :
  costs_ok g = true -> 0 <= u < vertices g -> In e (adj_of g u) ->
  0 <= weight e /\
  weight e + Z.max 0 (cycle_of (light_of g (to e))) <= CInt.INT_MAX - INF.
Proof.
  unfold costs_ok. intros Hall Hu He.
  destruct (adj_of_firstn g u Hu) as [E | Hin]; [rewrite E in He; contradiction |].
  rewrite forallb_forall in Hall. specialize (Hall _ Hin).
  rewrite forallb_forall in Hall. specialize (Hall _ He). lia.
Qed.

(** ** One relaxation *)

Lemma relax_edge_eq (g : Graph) (u : Z) (st : DState) (e : Edge) :
  relax_edge g u st e =
    let h := st_heap st in
    let v := to e in
    if negb (pos_of h v =? -1) then
      let c := candidate g (dist_of st u) e in
      let cands := (v, c) :: st_cands st in
      if c <? dist_of st v then
        if negb (pos_of h v =? -1) && is_some (ptr_at h (pos_of h v)) then
          match decreaseKey (set_dist_at h (pos_of h v) c) v c with
          | Some h' =>
            Some (mkDState (aset (st_dist st) v c) (aset (st_parent st) v u) h' cands)
          | None => None
          end
        else Some (mkDState (aset (st_dist st) v c) (aset (st_parent st) v u) h cands)
      else Some (mkDState (st_dist st) (st_parent st) h cands)
    else Some st.
Proof. reflexivity. Qed.

Lemma relax_edge_cases (g : Graph) (src u : Z) (st : DState) (e : Edge) :
  search_inv g src st -> 0 <= to e < vertices g ->
  exists st', relax_edge g u st e = Some st' /\ relaxed g u e st st'.
Proof.
  intros (Hinv & Hld & Hlp & Hkey & Hreach) Hv.
  rewrite relax_edge_eq. cbv zeta.
  destruct (Z.eqb_spec (pos_of (st_heap st) (to e)) (-1)) as [Hp | Hp]; simpl negb.
  { cbv iota. exists st. split; [reflexivity |]. apply relaxed_closed; auto. }
  cbv iota.
  set (c := candidate g (dist_of st u) e).
  destruct (Z.ltb_spec c (dist_of st (to e))) as [Hlt | Hge].
  - pose proof Hinv as (Hs & _).
    destruct (shape_present _ _ _ Hs Hv Hp) as (Hi & _).
    destruct (shape_slot _ _ _ Hs Hi) as (nd & Hptr & _).
    rewrite Hptr. simpl is_some. rewrite andb_true_l.
    rewrite (decreaseKey_after_set (vertices g)) by assumption.
    destruct (decreaseKey_correct (vertices g) (st_heap st) (to e) c Hinv Hv)
      as (h' & Hr & Hinv' & Hdec).
    { intros _. rewrite (Hkey _ Hv Hp). lia. }
    rewrite Hr. eexists. split; [reflexivity |].
    destruct (shape_bounds _ _ Hs) as (_ & _ & Hnla).
    destruct Hs as (_ & HnMAX & _).
    apply relaxed_lower; auto; lia.
  - eexists. split; [reflexivity |]. apply relaxed_keep; auto.
Qed.

Lemma last_cons_default {A : Type} (l : list A) (x d d' : A) :
  List.last (x :: l) d = List.last (x :: l) d'.
Proof.
  revert x. induction l as [| y l IH]; intros x; [reflexivity |].
  change (List.last (y :: l) d = List.last (y :: l) d'). apply IH.
Qed.

Lemma path_end_nil (u : Z) : path_end u [] = u.
Proof. reflexivity. Qed.

Lemma path_end_cons (u : Z) (a : Edge) (p : list Edge) :
  path_end u (a :: p) = path_end (to a) p.
Proof.
  unfold path_end. destruct p as [| b p]; [reflexivity |].
  change (List.last (to b :: map to p) u = List.last (to b :: map to p) (to a)).
  apply last_cons_default.
Qed.

Lemma path_end_app (u : Z) (p q : list Edge) :
  path_end u (p ++ q) = path_end (path_end u p) q.
Proof.
  revert u. induction p as [| a p IH]; intros u; [reflexivity |].
  rewrite <- app_comm_cons, !path_end_cons. apply IH.
Qed.

Lemma is_path_app (g : Graph) (u : Z) (p q : list Edge) :
  is_path g u (p ++ q) <-> is_path g u p /\ is_path g (path_end u p) q.
Proof.
  revert u. induction p as [| a p IH]; intros u.
  - simpl. rewrite path_end_nil. tauto.
  - rewrite <- app_comm_cons, path_end_cons. simpl. rewrite IH. tauto.
Qed.

Lemma path_cost_snoc (g : Graph) (p : list Edge) (e : Edge) :
  path_cost g (p ++ [e]) = arrive g (path_cost g p) e.
Proof. unfold path_cost. rewrite fold_left_app. reflexivity. Qed.

Lemma connects_nil (g : Graph) (src : Z) : connects g src src [].
Proof. split; [exact I | reflexivity]. Qed.

Lemma connects_snoc (g : Graph) (src u : Z) (p : list Edge) (e : Edge) :
  connects g src u p -> In e (adj_of g u) -> connects g src (to e) (p ++ [e]).
Proof.
  intros (Hpath & Hend) He. split.
  - apply is_path_app. split; [assumption |]. rewrite Hend. simpl. auto.
  - rewrite path_end_app, path_end_cons. reflexivity.
Qed.

Lemma connects_snoc_inv (g : Graph) (src x : Z) (p : list Edge) (e : Edge) :
  connects g src x (p ++ [e]) ->
  connects g src (path_end src p) p /\ In e (adj_of g (path_end src p)) /\ x = to e.
Proof.
  intros (Hpath & Hend). apply is_path_app in Hpath. destruct Hpath as (Hp & He).
  simpl in He. rewrite path_end_app, path_end_cons in Hend.
  split; [split; [assumption | reflexivity] |]. split; [tauto |]. symmetry. exact Hend.
Qed.

Lemma path_end_range (g : Graph) (u : Z) (p : list Edge) :
  wf_graph g = true -> 0 <= u < vertices g -> is_path g u p ->
  0 <= path_end u p < vertices g.
Proof.
  intros Hwf. destruct (wf_graph_facts g Hwf) as (_ & Hto).
  revert u. induction p as [| a p IH]; intros u Hu Hp; [exact Hu |].
  rewrite path_end_cons. simpl in Hp. destruct Hp as (Ha & Hp).
  apply IH; [| assumption]. eapply Hto; eassumption.
Qed.

Lemma dist_of_aset (st : DState) (l : list Z) (v c w : Z) :
  0 <= v < Z.of_nat (length l) ->
  aget 0 (aset l v c) w = if w =? v then c else aget 0 l w.
Proof. intros Hv. apply aget_aset. assumption. Qed.

Lemma relaxed_search_inv (g : Graph) (src u : Z) (e : Edge) (st st' : DState) :
  wf_graph g = true ->
  search_inv g src st -> 0 <= to e < vertices g -> In e (adj_of g u) ->
  (exists p, connects g src u p) ->
  relaxed g u e st st' ->
  search_inv g src st' /\
  size (st_heap st') = size (st_heap st) /\
  (forall w, 0 <= w < vertices g -> (closed st' w <-> closed st w)).
Proof.
  intros Hwf (Hinv & Hld & Hlp & Hkey & Hreach) Hv He (p & Hp) Hrel.
  destruct (wf_graph_facts g Hwf) as (Hn & _).
  destruct Hrel as [Hc -> | Hopen Hge ->
                   | Hopen Hlt Hbd Hbp Hd Hpar Hcands Hinv' (Hsz & Hdec)].
  - split; [exact (conj Hinv (conj Hld (conj Hlp (conj Hkey Hreach)))) |].
    split; [reflexivity |]. tauto.
  - split; [exact (conj Hinv (conj Hld (conj Hlp (conj Hkey Hreach)))) |].
    split; [reflexivity |]. tauto.
  - set (c := candidate g (dist_of st u) e) in *.
    assert (Hdist : forall w, dist_of st' w = if w =? to e then c else dist_of st w).
    { intros w. unfold dist_of. rewrite Hd. apply aget_aset. lia. }
    split; [| split; [assumption | intros w Hw; apply (Hdec w Hw)]].
    split; [assumption |].
    split; [rewrite Hd, length_aset; assumption |].
    split; [rewrite Hpar, length_aset; assumption |].
    split.
    + intros w Hw Hpw. destruct (Hdec w Hw) as (Ha & Hb).
      rewrite Hb by tauto. rewrite Hdist.
      destruct (w =? to e); [reflexivity |]. apply Hkey; tauto.
    + intros w Hw. rewrite Hdist.
      destruct (Z.eqb_spec w (to e)) as [-> | Hne].
      * intros _. exists (p ++ [e]). apply (connects_snoc g src u); assumption.
      * apply Hreach. assumption.
Qed.

Lemma relax_all_total (g : Graph) (src u : Z) :
  wf_graph g = true -> 0 <= u < vertices g ->
  (exists p, connects g src u p) ->
  forall (es : list Edge) (st : DState),
    (forall e, In e es -> In e (adj_of g u)) ->
    search_inv g src st ->
    exists st', relax_all g u st es = Some st' /\
                relaxed_all g u es st st' /\
                search_inv g src st' /\
                size (st_heap st') = size (st_heap st) /\
                (forall w, 0 <= w < vertices g -> (closed st' w <-> closed st w)).
Proof.
  intros Hwf Hu Hp. destruct (wf_graph_facts g Hwf) as (_ & Hto).
  induction es as [| e es IH]; intros st Hes Hinv.
  - exists st. split; [reflexivity |]. split; [constructor |].
    split; [assumption |]. split; [reflexivity |]. tauto.
  - assert (He : In e (adj_of g u)) by (apply Hes; left; reflexivity).
    assert (Hv : 0 <= to e < vertices g) by (eapply Hto; eassumption).
    destruct (relax_edge_cases g src u st e Hinv Hv) as (st1 & Hr1 & Hrel1).
    destruct (relaxed_search_inv g src u e st st1 Hwf Hinv Hv He Hp Hrel1)
      as (Hinv1 & Hsz1 & Hcl1).
    destruct (IH st1) as (st2 & Hr2 & Hrel2 & Hinv2 & Hsz2 & Hcl2);
      [intros e' He'; apply Hes; right; assumption | assumption |].
    exists st2. simpl. rewrite Hr1. split; [assumption |].
    split; [econstructor; eassumption |]. split; [assumption |].
    split; [lia |]. intros w Hw. rewrite (Hcl2 w Hw). apply Hcl1. assumption.
Qed.

(** ** The outer loop *)

(** A proof rule for the outer loop: [I] holds at its head, [Q] on exit.
    A turn extracts an open junction [u] of least distance. *)
Lemma dijkstra_loop_rule (g : Graph) (src dest : Z) (I Q : DState -> Prop) :
  wf_graph g = true ->
  (forall st, I st -> search_inv g src st) ->
  (forall st, I st -> size (st_heap st) = 0 -> Q st) ->
  (forall st h' u,
     I st -> 0 <= u < vertices g -> ~ closed st u ->
     extracted (vertices g) (st_heap st) u h' ->
     (forall w, 0 <= w < vertices g -> ~ closed st w -> dist_of st u <= dist_of st w) ->
     let st1 := mkDState (st_dist st) (st_parent st) h' (st_cands st) in
     (dist_of st u = INF \/ u = dest -> Q st1) /\
     (dist_of st u <> INF -> u <> dest ->
      forall st2, relaxed_all g u (adj_of g u) st1 st2 -> search_inv g src st2 -> I st2)) ->
  forall (fuel : nat) (st : DState),
    I st -> (Z.to_nat (size (st_heap st)) < fuel)%nat ->
    exists st', dijkstra_loop fuel g dest st = Some st' /\ Q st'.
Proof.
  intros Hwf HI Hempty Hturn.
  induction fuel as [| fuel IH]; intros st Hst Hfuel; [lia |].
  pose proof (HI st Hst) as (Hinv & Hld & Hlp & Hkey & Hreach).
  pose proof Hinv as (Hs & Ho).
  destruct (shape_bounds _ _ Hs) as (Hsz & _ & _).
  simpl dijkstra_loop. unfold isEmpty.
  destruct (Z.eqb_spec (size (st_heap st)) 0) as [E | Hne].
  { exists st. split; [reflexivity |]. apply Hempty; assumption. }
  destruct (extractMin_correct _ _ Hinv ltac:(lia))
    as (h' & Hr & Hinv' & Hex & Hu & Hpu & Hmin).
  rewrite Hr. set (u := v_at (st_heap st) 0) in *.
  assert (Hopen : ~ closed st u) by (unfold closed; rewrite Hpu; lia).
  assert (Hdu : dist_of st u = hdist (node_at (st_heap st) 0)).
  { rewrite <- (Hkey u Hu) by (rewrite Hpu; lia). unfold key_of. rewrite Hpu. reflexivity. }
  assert (Hleast : forall w, 0 <= w < vertices g -> ~ closed st w ->
                             dist_of st u <= dist_of st w).
  { intros w Hw Hcw. unfold closed in Hcw.
    rewrite Hdu, <- (Hkey w Hw Hcw). apply Hmin.
    apply (shape_present _ _ _ Hs Hw Hcw). }
  destruct (Hturn st h' u Hst Hu Hopen Hex Hleast) as (Hexit & Hnext).
  set (st1 := mkDState (st_dist st) (st_parent st) h' (st_cands st)) in *.
  change (hv (node_at (st_heap st) 0)) with u.
  rewrite <- Hdu.
  destruct (Z.eqb_spec (dist_of st u) INF) as [Einf | Hninf].
  { exists st1. split; [reflexivity |]. apply Hexit. left. assumption. }
  destruct (Z.eqb_spec u dest) as [Edest | Hndest].
  { exists st1. split; [reflexivity |]. apply Hexit. right. assumption. }
  destruct Hex as (Hsz' & Hgone & Hrest).
  assert (Hinv1 : search_inv g src st1).
  { split; [assumption |]. split; [assumption |]. split; [assumption |]. split.
    - intros w Hw Hpw. simpl in Hpw.
      assert (Hwu : w <> u) by (intros ->; contradiction).
      destruct (Hrest w Hw Hwu) as (Ha & Hb). simpl st_heap.
      rewrite Hb by tauto. apply Hkey; tauto.
    - exact Hreach. }
  destruct (relax_all_total g src u Hwf Hu (Hreach u Hu Hninf) (adj_of g u) st1)
    as (st2 & Hr2 & Hrel2 & Hinv2 & Hsz2 & _); [auto | assumption |].
  rewrite Hr2.
  apply IH; [apply Hnext; assumption |].
  rewrite Hsz2. simpl. lia.
Qed.

(** ** Initialisation (lines 441-463) *)

Lemma relaxed_dist (g : Graph) (u : Z) (e : Edge) (st st' : DState) :
  relaxed g u e st st' ->
  forall w, dist_of st' w = dist_of st w \/
            (w = to e /\ pos_of (st_heap st) w <> -1 /\
             dist_of st' w = candidate g (dist_of st u) e /\
             candidate g (dist_of st u) e < dist_of st w).
Proof.
  intros [Hc -> | Hopen Hge -> | Hopen Hlt Hbd Hbp Hd Hpar Hcands Hinv' Hdec] w;
    [left; reflexivity | left; reflexivity |].
  unfold dist_of at 1 3. rewrite Hd, aget_aset by assumption.
  destruct (Z.eqb_spec w (to e)) as [-> | Hne]; [right | left; reflexivity].
  auto.
Qed.

Lemma init_arrays (n : Z) :
  0 <= n <= MAX ->
  let dp := for_upto n
              (fun i dp => (aset (fst dp) i INF, aset (snd dp) i (-1)))
              (replicate (Z.to_nat MAX) 0, replicate (Z.to_nat MAX) 0) in
  Z.of_nat (length (fst dp)) = MAX /\ Z.of_nat (length (snd dp)) = MAX /\
  forall i, 0 <= i < n -> aget 0 (fst dp) i = INF /\ aget 0 (snd dp) i = -1.
Proof.
  intros Hn.
  apply (for_upto_ind
           (fun k (dp : list Z * list Z) =>
              Z.of_nat (length (fst dp)) = MAX /\ Z.of_nat (length (snd dp)) = MAX /\
              forall i, 0 <= i < k -> aget 0 (fst dp) i = INF /\ aget 0 (snd dp) i = -1));
    [lia | |].
  - cbv beta. cbn [fst snd]. rewrite !length_replicate. unfold MAX in *.
    repeat split; lia.
  - intros i dp Hi (Hl1 & Hl2 & Hfill). cbn [fst snd]. rewrite !length_aset.
    split; [assumption |]. split; [assumption |].
    intros j Hj. rewrite !aget_aset by lia.
    destruct (Z.eqb_spec j i); [split; reflexivity |]. apply Hfill. lia.
Qed.

Lemma dijkstra_init_spec (g : Graph) (src : Z) :
  wf_graph g = true -> 0 <= src < vertices g ->
  exists st, dijkstra_init g src = Some st /\
             search_inv g src st /\
             size (st_heap st) = vertices g /\
             (forall v, 0 <= v < vertices g -> ~ closed st v) /\
             dist_of st src = 0 /\
             (forall v, 0 <= v < vertices g -> v <> src -> dist_of st v = INF) /\
             st_cands st = [] /\
             (forall v, 0 <= v < vertices g -> aget 0 (st_parent st) v = -1).
Proof.
  intros Hwf Hsrc. destruct (wf_graph_facts g Hwf) as (Hn & _).
  unfold dijkstra_init. cbv zeta.
  pose proof (init_arrays (vertices g) Hn) as Harr. cbv zeta in Harr.
  destruct (for_upto (vertices g) _ (replicate (Z.to_nat MAX) 0, replicate (Z.to_nat MAX) 0))
    as [dist parent]. cbn [fst snd] in Harr. destruct Harr as (Hld & Hlp & Hfill).
  destruct (build_heap_inv (vertices g) Hn) as (Hinv & Hbuilt).
  pose proof Hinv as (Hs & _).
  destruct (Hbuilt src Hsrc) as (Hpsrc & Hksrc).
  assert (Hpresent : pos_of (build_heap (vertices g)) src <> -1) by lia.
  rewrite (decreaseKey_after_set (vertices g)) by assumption.
  destruct (decreaseKey_correct (vertices g) (build_heap (vertices g)) src 0 Hinv Hsrc)
    as (h' & Hr & Hinv' & Hsz & Hdec).
  { intros _. rewrite Hksrc. unfold INF. lia. }
  rewrite Hr. eexists. split; [reflexivity |].
  assert (Hdist : forall w, aget 0 (aset dist src 0) w =
                            if w =? src then 0 else aget 0 dist w)
    by (intros w; apply aget_aset; lia).
  assert (Hopen : forall v, 0 <= v < vertices g -> pos_of h' v <> -1).
  { intros v Hv Hc. apply (Hdec v Hv) in Hc. rewrite (proj1 (Hbuilt v Hv)) in Hc. lia. }
  split; [| split; [| split; [| split; [| split; [| split]]]]].
  - split; [assumption |]. simpl. rewrite length_aset.
    split; [assumption |]. split; [assumption |]. split.
    + intros v Hv Hp. unfold dist_of. simpl. rewrite Hdist.
      rewrite (proj2 (Hdec v Hv)) by (rewrite (proj1 (Hbuilt v Hv)); lia).
      destruct (Z.eqb_spec v src); [reflexivity |].
      rewrite (proj2 (Hbuilt v Hv)). symmetry. apply Hfill. assumption.
    + intros v Hv. unfold dist_of. simpl. rewrite Hdist.
      destruct (Z.eqb_spec v src) as [-> | Hne].
      * intros _. exists []. apply connects_nil.
      * intros Hd. exfalso. apply Hd. apply Hfill. assumption.
  - simpl. rewrite Hsz. destruct (build_heap_spec (vertices g) Hn) as (E & _). exact E.
  - intros v Hv. unfold closed. simpl. apply Hopen. assumption.
  - unfold dist_of. simpl. rewrite Hdist, Z.eqb_refl. reflexivity.
  - intros v Hv Hne. unfold dist_of. simpl. rewrite Hdist.
    destruct (Z.eqb_spec v src); [contradiction |]. apply Hfill. assumption.
  - reflexivity.
  - intros v Hv. simpl. apply Hfill. assumption.
Qed.

(** ** Unreachable destinations and the finite [INF] *)

Lemma dijkstra_search_unfold (g : Graph) (src dest : Z) (st : DState) :
  dijkstra_init g src = Some st ->
  dijkstra_search g src dest =
    dijkstra_loop (Datatypes.S (Z.to_nat (vertices g))) g dest st.
Proof. intros E. unfold dijkstra_search. rewrite E. reflexivity. Qed.

Lemma dijkstra_search_reach (g : Graph) (src dest : Z) :
  wf_graph g = true -> 0 <= src < vertices g ->
  exists st, dijkstra_search g src dest = Some st /\
             forall v, 0 <= v < vertices g -> dist_of st v <> INF ->
                       exists p, connects g src v p.
Proof.
  intros Hwf Hsrc.
  destruct (dijkstra_init_spec g src Hwf Hsrc) as (st0 & Hinit & Hinv0 & Hsz0 & _).
  rewrite (dijkstra_search_unfold g src dest st0 Hinit).
  apply (dijkstra_loop_rule g src dest (search_inv g src)); try assumption.
  - auto.
  - intros st (_ & _ & _ & _ & Hreach) _. exact Hreach.
  - intros st h' u (_ & _ & _ & _ & Hreach) _ _ _ _. split.
    + intros _. exact Hreach.
    + intros _ _ st2 _ Hinv2. exact Hinv2.
  - lia.
Qed.

Lemma relaxed_cand_inv (g : Graph) (u dest : Z) (e : Edge) (st st' : DState) :
  relaxed g u e st st' -> cand_inv dest st -> cand_inv dest st'.
Proof.
  intros Hrel Hc. pose proof (relaxed_dist g u e st st' Hrel dest) as Hd.
  assert (Hmono : forall x, In x (st_cands st) -> In x (st_cands st')).
  { destruct Hrel as [_ -> | _ _ -> | _ _ _ _ _ _ Hcands _ _]; auto.
    - intros x Hx. right. exact Hx.
    - intros x Hx. rewrite Hcands. right. exact Hx. }
  destruct Hd as [Hsame | (Hw & Hopen & Hnew & Hlt)].
  - unfold cand_inv. rewrite Hsame. destruct Hc as [Hc | (Hc1 & Hc2)]; auto.
  - right. assert (Hlow : dist_of st' dest < INF)
      by (destruct Hc as [Hc | (Hc & _)]; lia).
    split; [assumption |].
    destruct Hrel as [Hcl _ | _ Hge _ | _ _ _ _ _ _ Hcands _ _].
    + rewrite <- Hw in Hcl. contradiction.
    + subst dest. lia.
    + rewrite Hcands, Hnew, Hw. left. reflexivity.
Qed.

Lemma relaxed_all_cand_inv (g : Graph) (u dest : Z) (es : list Edge) (st st' : DState) :
  relaxed_all g u es st st' -> cand_inv dest st -> cand_inv dest st'.
Proof.
  induction 1 as [| e es st st1 st2 Hrel _ IH]; [auto |].
  intros Hc. apply IH. eapply relaxed_cand_inv; eassumption.
Qed.

Lemma dijkstra_search_cands (g : Graph) (src dest : Z) :
  wf_graph g = true -> 0 <= src < vertices g -> 0 <= dest < vertices g ->
  src <> dest ->
  exists st, dijkstra_search g src dest = Some st /\ cand_inv dest st.
Proof.
  intros Hwf Hsrc Hdest Hne.
  destruct (dijkstra_init_spec g src Hwf Hsrc)
    as (st0 & Hinit & Hinv0 & Hsz0 & _ & _ & Hinf & _).
  rewrite (dijkstra_search_unfold g src dest st0 Hinit).
  apply (dijkstra_loop_rule g src dest
           (fun st => search_inv g src st /\ cand_inv dest st)); try assumption.
  - tauto.
  - tauto.
  - intros st h' u (_ & Hc) _ _ _ _. split.
    + intros _. exact Hc.
    + intros _ _ st2 Hrel Hinv2. split; [assumption |].
      eapply relaxed_all_cand_inv; eassumption.
  - split; [assumption |]. left. apply Hinf; [assumption | congruence].
  - lia.
Qed.

Lemma dijkstra_report_no_path (g : Graph) (src dest : Z) (st : DState) :
  dist_of st dest = INF ->
  dijkstra_report g src dest st =
    Some [EvNoPath (name_of g src) (name_of g dest);
          EvExport (exportLeafletMap g [0] 0)].
Proof.
  intros Hd. unfold dijkstra_report. cbv zeta. unfold dist_of in Hd.
  rewrite Hd, Z.eqb_refl. reflexivity.
Qed.

Lemma dijkstra_in_range (g : Graph) (src dest : Z) :
  0 <= src < vertices g -> 0 <= dest < vertices g ->
  dijkstra g src dest =
    match dijkstra_search g src dest with
    | Some st => dijkstra_report g src dest st
    | None => None
    end.
Proof.
  intros Hs Hd. unfold dijkstra. cbv zeta.
  destruct (Z.ltb_spec src 0); [lia |].
  destruct (Z.geb_spec src (vertices g)); [lia |].
  destruct (Z.ltb_spec dest 0); [lia |].
  destruct (Z.geb_spec dest (vertices g)); [lia |].
  reflexivity.
Qed.

(** ** Costs along paths *)

Lemma arrive_ge (g : Graph) (t : Z) (e : Edge) :
  0 <= t -> 0 <= weight e -> t <= arrive g t e.
Proof.
  intros Ht Hw. unfold arrive.
  pose proof (depart_ge (light_of g (to e)) (t + weight e) ltac:(lia)). lia.
Qed.

Lemma arrive_mono (g : Graph) (t t' : Z) (e : Edge) :
  0 <= t -> t <= t' -> 0 <= weight e -> arrive g t e <= arrive g t' e.
Proof. intros Ht Hle Hw. unfold arrive. apply depart_mono; lia. Qed.

(** Line 482 computes the departure time exactly: nothing wraps. *)
Lemma candidate_exact (g : Graph) (u du : Z) (e : Edge) :
  costs_ok g = true -> 0 <= u < vertices g -> In e (adj_of g u) ->
  0 <= du <= INF ->
  candidate g du e = arrive g du e.
Proof.
  intros Hok Hu He Hdu. destruct (costs_ok_facts g u e Hok Hu He) as (Hw & Hb).
  unfold candidate, arrive, depart.
  assert (Hadd : CInt.add du (weight e) = du + weight e).
  { apply add_exact. unfold CInt.in_range, CInt.INT_MIN, CInt.INT_MAX, INF in *. lia. }
  rewrite Hadd.
  pose proof (getWaitingTime_bounds (light_of g (to e)) (du + weight e) ltac:(lia)).
  apply add_exact. unfold CInt.in_range, CInt.INT_MIN, CInt.INT_MAX, INF in *. lia.
Qed.

Lemma path_cost_nil (g : Graph) : path_cost g [] = 0.
Proof. reflexivity. Qed.

Section PathCosts.
Variable g : Graph.
Variable src : Z.
Hypothesis Hwf : wf_graph g = true.
Hypothesis Hok : costs_ok g = true.
Hypothesis Hsrc : 0 <= src < vertices g.

Lemma path_cost_nonneg (p : list Edge) : is_path g src p -> 0 <= path_cost g p.
Proof.
  induction p as [| e p IH] using rev_ind; intros Hp; [rewrite path_cost_nil; lia |].
  apply is_path_app in Hp. destruct Hp as (Hp & He). simpl in He.
  rewrite path_cost_snoc. specialize (IH Hp).
  pose proof (path_end_range g src p Hwf Hsrc Hp) as Hy.
  destruct (costs_ok_facts g _ e Hok Hy (proj1 He)) as (Hw & _).
  pose proof (arrive_ge g (path_cost g p) e IH Hw). lia.
Qed.

Lemma path_cost_prefix (p q : list Edge) :
  is_path g src (p ++ q) -> path_cost g p <= path_cost g (p ++ q).
Proof.
  induction q as [| e q IH] using rev_ind; intros Hp.
  - rewrite app_nil_r. lia.
  - rewrite app_assoc in Hp |- *. pose proof Hp as Hp'.
    apply is_path_app in Hp. destruct Hp as (Hpq & He). simpl in He.
    rewrite path_cost_snoc. specialize (IH Hpq).
    pose proof (path_end_range g src (p ++ q) Hwf Hsrc Hpq) as Hy.
    destruct (costs_ok_facts g _ e Hok Hy (proj1 He)) as (Hw & _).
    pose proof (path_cost_nonneg (p ++ q) Hpq) as H0.
    pose proof (arrive_ge g (path_cost g (p ++ q)) e H0 Hw). lia.
Qed.

(** If no open junction has a distance below [m], no path to an open
    junction costs less than [m]. *)
Lemma open_lower_bound (dest : Z) (st : DState) (m : Z) :
  opt_inv g src dest (-1) [] st ->
  (forall w, 0 <= w < vertices g -> ~ closed st w -> m <= dist_of st w) ->
  forall (p : list Edge) (x : Z),
    connects g src x p -> ~ closed st x -> m <= path_cost g p.
Proof.
  intros (Hbound & Hzero & _ & Hfinal & Hedge & _) Hm.
  induction p as [| e p IH] using rev_ind; intros x Hconn Hopen.
  - destruct Hconn as (_ & Hend). rewrite path_end_nil in Hend. subst x.
    rewrite path_cost_nil, <- Hzero. apply Hm; assumption.
  - destruct (connects_snoc_inv g src x p e Hconn) as (Hcp & He & ->).
    pose proof Hcp as (Hp & _).
    pose proof (path_end_range g src p Hwf Hsrc Hp) as Hy.
    set (y := path_end src p) in *.
    destruct (costs_ok_facts g y e Hok Hy He) as (Hw & _).
    pose proof (path_cost_nonneg p Hp) as H0.
    rewrite path_cost_snoc.
    destruct (Z.eq_dec (pos_of (st_heap st) y) (-1)) as [Hcl | Hop].
    + destruct (Hfinal y Hy Hcl) as (_ & Hlow). specialize (Hlow p Hcp).
      destruct (Hbound y Hy) as (Hy0 & _).
      pose proof (arrive_mono g (dist_of st y) (path_cost g p) e Hy0 Hlow Hw).
      pose proof (Hedge y e Hy Hcl He ltac:(lia)).
      destruct (wf_graph_facts g Hwf) as (_ & Hto).
      pose proof (Hm (to e) (Hto y e Hy He) Hopen). lia.
    + specialize (IH y Hcp Hop).
      pose proof (arrive_ge g (path_cost g p) e H0 Hw). lia.
Qed.

End PathCosts.

(** ** Optimality invariant *)

Section Optimality.
Variable g : Graph.
Variables src dest : Z.
Hypothesis Hwf : wf_graph g = true.
Hypothesis Hok : costs_ok g = true.
Hypothesis Hsrc : 0 <= src < vertices g.
Hypothesis Hdst : 0 <= dest < vertices g.

Lemma opt_inv_add_edge (u : Z) (done : list Edge) (e : Edge) (st : DState) :
  opt_inv g src dest u done st ->
  (0 <= u < vertices g -> dist_of st (to e) <= arrive g (dist_of st u) e) ->
  opt_inv g src dest u (e :: done) st.
Proof.
  intros (Hbound & Hzero & Hpath & Hfinal & Hedge & Hsep & Hdest & Hcur) He.
  repeat (split; [assumption |]). split; [| split; [| split]]; try assumption.
  intros u' e' Hu' Hcu' He' Hdone.
  destruct (Z.eq_dec u' u) as [-> | Hne].
  - destruct (Hdone eq_refl) as [<- | Hin]; [apply He; assumption |].
    apply Hedge; auto.
  - apply Hedge; auto. intros E. contradiction.
Qed.

Lemma relaxed_opt (u : Z) (done : list Edge) (e : Edge) (st st' : DState) :
  0 <= u < vertices g -> In e (adj_of g u) ->
  opt_inv g src dest u done st -> relaxed g u e st st' ->
  opt_inv g src dest u (e :: done) st'.
Proof.
  intros Hu He Hinv Hrel.
  pose proof Hinv as (Hbound & Hzero & Hpath & Hfinal & Hedge & Hsep & Hdest & Hcur).
  destruct (Hcur Hu) as (Hclu & Hmax).
  destruct (Hfinal u Hu Hclu) as (Hdu & _).
  destruct (Hbound u Hu) as (Hdu0 & _).
  destruct (wf_graph_facts g Hwf) as (_ & Hto).
  pose proof (Hto u e Hu He) as Hv.
  destruct (costs_ok_facts g u e Hok Hu He) as (Hwt & _).
  pose proof (candidate_exact g u (dist_of st u) e Hok Hu He ltac:(lia)) as Hcand.
  pose proof (arrive_ge g (dist_of st u) e Hdu0 Hwt) as Hge.
  destruct Hrel as [Hc -> | Hopen Hkeep ->
                   | Hopen Hlt Hbd Hbp Hd Hpar Hcands Hinv' (Hsz & Hdec)].
  - apply opt_inv_add_edge; [assumption |]. intros _.
    specialize (Hmax (to e) Hv Hc). lia.
  - apply (opt_inv_add_edge u done e st); [assumption |]. intros _. lia.
  - set (v := to e) in *. set (c := candidate g (dist_of st u) e) in *.
    assert (Hdist' : forall w, dist_of st' w = if w =? v then c else dist_of st w).
    { intros w. unfold dist_of. rewrite Hd. apply aget_aset. assumption. }
    assert (Hclosed' : forall w, 0 <= w < vertices g -> (closed st' w <-> closed st w)).
    { intros w Hw. apply (Hdec w Hw). }
    assert (Hvopen : ~ closed st v) by exact Hopen.
    destruct (Hbound v Hv) as (_ & HvINF).
    split; [| split; [| split; [| split; [| split; [| split; [| split]]]]]].
    + intros w Hw. rewrite Hdist'. destruct (Z.eqb_spec w v); [lia | apply Hbound; assumption].
    + rewrite Hdist'. destruct (Z.eqb_spec src v) as [E | _]; [| assumption].
      rewrite <- E in Hlt. lia.
    + intros w Hw. rewrite Hdist'. destruct (Z.eqb_spec w v) as [-> | _];
        [| apply Hpath; assumption].
      intros _. destruct (Hpath u Hu Hdu) as (p & Hp & Hcost).
      exists (p ++ [e]). split; [apply (connects_snoc g src u); assumption |].
      rewrite path_cost_snoc, Hcost. symmetry. exact Hcand.
    + intros w Hw Hcw. apply (Hclosed' w Hw) in Hcw. rewrite Hdist'.
      destruct (Z.eqb_spec w v) as [-> | _]; [contradiction |].
      apply Hfinal; assumption.
    + intros u' e' Hu' Hcu' He' Hdone. apply (Hclosed' u' Hu') in Hcu'.
      rewrite (Hdist' u'). destruct (Z.eqb_spec u' v) as [-> | _]; [contradiction |].
      assert (Hold : (u' = u -> e <> e') ->
                     dist_of st (to e') <= arrive g (dist_of st u') e').
      { intros Hn. apply Hedge; auto. intros E.
        destruct (Hdone E) as [E' | Hin]; [exfalso; apply (Hn E E') | assumption]. }
      rewrite Hdist'. destruct (Z.eqb_spec (to e') v) as [Ev | Hnv].
      * rewrite Ev in Hold.
        destruct (Z.eq_dec u' u) as [-> | Hne]; [| specialize (Hold ltac:(tauto)); lia].
        destruct (Hdone eq_refl) as [<- | Hin]; [lia |].
        pose proof (Hedge u e' Hu' Hcu' He' ltac:(auto)) as Hold'.
        rewrite Ev in Hold'. lia.
      * apply Hold. intros _ <-. apply Hnv. reflexivity.
    + intros x y Hx Hy Hcx Hoy. apply (Hclosed' x Hx) in Hcx.
      rewrite (Hclosed' y Hy) in Hoy. rewrite !Hdist'.
      destruct (Z.eqb_spec x v) as [-> | _]; [contradiction |].
      destruct (Z.eqb_spec y v) as [-> | _]; [| apply Hsep; assumption].
      specialize (Hmax x Hx Hcx). lia.
    + intros Hcd. apply Hdest. apply (Hclosed' dest Hdst). exact Hcd.
    + intros _. split; [apply (Hclosed' u Hu); assumption |].
      intros x Hx Hcx. apply (Hclosed' x Hx) in Hcx. rewrite !Hdist'.
      destruct (Z.eqb_spec x v) as [-> | _]; [contradiction |].
      destruct (Z.eqb_spec u v) as [E | _]; [rewrite E in Hclu; contradiction |].
      apply Hmax; assumption.
Qed.

Lemma relaxed_all_opt (u : Z) (es : list Edge) (st st' : DState) :
  0 <= u < vertices g ->
  relaxed_all g u es st st' ->
  forall done,
    (forall e, In e es -> In e (adj_of g u)) ->
    opt_inv g src dest u done st ->
    opt_inv g src dest u (rev es ++ done) st'.
Proof.
  intros Hu Hrel. induction Hrel as [st | e es st st1 st2 Hrel1 _ IH]; intros done Hes Hinv.
  - exact Hinv.
  - simpl rev. rewrite <- app_assoc. simpl app. apply IH.
    + intros e' He'. apply Hes. right. assumption.
    + apply (relaxed_opt u done e st st1); auto. apply Hes. left. reflexivity.
Qed.

(** Entering the inner loop: the junction just extracted is final. *)
Lemma extract_opt (st : DState) (h' : MinHeap) (u : Z) :
  opt_inv g src dest (-1) [] st ->
  0 <= u < vertices g -> ~ closed st u ->
  extracted (vertices g) (st_heap st) u h' ->
  (forall w, 0 <= w < vertices g -> ~ closed st w -> dist_of st u <= dist_of st w) ->
  dist_of st u <> INF -> u <> dest ->
  opt_inv g src dest u [] (mkDState (st_dist st) (st_parent st) h' (st_cands st)).
Proof.
  intros Hinv Hu Hopen (Hsz & Hgone & Hrest) Hleast Hninf Hnd.
  pose proof Hinv as (Hbound & Hzero & Hpath & Hfinal & Hedge & Hsep & Hdest & _).
  set (st1 := mkDState (st_dist st) (st_parent st) h' (st_cands st)).
  assert (Hcl : forall w, 0 <= w < vertices g -> (closed st1 w <-> w = u \/ closed st w)).
  { intros w Hw. unfold closed. simpl.
    destruct (Z.eq_dec w u) as [-> | Hne]; [tauto |].
    rewrite (proj1 (Hrest w Hw Hne)). tauto. }
  change (forall w, dist_of st1 w = dist_of st w) with (forall w, dist_of st w = dist_of st w).
  split; [exact Hbound |]. split; [exact Hzero |]. split; [exact Hpath |].
  split; [| split; [| split; [| split]]].
  - intros w Hw Hcw. apply (Hcl w Hw) in Hcw. destruct Hcw as [-> | Hcw];
      [| apply Hfinal; assumption].
    split; [destruct (Hbound u Hu); change (dist_of st1 u) with (dist_of st u); lia |].
    intros p Hp. apply (open_lower_bound g src Hwf Hok Hsrc dest st (dist_of st u) Hinv Hleast p u);
      assumption.
  - intros u' e Hu' Hcu' He Hdone. apply (Hcl u' Hu') in Hcu'.
    destruct Hcu' as [-> | Hcu']; [destruct (Hdone eq_refl) |].
    apply Hedge; auto. intros E. lia.
  - intros x y Hx Hy Hcx Hoy. apply (Hcl x Hx) in Hcx. rewrite (Hcl y Hy) in Hoy.
    destruct Hcx as [-> | Hcx]; [apply Hleast; tauto | apply Hsep; tauto].
  - rewrite (Hcl dest Hdst). intros [E | Hc]; [congruence | contradiction].
  - intros _. split; [apply (Hcl u Hu); left; reflexivity |].
    intros x Hx Hcx. apply (Hcl x Hx) in Hcx.
    destruct Hcx as [-> | Hcx]; [change (dist_of st u <= dist_of st u); lia |].
    apply Hsep; assumption.
Qed.

(** Leaving the inner loop: every edge of [u] has been relaxed. *)
Lemma opt_inv_finish (u : Z) (done : list Edge) (st : DState) :
  opt_inv g src dest u done st ->
  (forall e, In e (adj_of g u) -> In e done) ->
  opt_inv g src dest (-1) [] st.
Proof.
  intros (Hbound & Hzero & Hpath & Hfinal & Hedge & Hsep & Hdest & Hcur) Hall.
  repeat (split; [assumption |]). split; [| split; [| split]]; try assumption.
  - intros u' e Hu' Hcu' He _. apply Hedge; auto.
    intros ->. apply Hall. assumption.
  - lia.
Qed.

Lemma dijkstra_search_opt :
  exists st, dijkstra_search g src dest = Some st /\
             Z.of_nat (length (st_dist st)) = MAX /\
             search_result g src dest st.
Proof.
  destruct (dijkstra_init_spec g src Hwf Hsrc)
    as (st0 & Hinit & Hinv0 & Hsz0 & Hopen0 & Hzero0 & Hinf0 & _).
  rewrite (dijkstra_search_unfold g src dest st0 Hinit).
  apply (dijkstra_loop_rule g src dest
           (fun st => search_inv g src st /\ opt_inv g src dest (-1) [] st));
    try assumption.
  - tauto.
  - intros st (((Hs & _) & _) & (_ & _ & _ & _ & _ & _ & Hdest & _)) Hsize.
    exfalso. apply Hdest. unfold closed.
    destruct (Z.eq_dec (pos_of (st_heap st) dest) (-1)) as [E | Hn]; [assumption |].
    destruct (shape_present _ _ _ Hs Hdst Hn). lia.
  - intros st h' u (Hsinv & Hinv) Hu Hopen Hex Hleast. split.
    + intros Hexit. split; [apply Hsinv |].
      pose proof Hinv as (Hbound & _ & Hpath & _ & _ & _ & Hdest & _).
      unfold search_result.
      change (dist_of (mkDState (st_dist st) (st_parent st) h' (st_cands st)) dest)
        with (dist_of st dest).
      destruct (Z.eq_dec (dist_of st u) INF) as [Einf | Hninf].
      * right. rewrite Einf in Hleast.
        destruct (Hbound dest Hdst). pose proof (Hleast dest Hdst Hdest).
        split; [lia |]. intros p Hp.
        apply (open_lower_bound g src Hwf Hok Hsrc dest st INF Hinv Hleast p dest);
          assumption.
      * destruct Hexit as [E | ->]; [contradiction |]. left.
        destruct (Hbound dest Hdst). split; [lia |].
        split; [apply Hpath; [assumption | lia] |]. intros p Hp.
        apply (open_lower_bound g src Hwf Hok Hsrc dest st (dist_of st dest) Hinv Hleast p dest);
          assumption.
    + intros Hninf Hnd st2 Hrel Hsinv2. split; [assumption |].
      apply (opt_inv_finish u (rev (adj_of g u) ++ [])).
      * apply (relaxed_all_opt u (adj_of g u) _ st2 Hu Hrel); [auto |].
        apply extract_opt; assumption.
      * intros e He. rewrite app_nil_r. apply in_rev in He. exact He.
  - split; [assumption |].
    split; [| split; [| split; [| split; [| split; [| split; [| split]]]]]].
    + intros v Hv. destruct (Z.eq_dec v src) as [-> | Hne];
        [rewrite Hzero0 | rewrite (Hinf0 v Hv Hne)]; unfold INF; lia.
    + assumption.
    + intros v Hv Hlt. destruct (Z.eq_dec v src) as [-> | Hne].
      * exists []. split; [apply connects_nil | rewrite Hzero0; reflexivity].
      * rewrite (Hinf0 v Hv Hne) in Hlt. lia.
    + intros v Hv Hc. destruct (Hopen0 v Hv Hc).
    + intros u' e Hu' Hc. destruct (Hopen0 u' Hu' Hc).
    + intros x y Hx _ Hc. destruct (Hopen0 x Hx Hc).
    + apply Hopen0. assumption.
    + lia.
  - lia.
Qed.

End Optimality.

(** ** Simple paths *)

Lemma prefix_reaching (src x : Z) (q : list Edge) :
  In x (src :: map to q) ->
  exists q1 q2, q = q1 ++ q2 /\ path_end src q1 = x.
Proof.
  revert src. induction q as [| a q IH]; intros src Hin.
  - exists [], []. split; [reflexivity |]. destruct Hin as [-> | []]. reflexivity.
  - destruct Hin as [-> | Hin].
    + exists [], (a :: q). split; reflexivity.
    + destruct (IH (to a) Hin) as (q1 & q2 & -> & Hend).
      exists (a :: q1), q2. split; [reflexivity |].
      rewrite path_end_cons. exact Hend.
Qed.

Lemma simple_path_exists (g : Graph) (src : Z) :
  wf_graph g = true -> costs_ok g = true -> 0 <= src < vertices g ->
  forall (p : list Edge) (x : Z),
    connects g src x p ->
    exists p', simple_path g src x p' /\ path_cost g p' <= path_cost g p.
Proof.
  intros Hwf Hok Hsrc.
  induction p as [| e p IH] using rev_ind; intros x Hconn.
  - exists []. split; [| lia]. split; [assumption |].
    simpl. apply NoDup_singleton.
  - destruct (connects_snoc_inv g src x p e Hconn) as (Hcp & He & ->).
    destruct (IH _ Hcp) as (q & (Hcq & Hnd) & Hle).
    pose proof Hcp as (Hp & _). pose proof Hcq as (Hq & Hqend).
    pose proof (path_end_range g src p Hwf Hsrc Hp) as Hy.
    destruct (costs_ok_facts g _ e Hok Hy He) as (Hw & _).
    pose proof (path_cost_nonneg g src Hwf Hok Hsrc p Hp) as Hp0.
    pose proof (path_cost_nonneg g src Hwf Hok Hsrc q Hq) as Hq0.
    rewrite path_cost_snoc.
    pose proof (arrive_ge g (path_cost g p) e Hp0 Hw) as Hge.
    destruct (in_dec Z.eq_dec (to e) (src :: map to q)) as [Hin | Hnin].
    + destruct (prefix_reaching src (to e) q Hin) as (q1 & q2 & -> & Hend).
      exists q1. split.
      * split; [split; [| assumption] |].
        -- apply is_path_app in Hq. tauto.
        -- rewrite map_app, app_comm_cons in Hnd.
           apply NoDup_app in Hnd. tauto.
      * pose proof (path_cost_prefix g src Hwf Hok Hsrc q1 q2 Hq). lia.
    + exists (q ++ [e]). split.
      * split; [apply (connects_snoc g src (path_end src q) q e);
                  [split; [assumption | reflexivity] | rewrite Hqend; assumption] |].
        rewrite map_app. simpl map. rewrite app_comm_cons.
        apply NoDup_app. split; [assumption |]. split.
        -- intros z Hz Hz'. apply list_elem_of_In in Hz, Hz'.
           destruct Hz' as [<- | []]. contradiction.
        -- apply NoDup_singleton.
      * rewrite path_cost_snoc.
        apply (arrive_mono g (path_cost g q) (path_cost g p) e); assumption.
Qed.

Lemma search_result_min_cost (g : Graph) (src dest : Z) (st : DState) :
  wf_graph g = true -> costs_ok g = true -> 0 <= src < vertices g ->
  search_result g src dest st ->
  (dist_of st dest < INF /\ min_cost g src dest (dist_of st dest)) \/
  (dist_of st dest = INF /\
   forall p, simple_path g src dest p -> INF <= path_cost g p).
Proof.
  intros Hwf Hok Hsrc [(Hlt & (p & Hp & Hcost) & Hlow) | (Hinf & Hlow)].
  - left. split; [assumption |].
    destruct (simple_path_exists g src Hwf Hok Hsrc p dest Hp) as (p' & Hsimple & Hle).
    split.
    + exists p'. split; [assumption |].
      pose proof (Hlow p' (proj1 Hsimple)). lia.
    + intros q (Hq & _). apply Hlow. assumption.
  - right. split; [assumption |]. intros p (Hp & _). apply Hlow. assumption.
Qed.

(** ** Parent links and path reconstruction *)

Lemma ranked_ext (parent parent' : list Z) (l : list Z) :
  (forall x, In x l -> aget 0 parent' x = aget 0 parent x) ->
  ranked parent l -> ranked parent' l.
Proof.
  intros Hext Hr. induction Hr as [| v l Hr IH Hv]; [constructor |].
  constructor.
  - apply IH. intros x Hx. apply Hext. right. assumption.
  - rewrite (Hext v) by (left; reflexivity). assumption.
Qed.

Lemma ranked_chain (parent : list Z) (l : list Z) :
  ranked parent l -> (forall x, In x l -> x <> -1) ->
  forall v, In v l -> exists k, chain parent v k /\ (k <= length l)%nat.
Proof.
  intros Hr. induction Hr as [| v l Hr IH Hv]; intros Hne w Hw; [destruct Hw |].
  assert (Hne' : forall x, In x l -> x <> -1) by (intros x Hx; apply Hne; right; assumption).
  destruct Hw as [<- | Hw].
  - destruct Hv as [Hv | Hv].
    + exists 1%nat. split; [| simpl; lia].
      apply chain_link; [apply Hne; left; reflexivity |]. rewrite Hv. constructor.
    + destruct (IH Hne' _ Hv) as (k & Hk & Hle).
      exists (Datatypes.S k). split; [| simpl; lia].
      apply chain_link; [apply Hne; left; reflexivity | assumption].
  - destruct (IH Hne' _ Hw) as (k & Hk & Hle). exists k. split; [assumption | simpl; lia].
Qed.

Lemma tree_chain (g : Graph) (order : list Z) (st : DState) :
  tree_inv g order st ->
  forall v, 0 <= v < vertices g ->
    exists k, chain (st_parent st) v k /\
              (k <= Datatypes.S (length order))%nat /\
              (In v order -> (k <= length order)%nat).
Proof.
  intros (Hr & Hin & _ & Hpar & _) v Hv.
  assert (Hne : forall x, In x order -> x <> -1)
    by (intros x Hx; destruct (Hin x Hx); lia).
  destruct (in_dec Z.eq_dec v order) as [Hvo | Hvo].
  - destruct (ranked_chain _ _ Hr Hne v Hvo) as (k & Hk & Hle).
    exists k. split; [assumption |]. split; [lia | auto].
  - destruct (Hpar v Hv) as [Hp | Hp].
    + exists 1%nat. split; [| split; [lia | contradiction]].
      apply chain_link; [lia |]. rewrite Hp. constructor.
    + destruct (ranked_chain _ _ Hr Hne _ Hp) as (k & Hk & Hle).
      exists (Datatypes.S k). split; [| split; [lia | contradiction]].
      apply chain_link; [lia | assumption].
Qed.

Lemma relaxed_tree (g : Graph) (u : Z) (e : Edge) (order : list Z) (st st' : DState) :
  0 <= to e < vertices g -> In u order ->
  relaxed g u e st st' -> tree_inv g order st -> tree_inv g order st'.
Proof.
  intros Hv Hu Hrel Htree.
  destruct Hrel as [Hc -> | Hopen Hkeep ->
                   | Hopen Hlt Hbd Hbp Hd Hpar Hcands Hinv' (Hsz & Hdec)];
    [assumption | exact Htree |].
  destruct Htree as (Hr & Hin & Hcl & Hp & Hlen).
  assert (Hclosed' : forall w, 0 <= w < vertices g -> (closed st' w <-> closed st w))
    by (intros w Hw; apply (Hdec w Hw)).
  assert (Hpar' : forall w, aget 0 (st_parent st') w =
                            if w =? to e then u else aget 0 (st_parent st) w)
    by (intros w; rewrite Hpar; apply aget_aset; assumption).
  assert (Hvo : ~ In (to e) order).
  { intros Hx. destruct (Hin _ Hx) as (_ & Hcx). contradiction. }
  split; [| split; [| split; [| split]]].
  - apply (ranked_ext (st_parent st)); [| assumption].
    intros x Hx. rewrite Hpar'. destruct (Z.eqb_spec x (to e)); [congruence | reflexivity].
  - intros x Hx. destruct (Hin x Hx) as (Hxr & Hxc). split; [assumption |].
    apply Hclosed'; assumption.
  - intros w Hw Hcw. apply Hcl; [assumption |]. apply Hclosed'; assumption.
  - intros w Hw. rewrite Hpar'. destruct (Z.eqb_spec w (to e)); [right; assumption |].
    apply Hp. assumption.
  - lia.
Qed.

Lemma relaxed_all_tree (g : Graph) (u : Z) (es : list Edge) (order : list Z)
      (st st' : DState) :
  (forall e, In e es -> 0 <= to e < vertices g) -> In u order ->
  relaxed_all g u es st st' -> tree_inv g order st -> tree_inv g order st'.
Proof.
  intros Hes Hu Hrel. induction Hrel as [st | e es st st1 st2 Hrel1 _ IH]; [auto |].
  intros Htree. apply IH; [intros e' He'; apply Hes; right; assumption |].
  apply (relaxed_tree g u e order st st1); auto. apply Hes. left. reflexivity.
Qed.

Lemma dijkstra_search_tree (g : Graph) (src dest : Z) :
  wf_graph g = true -> 0 <= src < vertices g ->
  exists st, dijkstra_search g src dest = Some st /\
             forall v, 0 <= v < vertices g ->
               exists k, chain (st_parent st) v k /\ Z.of_nat k <= MAX.
Proof.
  intros Hwf Hsrc. destruct (wf_graph_facts g Hwf) as (Hn & Hto).
  destruct (dijkstra_init_spec g src Hwf Hsrc)
    as (st0 & Hinit & Hinv0 & Hsz0 & Hopen0 & _ & _ & _ & Hpar0).
  rewrite (dijkstra_search_unfold g src dest st0 Hinit).
  apply (dijkstra_loop_rule g src dest
           (fun st => search_inv g src st /\ exists order, tree_inv g order st));
    try assumption.
  - tauto.
  - intros st (((Hs & _) & _) & order & Htree) Hsize v Hv.
    destruct (tree_chain g order st Htree v Hv) as (k & Hk & _ & Hle).
    exists k. split; [assumption |].
    pose proof Htree as (_ & _ & Hcl & _ & Hlen).
    assert (Hcv : closed st v).
    { unfold closed. destruct (Z.eq_dec (pos_of (st_heap st) v) (-1)) as [E | Hne];
        [assumption |]. destruct (shape_present _ _ _ Hs Hv Hne). lia. }
    specialize (Hle (Hcl v Hv Hcv)). lia.
  - intros st h' u (((Hs & _) & _) & order & Htree) Hu Hopen (Hsz & Hgone & Hrest) _.
    pose proof Htree as (Hr & Hin & Hcl & Hp & Hlen).
    destruct (shape_present _ _ _ Hs Hu Hopen) as (Hpos & _).
    split.
    + intros _ v Hv.
      destruct (tree_chain g order st Htree v Hv) as (k & Hk & Hle & _).
      exists k. split; [exact Hk | lia].
    + intros _ _ st2 Hrel Hsinv2. split; [assumption |].
      exists (u :: order).
      apply (relaxed_all_tree g u (adj_of g u) (u :: order)
               (mkDState (st_dist st) (st_parent st) h' (st_cands st)) st2);
        [intros e He; apply (Hto u); assumption | left; reflexivity | exact Hrel |].
      split; [| split; [| split; [| split]]].
      * constructor; [assumption | apply Hp; assumption].
      * intros x [<- | Hx]; [split; [assumption | exact Hgone] |].
        destruct (Hin x Hx) as (Hxr & Hxc). split; [assumption |].
        unfold closed. simpl.
        destruct (Z.eq_dec x u) as [-> | Hne]; [assumption |].
        apply (Hrest x Hxr Hne). assumption.
      * intros v Hv Hcv. unfold closed in Hcv. simpl in Hcv.
        destruct (Z.eq_dec v u) as [-> | Hne]; [left; reflexivity | right].
        apply Hcl; [assumption |]. apply (Hrest v Hv Hne). assumption.
      * intros v Hv. destruct (Hp v Hv) as [E | Hi]; [left; exact E | right; right; exact Hi].
      * simpl st_heap. simpl length. lia.
  - split; [assumption |]. exists []. split; [constructor |].
    split; [intros x [] |]. split; [intros v Hv Hc; destruct (Hopen0 v Hv Hc) |].
    split; [intros v Hv; left; apply Hpar0; assumption |]. simpl. lia.
  - lia.
Qed.

Lemma build_path_chain (parent : list Z) (v : Z) (k : nat) :
  chain parent v k ->
  forall (fuel : nat) (path : list Z) (idx : Z),
    (k <= fuel)%nat -> 0 <= idx -> idx + Z.of_nat k <= MAX ->
    exists path', build_path fuel parent v path idx = Some (path', idx + Z.of_nat k).
Proof.
  induction 1 as [| v k Hne Hchain IH]; intros fuel path idx Hfuel Hidx Hmax.
  - exists path. rewrite Z.add_0_r. destruct fuel; reflexivity.
  - destruct fuel as [| fuel]; [lia |]. simpl build_path.
    destruct (Z.eqb_spec v (-1)); [contradiction |].
    destruct (Z.ltb_spec idx MAX); [| lia].
    rewrite add_exact
      by (unfold CInt.in_range, CInt.INT_MIN, CInt.INT_MAX, MAX in *; lia).
    destruct (IH fuel (aset path idx v) (idx + 1) ltac:(lia) ltac:(lia) ltac:(lia))
      as (path' & Hr).
    exists path'. rewrite Hr. f_equal. f_equal. lia.
Qed.

Lemma dijkstra_report_distance (g : Graph) (src dest : Z) (st : DState) :
  0 <= dest < vertices g ->
  dist_of st dest <> INF ->
  (exists k, chain (st_parent st) dest k /\ Z.of_nat k <= MAX) ->
  exists evs, dijkstra_report g src dest st = Some evs /\
              reported_distance evs = Some (dist_of st dest).
Proof.
  intros Hd Hne (k & Hk & Hle). unfold dijkstra_report. cbv zeta.
  fold (dist_of st dest).
  destruct (Z.eqb_spec (dist_of st dest) INF); [contradiction |].
  destruct (build_path_chain _ _ _ Hk (Z.to_nat MAX) (replicate (Z.to_nat MAX) 0) 0)
    as (path & Hr); [lia | lia | lia |].
  rewrite Hr. eexists. split; reflexivity.
Qed.

(** ** Text: digits *)

Lemma digit_char_spec (d : Z) :
  0 <= d <= 9 ->
  isdigit (digit_char d) = true /\ digit_val (digit_char d) = d /\
  isspace (digit_char d) = false.
Proof.
  intros Hd.
  assert (H : d = 0 \/ d = 1 \/ d = 2 \/ d = 3 \/ d = 4 \/ d = 5 \/ d = 6 \/
              d = 7 \/ d = 8 \/ d = 9) by lia.
  repeat (destruct H as [-> | H]; [repeat split; reflexivity |]).
  subst d. repeat split; reflexivity.
Qed.

Lemma value_of_digits_snoc (l : text) (c : ascii) :
  value_of_digits (l ++ [c]) = value_of_digits l * 10 + digit_val c.
Proof. unfold value_of_digits. rewrite fold_left_app. reflexivity. Qed.

Lemma digits_aux_spec (fuel : nat) :
  forall n, 0 <= n < 2 ^ Z.of_nat (Datatypes.S fuel) ->
    Forall (fun c => isdigit c = true) (digits_aux (Datatypes.S fuel) n) /\
    value_of_digits (digits_aux (Datatypes.S fuel) n) = n /\
    digits_aux (Datatypes.S fuel) n <> [].
Proof.
  induction fuel as [| fuel IH]; intros n Hn.
  - assert (Hn2 : 0 <= n < 2) by (simpl in Hn; lia).
    destruct (digit_char_spec (n mod 10) ltac:(rewrite Z.mod_small; lia)) as (Hd & Hv & _).
    simpl digits_aux. destruct (Z.ltb_spec n 10); [| lia].
    simpl. split; [repeat constructor; assumption |]. split; [| discriminate].
    unfold value_of_digits. simpl. rewrite Hv. rewrite Z.mod_small by lia. reflexivity.
  - change (digits_aux (Datatypes.S (Datatypes.S fuel)) n)
      with ((if n <? 10 then [] else digits_aux (Datatypes.S fuel) (n / 10))
            ++ [digit_char (n mod 10)]).
    pose proof (Z.mod_pos_bound n 10 ltac:(lia)) as Hm.
    pose proof (Z.div_mod n 10 ltac:(lia)) as Hdm.
    destruct (digit_char_spec (n mod 10) ltac:(lia)) as (Hd & Hv & _).
    destruct (Z.ltb_spec n 10) as [Hlt | Hge].
    + simpl. split; [repeat constructor; assumption |].
      split; [| discriminate].
      unfold value_of_digits. simpl. rewrite Hv. rewrite Z.mod_small by lia. reflexivity.
    + assert (H2 : 0 <= n / 10 < 2 ^ Z.of_nat (Datatypes.S fuel)).
      { split; [apply Z.div_pos; lia |].
        rewrite (Nat2Z.inj_succ (Datatypes.S fuel)), Z.pow_succ_r in Hn by lia.
        apply Z.div_lt_upper_bound; lia. }
      destruct (IH (n / 10) H2) as (Hall & Hval & _).
      split; [apply Forall_app; split; [assumption | repeat constructor; assumption] |].
      split; [| intros E; apply app_eq_nil in E; destruct E; discriminate].
      rewrite value_of_digits_snoc, Hval, Hv. lia.
Qed.

Lemma print_uint_spec (n : Z) :
  0 <= n ->
  Forall (fun c => isdigit c = true) (print_uint n) /\
  value_of_digits (print_uint n) = n /\
  print_uint n <> [].
Proof.
  intros Hn. unfold print_uint. apply digits_aux_spec.
  split; [assumption |].
  rewrite Nat2Z.inj_succ, Z2Nat.id by apply Z.log2_nonneg.
  destruct (Z.eq_dec n 0) as [-> | Hne]; [reflexivity |].
  apply Z.log2_spec. lia.
Qed.

Lemma digits_fixed_spec (k : nat) :
  forall (l : text) (b : Z), 0 <= b < 10 ^ Z.of_nat k ->
    Forall (fun c => isdigit c = true) (digits_fixed k b) /\
    value_of_digits (l ++ digits_fixed k b) = value_of_digits l * 10 ^ Z.of_nat k + b.
Proof.
  induction k as [| k IH]; intros l b Hb.
  - simpl in *. rewrite app_nil_r. split; [constructor | lia].
  - simpl digits_fixed.
    pose proof (Z.mod_pos_bound b 10 ltac:(lia)) as Hm.
    pose proof (Z.div_mod b 10 ltac:(lia)) as Hdm.
    destruct (digit_char_spec (b mod 10) ltac:(lia)) as (Hd & Hv & _).
    assert (H2 : 0 <= b / 10 < 10 ^ Z.of_nat k).
    { split; [apply Z.div_pos; lia |].
      rewrite Nat2Z.inj_succ, Z.pow_succ_r in Hb by lia.
      apply Z.div_lt_upper_bound; lia. }
    destruct (IH l (b / 10) H2) as (Hall & Hval).
    split; [apply Forall_app; split; [assumption | repeat constructor; assumption] |].
    rewrite app_assoc, value_of_digits_snoc, Hval, Hv.
    rewrite Nat2Z.inj_succ, Z.pow_succ_r by lia. lia.
Qed.

Lemma span_digits_app (ds rest : text) :
  Forall (fun c => isdigit c = true) ds ->
  match rest with c :: _ => isdigit c = false | [] => True end ->
  span_digits (ds ++ rest) = (ds, rest).
Proof.
  intros Hds Hrest. induction Hds as [| d ds Hd _ IH].
  - simpl. destruct rest as [| c rest]; [reflexivity |].
    simpl. rewrite Hrest. reflexivity.
  - simpl. rewrite Hd, IH. reflexivity.
Qed.

Lemma isdigit_not_space (c : ascii) : isdigit c = true -> isspace c = false.
Proof.
  unfold isdigit, isspace. intros H.
  apply andb_true_iff in H. destruct H as (H1 & H2).
  apply Nat.leb_le in H1, H2.
  destruct (Nat.eqb_spec (nat_of_ascii c) 32); [lia |].
  destruct (Nat.leb_spec 9 (nat_of_ascii c)); [| reflexivity].
  destruct (Nat.leb_spec (nat_of_ascii c) 13); [lia | reflexivity].
Qed.

Lemma isspace_not_digit (c : ascii) : isspace c = true -> isdigit c = false.
Proof.
  intros H. destruct (isdigit c) eqn:E; [| reflexivity].
  apply isdigit_not_space in E. congruence.
Qed.

(** ** Text: scanning what was printed *)

Lemma skip_space_nonspace (c : ascii) (s : text) :
  isspace c = false -> skip_space (c :: s) = c :: s.
Proof. intros H. simpl. rewrite H. reflexivity. Qed.

Lemma print_uint_head (n : Z) :
  0 <= n -> exists c l, print_uint n = c :: l /\ isdigit c = true.
Proof.
  intros Hn. destruct (print_uint_spec n Hn) as (Hall & _ & Hne).
  destruct (print_uint n) as [| c l]; [contradiction |].
  exists c, l. split; [reflexivity |]. inversion Hall; assumption.
Qed.

Lemma scan_sign_digit (c : ascii) (s : text) :
  isdigit c = true -> scan_sign (c :: s) = (false, c :: s).
Proof.
  intros Hc. unfold scan_sign.
  destruct (Ascii.eqb_spec c minus) as [-> | _]; [discriminate Hc |].
  destruct (Ascii.eqb_spec c plus) as [-> | _]; [discriminate Hc |].
  reflexivity.
Qed.

Lemma scan_int_print (z : Z) (rest : text) :
  int_ok z = true ->
  match rest with c :: _ => isdigit c = false | [] => True end ->
  scan_int (print_int z ++ rest) = (Some z, rest).
Proof.
  intros Hz Hrest. unfold int_ok in Hz. apply andb_true_iff in Hz.
  assert (Hr : CInt.in_range z) by (unfold CInt.in_range; lia).
  assert (Hclamp : forall v, CInt.in_range v ->
             CInt.wrap (Z.max LONG_MIN (Z.min LONG_MAX v)) = v).
  { intros v Hv. unfold CInt.in_range, CInt.INT_MIN, CInt.INT_MAX, LONG_MIN, LONG_MAX in *.
    rewrite Z.min_r, Z.max_r by lia. apply wrap_id.
    unfold CInt.in_range, CInt.INT_MIN, CInt.INT_MAX. lia. }
  unfold scan_int, print_int.
  destruct (Z.ltb_spec z 0) as [Hneg | Hpos].
  - destruct (print_uint_spec (- z) ltac:(lia)) as (Hall & Hval & Hne).
    rewrite <- app_comm_cons.
    rewrite skip_space_nonspace by reflexivity.
    unfold scan_sign. rewrite Ascii.eqb_refl.
    rewrite span_digits_app by assumption.
    destruct (print_uint (- z)) as [| c l] eqn:E; [contradiction |].
    rewrite Hval. replace (- - z) with z by lia. rewrite Hclamp by assumption.
    reflexivity.
  - destruct (print_uint_spec z Hpos) as (Hall & Hval & Hne).
    destruct (print_uint_head z Hpos) as (c & l & E & Hc).
    rewrite E in *. rewrite <- app_comm_cons.
    rewrite skip_space_nonspace by (apply isdigit_not_space; assumption).
    rewrite scan_sign_digit by assumption.
    rewrite app_comm_cons, span_digits_app by assumption.
    rewrite Hval, Hclamp by assumption. reflexivity.
Qed.

Lemma scan_int_space (c : ascii) (s : text) :
  isspace c = true -> scan_int (c :: s) = scan_int s.
Proof. intros H. unfold scan_int. simpl skip_space. rewrite H. reflexivity. Qed.

Lemma scan_str_space (w : nat) (c : ascii) (s : text) :
  isspace c = true -> scan_str w (c :: s) = scan_str w s.
Proof. intros H. unfold scan_str. simpl skip_space. rewrite H. reflexivity. Qed.

Lemma scan_lf_space (c : ascii) (s : text) :
  isspace c = true -> scan_lf (c :: s) = scan_lf s.
Proof. intros H. unfold scan_lf. simpl skip_space. rewrite H. reflexivity. Qed.

Lemma span_nonspace_word (w : text) :
  forall (width : nat) (c : ascii) (rest : text),
    Forall (fun a => isspace a = false) w -> (length w <= width)%nat ->
    isspace c = true ->
    span_nonspace width (w ++ c :: rest) = (w, c :: rest).
Proof.
  induction w as [| a w IH]; intros width c rest Hall Hlen Hc.
  - destruct width; simpl; [reflexivity |]. rewrite Hc. reflexivity.
  - inversion Hall as [| ? ? Ha Hw]; subst. simpl in Hlen.
    destruct width as [| width]; [lia |].
    simpl. rewrite Ha. rewrite IH by (assumption || lia). reflexivity.
Qed.

Lemma scan_str_word (w : text) (width : nat) (c : ascii) (rest : text) :
  w <> [] -> Forall (fun a => isspace a = false) w -> (length w <= width)%nat ->
  isspace c = true ->
  scan_str width (w ++ c :: rest) = (Some w, c :: rest).
Proof.
  intros Hne Hall Hlen Hc. unfold scan_str.
  destruct w as [| a w]; [contradiction |].
  inversion Hall as [| ? ? Ha Hw]; subst.
  rewrite <- app_comm_cons, skip_space_nonspace by assumption.
  rewrite app_comm_cons, span_nonspace_word by assumption.
  reflexivity.
Qed.

Lemma strip_word_digit (c : ascii) (s : text) :
  isdigit c = true ->
  strip_word (lit "infinity") (c :: s) = None /\
  strip_word (lit "inf") (c :: s) = None /\
  strip_word (lit "nan") (c :: s) = None.
Proof.
  intros Hc. destruct c as [[] [] [] [] [] [] [] []]; try discriminate Hc;
    repeat split; reflexivity.
Qed.

Lemma lower_space_not_e (c : ascii) :
  isspace c = true -> Ascii.eqb (lower c) (ascii_of_nat 101) = false.
Proof.
  intros Hc. destruct c as [[] [] [] [] [] [] [] []]; try discriminate Hc; reflexivity.
Qed.

Lemma length_digits_fixed (k : nat) (b : Z) : length (digits_fixed k b) = k.
Proof.
  revert b. induction k as [| k IH]; intros b; [reflexivity |].
  simpl. rewrite length_app, IH. simpl. lia.
Qed.

Lemma scan_lf_decimal (s : bool) (a b : Z) (c : ascii) (rest : text) :
  0 <= a -> 0 <= b < 1000000 -> isspace c = true ->
  scan_lf (sign_text s ++ print_uint a ++ [dot] ++ digits_fixed 6 b ++ c :: rest) =
    (Some (decimal_to_float s (a * 1000000 + b) (-6)), c :: rest).
Proof.
  intros Ha Hb Hc.
  destruct (print_uint_spec a Ha) as (Hall & Hval & Hne).
  destruct (print_uint_head a Ha) as (c0 & l0 & E0 & Hc0).
  destruct (digits_fixed_spec 6 (print_uint a) b ltac:(simpl; lia)) as (Hallf & Hvalf).
  destruct (strip_word_digit c0 (l0 ++ [dot] ++ digits_fixed 6 b ++ c :: rest) Hc0)
    as (Hw1 & Hw2 & Hw3).
  assert (Hscan : forall neg,
            scan_lf_unsigned neg
              (print_uint a ++ [dot] ++ digits_fixed 6 b ++ c :: rest) =
            (Some (decimal_to_float neg (a * 1000000 + b) (-6)), c :: rest)).
  { intros neg. unfold scan_lf_unsigned.
    rewrite app_comm_cons, <- E0 in Hw1, Hw2, Hw3.
    rewrite Hw1, Hw2, Hw3.
    rewrite span_digits_app by (assumption || reflexivity).
    change ([dot] ++ digits_fixed 6 b ++ c :: rest)
      with (dot :: (digits_fixed 6 b ++ c :: rest)).
    cbv iota. change (Ascii.eqb dot dot) with true. cbv iota.
    rewrite span_digits_app by (assumption || (apply isspace_not_digit; assumption)).
    assert (Hds : exists a0 l, print_uint a ++ digits_fixed 6 b = a0 :: l)
      by (rewrite E0; simpl; eauto).
    destruct Hds as (a0 & l & Eds). rewrite Eds, <- Eds.
    rewrite Hvalf, Hval, length_digits_fixed.
    unfold scan_exponent. rewrite lower_space_not_e by assumption.
    reflexivity. }
  unfold scan_lf. destruct s.
  - simpl sign_text. rewrite <- app_comm_cons.
    rewrite skip_space_nonspace by reflexivity.
    unfold scan_sign. rewrite Ascii.eqb_refl. simpl app at 1.
    apply Hscan.
  - simpl sign_text. simpl app at 1. rewrite E0 at 1. rewrite <- app_comm_cons.
    rewrite skip_space_nonspace by (apply isdigit_not_space; assumption).
    rewrite scan_sign_digit by assumption.
    rewrite app_comm_cons, <- E0. apply Hscan.
Qed.

Lemma div_half_even_nonneg (num den : Z) :
  0 <= num -> 0 < den -> 0 <= div_half_even num den.
Proof.
  intros Hn Hd. unfold div_half_even.
  pose proof (Z.div_pos num den Hn Hd).
  destruct (2 * (num mod den) <? den); [assumption |].
  destruct (den <? 2 * (num mod den)); [lia |].
  destruct (Z.even (num / den)); lia.
Qed.

Lemma millionths_nonneg (m : positive) (e : Z) : 0 <= millionths m e.
Proof.
  unfold millionths. destruct (Z.leb_spec 0 e).
  - pose proof (Z.pow_nonneg 2 e ltac:(lia)). nia.
  - apply div_half_even_nonneg; [lia |]. apply Z.pow_pos_nonneg; lia.
Qed.

Lemma scan_lf_print (x : float) (c : ascii) (rest : text) :
  is_number x = true -> isspace c = true ->
  scan_lf (print_f6 x ++ c :: rest) = (Some (reread x), c :: rest).
Proof.
  intros Hx Hc. unfold is_number in Hx. unfold print_f6, reread.
  destruct (Prim2SF x) as [s | s | | s m e]; try discriminate Hx.
  - change (lit "0.000000") with (print_uint 0 ++ [dot] ++ digits_fixed 6 0).
    rewrite <- !app_assoc.
    rewrite (scan_lf_decimal s 0 0 c rest) by (assumption || lia). reflexivity.
  - cbv zeta. pose proof (millionths_nonneg m e) as Hn.
    pose proof (Z.div_mod (millionths m e) 1000000 ltac:(lia)) as Hdm.
    pose proof (Z.mod_pos_bound (millionths m e) 1000000 ltac:(lia)) as Hm.
    rewrite <- !app_assoc.
    rewrite (scan_lf_decimal s _ _ c rest)
      by (assumption || (apply Z.div_pos; lia)).
    do 2 f_equal. f_equal. lia.
Qed.

(** ** Loops as folds *)

Lemma for_loop_fold {S : Type} (body : Z -> S -> S) :
  forall (count k : nat) (s : S),
    for_loop count (Z.of_nat k) body s =
    fold_left (fun s i => body i s) (map Z.of_nat (seq k count)) s.
Proof.
  induction count as [| count IH]; intros k s; [reflexivity |].
  simpl. replace (Z.of_nat k + 1) with (Z.of_nat (Datatypes.S k)) by lia.
  apply IH.
Qed.

Lemma for_upto_fold {S : Type} (n : Z) (body : Z -> S -> S) (s : S) :
  for_upto n body s = fold_left (fun s i => body i s) (range n) s.
Proof. unfold for_upto, range. apply (for_loop_fold body _ 0%nat). Qed.

Lemma in_range (n i : Z) : In i (range n) <-> 0 <= i < n.
Proof.
  unfold range. rewrite in_map_iff. split.
  - intros (k & <- & Hk). apply in_seq in Hk. lia.
  - intros Hi. exists (Z.to_nat i). split; [lia |]. apply in_seq. lia.
Qed.

Lemma NoDup_range (n : Z) : List.NoDup (range n).
Proof.
  unfold range. apply Finite.Injective_map_NoDup; [| apply List.seq_NoDup].
  intros a b. lia.
Qed.

Lemma fold_left_append {A B : Type} (f : B -> list A) (l : list B) (acc : list A) :
  fold_left (fun out i => out ++ f i) l acc = acc ++ concat (map f l).
Proof.
  revert acc. induction l as [| b l IH]; intros acc.
  - simpl. rewrite app_nil_r. reflexivity.
  - simpl. rewrite IH, app_assoc. reflexivity.
Qed.

Lemma edges_once_concat (g : Graph) :
  edges_once g =
    concat (map (fun u => map (fun p => (u, to p, weight p))
                              (filter (fun p => u < to p) (adj_of g u)))
                (range (vertices g))).
Proof.
  unfold edges_once. rewrite for_upto_fold.
  rewrite (fold_left_append
             (fun u => map (fun p => (u, to p, weight p))
                           (filter (fun p => u < to p) (adj_of g u)))).
  reflexivity.
Qed.

Lemma snapshot_lines (g : Graph) :
  for_upto (vertices g) (fun i out => out ++ junction_line g i) [] =
    concat (map (junction_line g) (range (vertices g))).
Proof. rewrite for_upto_fold. rewrite (fold_left_append (junction_line g)). reflexivity. Qed.

(** ** Reading back what was saved *)

Lemma name_ok_facts (s : string) :
  name_ok s = true ->
  lit s <> [] /\ Forall (fun a => isspace a = false) (lit s) /\ (length (lit s) <= 19)%nat.
Proof.
  unfold name_ok. rewrite !andb_true_iff. intros ((Hne & Hlen) & Hall).
  split; [| split].
  - intros E. rewrite E in Hne. discriminate Hne.
  - apply List.Forall_forall. intros a Ha. rewrite forallb_forall in Hall.
    specialize (Hall a Ha). destruct (isspace a); [discriminate | reflexivity].
  - apply Nat.leb_le. assumption.
Qed.

Lemma light_ok_facts (l : TrafficLight) :
  light_ok l = true ->
  int_ok (red l) = true /\ int_ok (green l) = true /\ int_ok (yellow l) = true.
Proof. unfold light_ok. rewrite !andb_true_iff. tauto. Qed.

Lemma scan_bind_some {A B : Type} (m : text -> option A * text)
      (k : A -> text -> option B * text) (s s' : text) (a : A) :
  m s = (Some a, s') -> scan_bind m k s = k a s'.
Proof. intros E. unfold scan_bind. rewrite E. reflexivity. Qed.

Lemma scan_junction6_line (g : Graph) (i : Z) (rest : text) :
  name_ok (name_of g i) = true -> light_ok (light_of g i) = true ->
  is_number (aget 0%float (lat g) i) = true ->
  is_number (aget 0%float (lon g) i) = true ->
  scan_junction6 (newline :: junction_line g i ++ rest) =
    (Some (lit (name_of g i), red (light_of g i), green (light_of g i),
           yellow (light_of g i),
           reread (aget 0%float (lat g) i), reread (aget 0%float (lon g) i)),
     newline :: rest).
Proof.
  intros Hname Hlight Hla Hlo.
  destruct (name_ok_facts _ Hname) as (Hne & Hns & Hlen).
  destruct (light_ok_facts _ Hlight) as (Hr & Hg & Hy).
  unfold junction_line. rewrite <- !app_assoc. cbn [app].
  unfold scan_junction6.
  erewrite scan_bind_some
    by (rewrite scan_str_space by reflexivity; apply scan_str_word;
        [assumption | assumption | assumption | reflexivity]).
  erewrite scan_bind_some
    by (rewrite scan_int_space by reflexivity; apply scan_int_print;
        [assumption | reflexivity]).
  erewrite scan_bind_some
    by (rewrite scan_int_space by reflexivity; apply scan_int_print;
        [assumption | reflexivity]).
  erewrite scan_bind_some
    by (rewrite scan_int_space by reflexivity; apply scan_int_print;
        [assumption | reflexivity]).
  erewrite scan_bind_some
    by (rewrite scan_lf_space by reflexivity; apply scan_lf_print;
        [assumption | reflexivity]).
  erewrite scan_bind_some
    by (rewrite scan_lf_space by reflexivity; apply scan_lf_print;
        [assumption | reflexivity]).
  reflexivity.
Qed.

Lemma scan_edge_line (u v w : Z) (rest : text) :
  int_ok u = true -> int_ok v = true -> int_ok w = true ->
  scan_edge (newline :: edge_line (u, v, w) ++ rest) = (Some (u, v, w), newline :: rest).
Proof.
  intros Hu Hv Hw. unfold edge_line. rewrite <- !app_assoc. cbn [app].
  unfold scan_edge.
  erewrite scan_bind_some
    by (rewrite scan_int_space by reflexivity; apply scan_int_print;
        [assumption | reflexivity]).
  erewrite scan_bind_some
    by (rewrite scan_int_space by reflexivity; apply scan_int_print;
        [assumption | reflexivity]).
  erewrite scan_bind_some
    by (rewrite scan_int_space by reflexivity; apply scan_int_print;
        [assumption | reflexivity]).
  reflexivity.
Qed.

Lemma load_junctions_fold (g : Graph) (rest : text) :
  forall (js : list Z) (gl : Graph),
    (forall i, In i js -> junction_ok g i) ->
    fold_left (fun st i => load_junction i st) js
              (gl, newline :: concat (map (junction_line g) js) ++ rest) =
    (fold_left (restored g) js gl, newline :: rest).
Proof.
  induction js as [| i js IH]; intros gl Hok; [reflexivity |].
  destruct (Hok i ltac:(left; reflexivity)) as (H1 & H2 & H3 & H4).
  cbn [map concat fold_left]. rewrite <- app_assoc.
  assert (E : load_junction i
                (gl, newline :: junction_line g i ++
                       concat (map (junction_line g) js) ++ rest) =
              (restored g gl i, newline :: concat (map (junction_line g) js) ++ rest)).
  { unfold load_junction. rewrite scan_junction6_line by assumption. reflexivity. }
  rewrite E. apply IH. intros j Hj. apply Hok. right. assumption.
Qed.

Lemma load_edges_fold :
  forall (es : list (Z * Z * Z)) (gl : Graph),
    (forall u v w, In (u, v, w) es ->
       int_ok u = true /\ int_ok v = true /\ int_ok w = true) ->
    load_edges (length es) gl (newline :: concat (map edge_line es)) =
    fold_left (fun gl e => push_edge gl (fst (fst e)) (snd (fst e)) (snd e)) es gl.
Proof.
  induction es as [| [[u v] w] es IH]; intros gl Hok; [reflexivity |].
  destruct (Hok u v w ltac:(left; reflexivity)) as (Hu & Hv & Hw).
  cbn [length map concat fold_left load_edges fst snd].
  rewrite scan_edge_line by assumption.
  apply IH. intros u' v' w' H'. apply Hok. right. assumption.
Qed.

Lemma sized_facts (g : Graph) :
  sized g = true ->
  Z.of_nat (length (adj g)) = MAX /\ Z.of_nat (length (lights g)) = MAX /\
  Z.of_nat (length (names g)) = MAX /\ Z.of_nat (length (lat g)) = MAX /\
  Z.of_nat (length (lon g)) = MAX.
Proof. unfold sized. rewrite !andb_true_iff. lia. Qed.

Lemma sized_intro (g : Graph) :
  Z.of_nat (length (adj g)) = MAX -> Z.of_nat (length (lights g)) = MAX ->
  Z.of_nat (length (names g)) = MAX -> Z.of_nat (length (lat g)) = MAX ->
  Z.of_nat (length (lon g)) = MAX -> sized g = true.
Proof. unfold sized. rewrite !andb_true_iff. lia. Qed.

Lemma initGraph_spec (g0 : Graph) :
  sized g0 = true ->
  vertices (initGraph g0) = 0 /\ sized (initGraph g0) = true /\
  forall i, 0 <= i < MAX -> adj_of (initGraph g0) i = [].
Proof.
  intros Hs. destruct (sized_facts g0 Hs) as (H1 & H2 & H3 & H4 & H5).
  unfold initGraph.
  apply (for_upto_ind
           (fun k g' => vertices g' = 0 /\ sized g' = true /\
                        forall i, 0 <= i < k -> adj_of g' i = [])).
  - unfold MAX. lia.
  - split; [reflexivity |]. split; [apply sized_intro; assumption |]. intros i Hi. lia.
  - intros i g' Hi (Hv & Hsz & Hadj).
    destruct (sized_facts g' Hsz) as (G1 & G2 & G3 & G4 & G5).
    split; [assumption |].
    split; [apply sized_intro; simpl; rewrite ?length_aset; assumption |].
    intros j Hj. unfold adj_of. simpl. rewrite aget_aset by lia.
    destruct (Z.eqb_spec j i); [reflexivity |]. apply Hadj. lia.
Qed.

Lemma restored_spec (g gl : Graph) (i : Z) :
  sized gl = true -> 0 <= i < MAX ->
  vertices (restored g gl i) = vertices gl /\
  adj (restored g gl i) = adj gl /\
  sized (restored g gl i) = true /\
  (forall j, j <> i ->
     name_of (restored g gl i) j = name_of gl j /\
     light_of (restored g gl i) j = light_of gl j /\
     aget 0%float (lat (restored g gl i)) j = aget 0%float (lat gl) j /\
     aget 0%float (lon (restored g gl i)) j = aget 0%float (lon gl) j) /\
  (name_ok (name_of g i) = true ->
   name_of (restored g gl i) i = name_of g i) /\
  light_of (restored g gl i) i = light_of g i /\
  aget 0%float (lat (restored g gl i)) i = reread (aget 0%float (lat g) i) /\
  aget 0%float (lon (restored g gl i)) i = reread (aget 0%float (lon g) i).
Proof.
  intros Hs Hi. destruct (sized_facts gl Hs) as (H1 & H2 & H3 & H4 & H5).
  unfold restored, store_junction, name_of, light_of. simpl.
  split; [reflexivity |]. split; [reflexivity |].
  split; [apply sized_intro; simpl; rewrite ?length_aset; assumption |].
  split; [intros j Hj; rewrite !aget_aset_ne by congruence; auto |].
  rewrite !aget_aset_eq by lia.
  split; [| split; [destruct (aget light0 (lights g) i); reflexivity | split; reflexivity]].
  intros Hname. destruct (name_ok_facts _ Hname) as (_ & _ & Hlen).
  fold (name_of g i). rewrite firstn_all2 by assumption.
  apply string_of_list_ascii_of_string.
Qed.

Lemma restored_fold (g : Graph) :
  forall (js : list Z) (gl : Graph),
    sized gl = true -> (forall i, In i js -> 0 <= i < MAX) ->
    vertices (fold_left (restored g) js gl) = vertices gl /\
    adj (fold_left (restored g) js gl) = adj gl /\
    sized (fold_left (restored g) js gl) = true /\
    forall j,
      (~ In j js -> same_junction (fold_left (restored g) js gl) gl j) /\
      (In j js -> name_ok (name_of g j) = true ->
       name_of (fold_left (restored g) js gl) j = name_of g j /\
       light_of (fold_left (restored g) js gl) j = light_of g j /\
       aget 0%float (lat (fold_left (restored g) js gl)) j =
         reread (aget 0%float (lat g) j) /\
       aget 0%float (lon (fold_left (restored g) js gl)) j =
         reread (aget 0%float (lon g) j)).
Proof.
  induction js as [| i js IH]; intros gl Hs Hjs.
  - simpl. split; [reflexivity |]. split; [reflexivity |]. split; [assumption |].
    intros j. split; [intros _; repeat split | intros []].
  - assert (Hi : 0 <= i < MAX) by (apply Hjs; left; reflexivity).
    destruct (restored_spec g gl i Hs Hi) as (Hv & Ha & Hs' & Hother & Hn & Hl & Hla & Hlo).
    destruct (IH (restored g gl i) Hs' ltac:(intros k Hk; apply Hjs; right; assumption))
      as (IHv & IHa & IHs & IHj).
    cbn [fold_left]. split; [congruence |]. split; [congruence |].
    split; [assumption |].
    intros j. destruct (IHj j) as (IHout & IHin). split.
    + intros Hnin. assert (Hji : j <> i) by (intros ->; apply Hnin; left; reflexivity).
      assert (Hnin' : ~ In j js) by (intros H; apply Hnin; right; assumption).
      destruct (IHout Hnin') as (E1 & E2 & E3 & E4).
      destruct (Hother j Hji) as (F1 & F2 & F3 & F4).
      unfold same_junction. repeat split; congruence.
    + intros Hin Hname.
      destruct (in_dec Z.eq_dec j js) as [Hjs' | Hjs']; [apply IHin; assumption |].
      assert (E : j = i) by (destruct Hin as [E | H]; [auto | contradiction]).
      subst j. destruct (IHout Hjs') as (E1 & E2 & E3 & E4).
      rewrite E1, E2, E3, E4, Hl, Hla, Hlo, (Hn Hname). auto.
Qed.

Lemma push_edge_spec (gl : Graph) (u v w : Z) :
  Z.of_nat (length (adj gl)) = MAX -> 0 <= u < MAX -> 0 <= v < MAX ->
  vertices (push_edge gl u v w) = vertices gl /\
  lights (push_edge gl u v w) = lights gl /\
  names (push_edge gl u v w) = names gl /\
  lat (push_edge gl u v w) = lat gl /\ lon (push_edge gl u v w) = lon gl /\
  Z.of_nat (length (adj (push_edge gl u v w))) = MAX /\
  forall i,
    adj_of (push_edge gl u v w) i =
      (if i =? v then [mkEdge u w] else []) ++
      (if i =? u then [mkEdge v w] else []) ++ adj_of gl i.
Proof.
  intros Hlen Hu Hv. unfold push_edge. cbv zeta.
  repeat (split; [reflexivity |]).
  split; [simpl; rewrite !length_aset; assumption |].
  intros i. unfold adj_of, set_adj, newEdge. simpl adj.
  rewrite aget_aset by (rewrite length_aset; lia).
  rewrite !aget_aset by lia.
  destruct (Z.eqb_spec i v) as [Eiv | Hiv]; destruct (Z.eqb_spec i u) as [Eiu | Hiu];
    try reflexivity.
  - rewrite <- Eiv, Eiu, Z.eqb_refl. reflexivity.
  - rewrite <- Eiv. destruct (Z.eqb_spec i u); [contradiction | reflexivity].
  - rewrite Eiu. reflexivity.
Qed.

Ltac decide_entries :=
  repeat match goal with
         | |- context [Edge_eq_dec ?a ?b] => destruct (Edge_eq_dec a b)
         | |- context [triple_eq_dec ?a ?b] => destruct (triple_eq_dec a b)
         end.

Lemma push_fold_count :
  forall (L : list (Z * Z * Z)) (gl : Graph),
    Z.of_nat (length (adj gl)) = MAX ->
    (forall u v w, In (u, v, w) L -> 0 <= u < MAX /\ 0 <= v < MAX) ->
    let gf := fold_left (fun gl e => push_edge gl (fst (fst e)) (snd (fst e)) (snd e)) L gl in
    vertices gf = vertices gl /\ lights gf = lights gl /\ names gf = names gl /\
    lat gf = lat gl /\ lon gf = lon gl /\
    forall x e,
      count_occ Edge_eq_dec (adj_of gf x) e =
      (count_occ Edge_eq_dec (adj_of gl x) e
       + count_occ triple_eq_dec L (x, to e, weight e)
       + count_occ triple_eq_dec L (to e, x, weight e))%nat.
Proof.
  induction L as [| [[u v] w] L IH]; intros gl Hlen HL; cbv zeta.
  - simpl. repeat (split; [reflexivity |]). intros x e. lia.
  - destruct (HL u v w ltac:(left; reflexivity)) as (Hu & Hv).
    destruct (push_edge_spec gl u v w Hlen Hu Hv) as (P1 & P2 & P3 & P4 & P5 & P6 & Padj).
    destruct (IH (push_edge gl u v w) P6
                 ltac:(intros a b c Hin; apply (HL a b c); right; assumption))
      as (I1 & I2 & I3 & I4 & I5 & Ic).
    cbn [fold_left fst snd].
    split; [congruence |]. split; [congruence |]. split; [congruence |].
    split; [congruence |]. split; [congruence |].
    intros x [t wt]. rewrite Ic, Padj, !count_occ_app. cbn [to weight].
    destruct (Z.eqb_spec x v), (Z.eqb_spec x u); cbn [count_occ app];
      decide_entries; try lia; congruence.
Qed.

Lemma count_filter_map (a b w u : Z) (l : list Edge) :
  count_occ triple_eq_dec
            (map (fun p => (u, to p, weight p)) (filter (fun p => u < to p) l))
            (a, b, w) =
  if (a =? u) && (u <? b) then count_occ Edge_eq_dec l (mkEdge b w) else 0%nat.
Proof.
  induction l as [| [t wt] l IH].
  - simpl. destruct ((a =? u) && (u <? b)); reflexivity.
  - rewrite filter_cons. cbn [to]. destruct (decide (u < t)) as [Hlt | Hge];
      cbn [map count_occ to weight]; rewrite IH;
      destruct (Z.eqb_spec a u), (Z.ltb_spec u b); cbn [andb];
      decide_entries; try reflexivity; try congruence;
      exfalso; match goal with
               | H : mkEdge _ _ = mkEdge _ _ |- _ => injection H as -> ->
               | H : (_, _, _) = (_, _, _) |- _ => injection H as -> -> ->
               end; try lia; congruence.
Qed.

Lemma count_edges_from (g : Graph) (a b w : Z) :
  forall us : list Z,
    List.NoDup us ->
    count_occ triple_eq_dec
      (concat (map (fun u => map (fun p => (u, to p, weight p))
                                 (filter (fun p => u < to p) (adj_of g u))) us))
      (a, b, w) =
    if in_dec Z.eq_dec a us
    then (if a <? b then count_occ Edge_eq_dec (adj_of g a) (mkEdge b w) else 0%nat)
    else 0%nat.
Proof.
  induction us as [| u us IH]; intros Hnd.
  - reflexivity.
  - inversion Hnd as [| u' us' Hu Hnd']; subst u' us'.
    cbn [map concat]. rewrite count_occ_app, count_filter_map, (IH Hnd').
    destruct (in_dec Z.eq_dec a (u :: us)) as [Hin | Hnin];
      destruct (in_dec Z.eq_dec a us) as [Hin' | Hnin'];
      destruct (Z.eqb_spec a u) as [E | E]; cbn [andb]; try subst u;
      try contradiction; try lia.
    + exfalso. destruct Hin; [congruence | contradiction].
    + exfalso. apply Hnin. right. assumption.
    + exfalso. apply Hnin. left. reflexivity.
Qed.

Lemma count_edges_once (g : Graph) (a b w : Z) :
  count_occ triple_eq_dec (edges_once g) (a, b, w) =
  if in_bounds (vertices g) a && (a <? b)
  then count_occ Edge_eq_dec (adj_of g a) (mkEdge b w) else 0%nat.
Proof.
  rewrite edges_once_concat, (count_edges_from g a b w _ (NoDup_range (vertices g))).
  unfold in_bounds.
  destruct (in_dec Z.eq_dec a (range (vertices g))) as [Hin | Hnin].
  - apply in_range in Hin.
    destruct (Z.leb_spec 0 a); [| lia]. destruct (Z.ltb_spec a (vertices g)); [| lia].
    reflexivity.
  - rewrite in_range in Hnin.
    destruct (Z.leb_spec 0 a); [| reflexivity].
    destruct (Z.ltb_spec a (vertices g)); [lia | reflexivity].
Qed.

Lemma edges_once_in (g : Graph) (u v w : Z) :
  In (u, v, w) (edges_once g) ->
  0 <= u < vertices g /\ u < v /\ In (mkEdge v w) (adj_of g u).
Proof.
  intros Hin.
  apply (count_occ_In triple_eq_dec) in Hin. rewrite count_edges_once in Hin.
  unfold in_bounds in Hin.
  destruct (Z.leb_spec 0 u); [| simpl in Hin; lia].
  destruct (Z.ltb_spec u (vertices g)); [| simpl in Hin; lia].
  destruct (Z.ltb_spec u v); [| simpl in Hin; lia].
  simpl in Hin. apply (count_occ_In Edge_eq_dec) in Hin. auto.
Qed.

Lemma count_inner (u : Z) :
  forall (l : list Edge) (c : Z),
    0 <= c ->
    c + Z.of_nat (length (filter (fun p => u < to p) l)) <= CInt.INT_MAX ->
    fold_left (fun c p => if u <? to p then CInt.add c 1 else c) l c =
    c + Z.of_nat (length (filter (fun p => u < to p) l)).
Proof.
  induction l as [| p l IH]; intros c Hc Hmax.
  - simpl. lia.
  - rewrite filter_cons in Hmax |- *. cbn [fold_left].
    destruct (decide (u < to p)) as [Hlt | Hge].
    + cbn [length] in Hmax |- *.
      destruct (Z.ltb_spec u (to p)); [| lia].
      rewrite add_exact by (unfold CInt.in_range, CInt.INT_MIN, CInt.INT_MAX in *; lia).
      rewrite IH by lia. lia.
    + destruct (Z.ltb_spec u (to p)); [lia |]. apply IH; assumption.
Qed.

Lemma count_outer (g : Graph) :
  forall (us : list Z) (c : Z),
    0 <= c ->
    c + Z.of_nat (length (concat (map (fun u => map (fun p => (u, to p, weight p))
                                 (filter (fun p => u < to p) (adj_of g u))) us)))
      <= CInt.INT_MAX ->
    fold_left
      (fun count u =>
         fold_left (fun c p => if u <? to p then CInt.add c 1 else c) (adj_of g u) count)
      us c =
    c + Z.of_nat (length (concat (map (fun u => map (fun p => (u, to p, weight p))
                                 (filter (fun p => u < to p) (adj_of g u))) us))).
Proof.
  induction us as [| u us IH]; intros c Hc Hmax.
  - simpl. lia.
  - cbn [map concat fold_left] in Hmax |- *.
    rewrite length_app, length_map in Hmax |- *.
    rewrite count_inner by lia. rewrite IH by lia. lia.
Qed.

Lemma count_edges_length (g : Graph) :
  Z.of_nat (length (edges_once g)) <= CInt.INT_MAX ->
  count_edges g = Z.of_nat (length (edges_once g)).
Proof.
  intros Hmax. unfold count_edges. rewrite for_upto_fold.
  rewrite edges_once_concat in Hmax |- *.
  rewrite count_outer by lia. lia.
Qed.

Lemma snapshot_ok_facts (g : Graph) :
  snapshot_ok g = true ->
  wf_graph g = true /\
  (forall i, 0 <= i < vertices g ->
     name_ok (name_of g i) = true /\ light_ok (light_of g i) = true) /\
  (forall u e, 0 <= u < vertices g -> In e (adj_of g u) ->
     int_ok (weight e) = true /\ to e <> u /\
     count_occ Edge_eq_dec (adj_of g u) e =
     count_occ Edge_eq_dec (adj_of g (to e)) (mkEdge u (weight e))) /\
  Z.of_nat (length (edges_once g)) <= CInt.INT_MAX.
Proof.
  unfold snapshot_ok. rewrite !andb_true_iff.
  intros (((((Hwf & Hj) & Hw) & Hl) & Hsym) & Hlen).
  split; [assumption |]. split; [| split; [| lia]].
  - intros i Hi. unfold junctions_ok in Hj. rewrite forallb_forall in Hj.
    specialize (Hj i (proj2 (in_range _ _) Hi)). apply andb_true_iff in Hj. assumption.
  - intros u e Hu He. apply in_range in Hu.
    unfold weights_int in Hw. unfold no_self_loop in Hl. unfold symmetric_adj in Hsym.
    rewrite forallb_forall in Hw, Hl, Hsym.
    specialize (Hw u Hu). specialize (Hl u Hu). specialize (Hsym u Hu).
    rewrite forallb_forall in Hw, Hl, Hsym.
    specialize (Hw e He). specialize (Hl e He). specialize (Hsym e He).
    split; [assumption |]. split.
    + apply negb_true_iff in Hl. apply Z.eqb_neq. assumption.
    + apply Nat.eqb_eq. assumption.
Qed.

Lemma int_ok_small (z : Z) : 0 <= z <= CInt.INT_MAX -> int_ok z = true.
Proof.
  unfold int_ok, CInt.INT_MIN, CInt.INT_MAX. intros H.
  apply andb_true_iff. split; apply Z.leb_le; lia.
Qed.

(** Reading the text that [saveGraphToFile] wrote: every junction line is
    taken by the six-field [fscanf], every road line by the three-field
    one. *)
Lemma load_snapshot (g g0 : Graph) (filename : string) :
  snapshot_ok g = true ->
  (forall i, 0 <= i < vertices g ->
     is_number (aget 0%float (lat g) i) = true /\
     is_number (aget 0%float (lon g) i) = true) ->
  fst (loadGraphFromFile g0 filename (Some (snapshot g))) =
  fold_left (fun gl e => push_edge gl (fst (fst e)) (snd (fst e)) (snd e))
            (edges_once g)
            (fold_left (restored g) (range (vertices g))
               (mkGraph (vertices g) (adj (initGraph g0)) (lights (initGraph g0))
                        (names (initGraph g0)) (lat (initGraph g0)) (lon (initGraph g0)))).
Proof.
  intros Hok Hnum.
  destruct (snapshot_ok_facts g Hok) as (Hwf & Hj & He & Hlen).
  destruct (wf_graph_facts g Hwf) as (Hn & Hto).
  assert (HMAX : MAX <= CInt.INT_MAX) by (unfold MAX, CInt.INT_MAX; lia).
  unfold loadGraphFromFile, snapshot.
  rewrite scan_int_print; [| apply int_ok_small; lia | reflexivity].
  cbn [vertices]. rewrite for_upto_fold, snapshot_lines.
  change ([newline] ++ concat (map (junction_line g) (range (vertices g))) ++
          print_int (count_edges g) ++ [newline] ++ concat (map edge_line (edges_once g)))
    with (newline :: concat (map (junction_line g) (range (vertices g))) ++
          (print_int (count_edges g) ++ [newline] ++ concat (map edge_line (edges_once g)))).
  rewrite load_junctions_fold.
  2:{ intros i Hi. apply in_range in Hi. destruct (Hj i Hi), (Hnum i Hi).
      unfold junction_ok. auto. }
  rewrite scan_int_space by reflexivity.
  rewrite count_edges_length by assumption.
  rewrite scan_int_print; [| apply int_ok_small; lia | reflexivity].
  rewrite Nat2Z.id. cbn [fst].
  change ([newline] ++ concat (map edge_line (edges_once g)))
    with (newline :: concat (map edge_line (edges_once g))).
  apply load_edges_fold.
  intros u v w Hin. destruct (edges_once_in g u v w Hin) as (Hu & Huv & Hin').
  destruct (He u _ Hu Hin') as (Hw & _ & _). specialize (Hto u _ Hu Hin').
  cbn [to weight] in Hw, Hto.
  repeat split; [apply int_ok_small; lia | apply int_ok_small; lia | assumption].
Qed.

Lemma symmetric_count (g : Graph) (x v w : Z) :
  snapshot_ok g = true -> 0 <= x < vertices g -> 0 <= v < vertices g ->
  count_occ Edge_eq_dec (adj_of g x) (mkEdge v w) =
  count_occ Edge_eq_dec (adj_of g v) (mkEdge x w).
Proof.
  intros Hok Hx Hv. destruct (snapshot_ok_facts g Hok) as (_ & _ & He & _).
  destruct (in_dec Edge_eq_dec (mkEdge v w) (adj_of g x)) as [Hin | Hnin].
  - apply (He x _ Hx Hin).
  - destruct (in_dec Edge_eq_dec (mkEdge x w) (adj_of g v)) as [Hin' | Hnin'].
    + symmetry. apply (He v _ Hv Hin').
    + apply (count_occ_not_In Edge_eq_dec) in Hnin, Hnin'. congruence.
Qed.

(** The graph that the loader builds from the snapshot of [g]. *)
Lemma load_snapshot_spec (g g0 : Graph) (filename : string) :
  snapshot_ok g = true ->
  (forall i, 0 <= i < vertices g ->
     is_number (aget 0%float (lat g) i) = true /\
     is_number (aget 0%float (lon g) i) = true) ->
  sized g0 = true ->
  let g' := fst (loadGraphFromFile g0 filename (Some (snapshot g))) in
  vertices g' = vertices g /\
  forall i, 0 <= i < vertices g ->
    name_of g' i = name_of g i /\ light_of g' i = light_of g i /\
    aget 0%float (lat g') i = reread (aget 0%float (lat g) i) /\
    aget 0%float (lon g') i = reread (aget 0%float (lon g) i) /\
    forall e, count_occ Edge_eq_dec (adj_of g' i) e = count_occ Edge_eq_dec (adj_of g i) e.
Proof.
  intros Hok Hnum Hs0. cbv zeta. rewrite (load_snapshot g g0 filename Hok Hnum).
  destruct (snapshot_ok_facts g Hok) as (Hwf & Hj & He & Hlen).
  destruct (wf_graph_facts g Hwf) as (Hn & Hto).
  destruct (initGraph_spec g0 Hs0) as (_ & Hsi & Hempty).
  revert Hsi Hempty. generalize (initGraph g0). intros gi Hsi Hempty.
  destruct (sized_facts _ Hsi) as (S1 & S2 & S3 & S4 & S5).
  set (gm := mkGraph (vertices g) (adj gi) (lights gi) (names gi) (lat gi) (lon gi)).
  assert (Hsm : sized gm = true)
    by (apply sized_intro; unfold gm; cbn [adj lights names lat lon]; assumption).
  destruct (restored_fold g (range (vertices g)) gm Hsm
              ltac:(intros i Hi; apply in_range in Hi; lia))
    as (Rv & Ra & Rs & Rj).
  set (gj := fold_left (restored g) (range (vertices g)) gm) in *.
  destruct (sized_facts _ Rs) as (J1 & _).
  destruct (push_fold_count (edges_once g) gj J1) as (P1 & P2 & P3 & P4 & P5 & Pc).
  { intros u v w Hin. destruct (edges_once_in g u v w Hin) as (Hu & _ & Hin').
    specialize (Hto u _ Hu Hin'). cbn [to] in Hto. lia. }
  set (gf := fold_left _ (edges_once g) gj) in *.
  split; [rewrite P1, Rv; reflexivity |].
  intros i Hi. destruct (Rj i) as (_ & Rin).
  destruct (Rin (proj2 (in_range _ _) Hi) (proj1 (Hj i Hi))) as (N1 & N2 & N3 & N4).
  unfold name_of, light_of in *. rewrite P2, P3, P4, P5.
  split; [assumption |]. split; [assumption |]. split; [assumption |].
  split; [assumption |].
  intros [v w]. rewrite Pc. cbn [to weight].
  assert (Hnil : adj_of gj i = []).
  { unfold adj_of in Hempty |- *. rewrite Ra. unfold gm. cbn [adj].
    apply Hempty. lia. }
  rewrite Hnil, !count_edges_once. cbn [count_occ]. unfold in_bounds.
  destruct (in_dec Edge_eq_dec (mkEdge v w) (adj_of g i)) as [Hin | Hnin].
  - destruct (He i _ Hi Hin) as (_ & Hloop & _). specialize (Hto i _ Hi Hin).
    cbn [to] in Hloop, Hto.
    destruct (Z.leb_spec 0 i); [| lia]. destruct (Z.ltb_spec i (vertices g)); [| lia].
    destruct (Z.leb_spec 0 v); [| lia]. destruct (Z.ltb_spec v (vertices g)); [| lia].
    destruct (Z.ltb_spec i v), (Z.ltb_spec v i); cbn [andb]; try lia.
    rewrite (symmetric_count g v i w Hok Hto Hi). lia.
  - rewrite (count_occ_not_In Edge_eq_dec) in Hnin. rewrite Hnin.
    assert (Hback : (if (0 <=? v) && (v <? vertices g) && (v <? i)
                     then count_occ Edge_eq_dec (adj_of g v) (mkEdge i w)
                     else 0%nat) = 0%nat).
    { destruct (Z.leb_spec 0 v); cbn [andb]; [| reflexivity].
      destruct (Z.ltb_spec v (vertices g)); cbn [andb]; [| reflexivity].
      destruct (Z.ltb_spec v i); [| reflexivity].
      rewrite (symmetric_count g v i w Hok ltac:(lia) Hi). assumption. }
    rewrite Hback.
    destruct ((0 <=? i) && (i <? vertices g) && (i <? v)); reflexivity.
Qed.

(** ** Further facts about the signal, the store and the heap *)

Lemma wait_after_wait (light : TrafficLight) (a : Z) :
  0 <= a -> 1 <= green light ->
  getWaitingTime light (a + getWaitingTime light a) = 0.
Proof.
  intros Ha Hg.
  pose proof (getWaitingTime_bounds light a Ha) as Hb.
  rewrite (getWaitingTime_eq light (a + getWaitingTime light a)) by lia.
  rewrite (getWaitingTime_eq light a Ha) in *.
  destruct (Z.leb_spec (cycle_of light) 0) as [Hc | Hc]; [reflexivity |].
  destruct (Z.ltb_spec (a mod cycle_of light) (green light)) as [Ht | Ht].
  - rewrite Z.add_0_r. destruct (Z.ltb_spec (a mod cycle_of light) (green light));
      [reflexivity | lia].
  - assert (E : (a + (cycle_of light - a mod cycle_of light)) mod cycle_of light = 0).
    { rewrite (Z.div_mod a (cycle_of light)) at 1 by lia.
      replace (cycle_of light * (a / cycle_of light) + a mod cycle_of light +
               (cycle_of light - a mod cycle_of light))
        with ((a / cycle_of light + 1) * cycle_of light) by ring.
      apply Z.mod_mul. lia. }
    rewrite E. destruct (Z.ltb_spec 0 (green light)); [reflexivity | lia].
Qed.

Lemma initGraph_full (g0 : Graph) :
  sized g0 = true ->
  vertices (initGraph g0) = 0 /\ sized (initGraph g0) = true /\
  lights (initGraph g0) = lights g0 /\ names (initGraph g0) = names g0 /\
  forall i, 0 <= i < MAX ->
    adj_of (initGraph g0) i = [] /\
    aget 1%float (lat (initGraph g0)) i = 0%float /\
    aget 1%float (lon (initGraph g0)) i = 0%float.
Proof.
  intros Hs. destruct (sized_facts g0 Hs) as (H1 & H2 & H3 & H4 & H5).
  unfold initGraph.
  apply (for_upto_ind
           (fun k g' => vertices g' = 0 /\ sized g' = true /\
                        lights g' = lights g0 /\ names g' = names g0 /\
                        forall i, 0 <= i < k ->
                          adj_of g' i = [] /\
                          aget 1%float (lat g') i = 0%float /\
                          aget 1%float (lon g') i = 0%float)).
  - unfold MAX. lia.
  - split; [reflexivity |]. split; [apply sized_intro; assumption |].
    split; [reflexivity |]. split; [reflexivity |]. intros i Hi. lia.
  - intros i g' Hi (Hv & Hsz & Hl & Hn & Hadj).
    destruct (sized_facts g' Hsz) as (G1 & G2 & G3 & G4 & G5).
    split; [assumption |].
    split; [apply sized_intro; simpl; rewrite ?length_aset; assumption |].
    split; [assumption |]. split; [assumption |].
    intros j Hj. unfold adj_of. simpl. rewrite !aget_aset by lia.
    destruct (Z.eqb_spec j i); [auto |]. apply Hadj. lia.
Qed.

Lemma extractMin_some_size (n : Z) (h h' : MinHeap) (nd : HeapNode) :
  heap_inv n h -> extractMin h = Some (h', Some nd) -> 0 < size h.
Proof.
  intros ((Hsz & _) & _) He.
  destruct (Z.eq_dec (size h) 0) as [E | E]; [| lia].
  unfold extractMin, isEmpty in He. rewrite E in He. simpl in He. congruence.
Qed.

Lemma heap_run_count (n : Z) (h : MinHeap) (out : list Z) :
  0 <= n <= MAX -> heap_run n h out ->
  List.NoDup out /\ size h + Z.of_nat (length out) = n.
Proof.
  intros Hn Hrun. induction Hrun as [| h out v d h' Hrun IH Hv Hd Hdk | h out h' nd Hrun IH Hex].
  - split; [constructor |]. destruct (build_heap_spec n Hn) as (Hs & _). simpl. lia.
  - destruct IH as (Hnd & Hsz). split; [assumption |].
    destruct (heap_run_inv n h out Hn Hrun) as (Hinv & _).
    destruct (decreaseKey_correct n h v d Hinv Hv Hd) as (h2 & E & _ & (Hsize & _)).
    rewrite Hdk in E. injection E as <-. lia.
  - destruct IH as (Hnd & Hsz).
    destruct (heap_run_inv n h out Hn Hrun) as (Hinv & Hout).
    pose proof (extractMin_some_size n h h' nd Hinv Hex) as Hpos.
    destruct (extractMin_correct n h Hinv Hpos)
      as (h2 & E & _ & (Hsize & _) & Hv & Hp & _).
    rewrite Hex in E. injection E as <- ->.
    change (hv (node_at h 0)) with (v_at h 0). split.
    + constructor; [| assumption]. intros Hin.
      apply (Hout (v_at h 0) Hv) in Hin. lia.
    + cbn [length]. lia.
Qed.

(** * The claims of the specification *)

(** ** Signal model *)

(** C2: for non-negative durations and a non-negative arrival time,
    [getWaitingTime] returns 0 when the cycle [red + green + yellow] is not
    positive; otherwise, with [t = arrivalTime mod cycle], it returns 0 when
    [t < green] and [cycle - t] when [t >= green].  The cycle is the [int]
    the code computes at line 260, which is the sum whenever the sum fits. *)
Theorem getWaitingTime_spec (light : TrafficLight) (arrivalTime : Z) :
  0 <= red light -> 0 <= green light -> 0 <= yellow light -> 0 <= arrivalTime ->
  let cycle := cycle_of light in
  (red light + green light + yellow light <= CInt.INT_MAX ->
   cycle = red light + green light + yellow light) /\
  (cycle <= 0 -> getWaitingTime light arrivalTime = 0) /\
  (0 < cycle ->
   let t := arrivalTime mod cycle in
   (t < green light -> getWaitingTime light arrivalTime = 0) /\
   (green light <= t -> getWaitingTime light arrivalTime = cycle - t)).
Proof.
  intros Hr Hg Hy Ha. cbv zeta. split; [| split].
  - apply cycle_of_exact; assumption.
  - intros Hc. rewrite getWaitingTime_eq by assumption.
    destruct (Z.leb_spec (cycle_of light) 0); [reflexivity | lia].
  - intros Hc. rewrite getWaitingTime_eq by assumption.
    destruct (Z.leb_spec (cycle_of light) 0); [lia |].
    destruct (Z.ltb_spec (arrivalTime mod cycle_of light) (green light)); split;
      intros; try reflexivity; lia.
Qed.

Lemma getWaitingTime_spec_witness :
  let light := mkLight 10 5 0 in
  (red light + green light + yellow light <= CInt.INT_MAX ->
   cycle_of light = red light + green light + yellow light) /\
  (cycle_of light <= 0 -> getWaitingTime light 12 = 0) /\
  (0 < cycle_of light ->
   (12 mod cycle_of light < green light -> getWaitingTime light 12 = 0) /\
   (green light <= 12 mod cycle_of light ->
    getWaitingTime light 12 = cycle_of light - 12 mod cycle_of light)).
Proof.
  apply (getWaitingTime_spec (mkLight 10 5 0) 12); simpl; lia.
Defined.

(** C5, as amended: with non-negative durations, a cycle of at least 1 and
    a non-negative arrival time, the waiting time lies in the closed
    interval [[0, cycle]]; it is below [cycle] whenever [green >= 1] or the
    arrival time is not a multiple of the cycle. *)
Theorem getWaitingTime_range (light : TrafficLight) (arrivalTime : Z) :
  0 <= red light -> 0 <= green light -> 0 <= yellow light ->
  1 <= cycle_of light -> 0 <= arrivalTime ->
  0 <= getWaitingTime light arrivalTime <= cycle_of light /\
  (1 <= green light \/ arrivalTime mod cycle_of light <> 0 ->
   getWaitingTime light arrivalTime < cycle_of light).
Proof.
  intros Hr Hg Hy Hc Ha. rewrite getWaitingTime_eq by assumption.
  destruct (Z.leb_spec (cycle_of light) 0); [lia |].
  pose proof (Z.mod_pos_bound arrivalTime (cycle_of light) ltac:(lia)).
  destruct (Z.ltb_spec (arrivalTime mod cycle_of light) (green light)); lia.
Qed.

Lemma getWaitingTime_range_witness :
  0 <= getWaitingTime (mkLight 10 5 0) 12 <= cycle_of (mkLight 10 5 0) /\
  (1 <= green (mkLight 10 5 0) \/ 12 mod cycle_of (mkLight 10 5 0) <> 0 ->
   getWaitingTime (mkLight 10 5 0) 12 < cycle_of (mkLight 10 5 0)).
Proof.
  apply (getWaitingTime_range (mkLight 10 5 0) 12); vm_compute; congruence.
Defined.

(** C5 as the specification states it fails: a light that is never green
    makes a traveller who arrives at the start of a cycle wait the whole
    cycle, which is not below the cycle. *)
Lemma getWaitingTime_not_below_cycle :
  cycle_of (mkLight 10 0 0) = 10 /\
  getWaitingTime (mkLight 10 0 0) 0 = 10 /\
  ~ (0 <= getWaitingTime (mkLight 10 0 0) 0 < cycle_of (mkLight 10 0 0)).
Proof.
  split; [reflexivity |]. split; [reflexivity |].
  change (~ (0 <= 10 < 10)). lia.
Qed.

(** C9: with non-negative durations, a positive cycle and a non-negative
    arrival time, the waiting time is at most the cycle, and it is the
    whole cycle exactly when [green = 0] and the arrival time is a multiple
    of the cycle. *)
Theorem getWaitingTime_le_cycle (light : TrafficLight) (arrivalTime : Z) :
  0 <= red light -> 0 <= green light -> 0 <= yellow light ->
  0 < cycle_of light -> 0 <= arrivalTime ->
  getWaitingTime light arrivalTime <= cycle_of light /\
  (getWaitingTime light arrivalTime = cycle_of light <->
   green light = 0 /\ arrivalTime mod cycle_of light = 0).
Proof.
  intros Hr Hg Hy Hc Ha. rewrite getWaitingTime_eq by assumption.
  destruct (Z.leb_spec (cycle_of light) 0); [lia |].
  pose proof (Z.mod_pos_bound arrivalTime (cycle_of light) ltac:(lia)).
  destruct (Z.ltb_spec (arrivalTime mod cycle_of light) (green light)); lia.
Qed.

Lemma getWaitingTime_le_cycle_witness :
  getWaitingTime (mkLight 10 0 0) 20 <= cycle_of (mkLight 10 0 0) /\
  (getWaitingTime (mkLight 10 0 0) 20 = cycle_of (mkLight 10 0 0) <->
   green (mkLight 10 0 0) = 0 /\ 20 mod cycle_of (mkLight 10 0 0) = 0).
Proof.
  apply (getWaitingTime_le_cycle (mkLight 10 0 0) 20); vm_compute; congruence.
Defined.

(** ** Graph store *)

Lemma addEdge_in_range (g : Graph) (u v w : Z) :
  Z.of_nat (length (adj g)) = MAX -> vertices g <= MAX ->
  0 <= u < vertices g -> 0 <= v < vertices g ->
  exists g',
    addEdge g u v w = (g', []) /\
    vertices g' = vertices g /\ lights g' = lights g /\ names g' = names g /\
    lat g' = lat g /\ lon g' = lon g /\
    forall i,
      adj_of g' i =
        (if i =? v then [mkEdge u w] else []) ++
        (if i =? u then [mkEdge v w] else []) ++ adj_of g i.
Proof.
  intros Hlen Hmax Hu Hv. unfold addEdge.
  destruct (Z.ltb_spec u 0); [lia |].
  destruct (Z.geb_spec u (vertices g)); [lia |].
  destruct (Z.ltb_spec v 0); [lia |].
  destruct (Z.geb_spec v (vertices g)); [lia |].
  cbv zeta. simpl orb. cbv iota. eexists. split; [reflexivity |].
  repeat (split; [reflexivity |]).
  intros i. unfold adj_of, set_adj, newEdge. simpl adj.
  rewrite aget_aset by (rewrite length_aset; lia).
  rewrite !aget_aset by lia.
  destruct (Z.eqb_spec i v) as [Eiv | Hiv]; destruct (Z.eqb_spec i u) as [Eiu | Hiu];
    try reflexivity.
  - rewrite <- Eiv, Eiu, Z.eqb_refl. reflexivity.
  - rewrite <- Eiv. destruct (Z.eqb_spec i u); [contradiction | reflexivity].
  - rewrite Eiu. reflexivity.
Qed.

(** C7: for in-range junction ids [u], [v] and a weight [w], [addEdge]
    inserts exactly two adjacency entries, [u -> v] and [v -> u], both of
    weight [w], and nothing else changes; with an endpoint out of range it
    prints the error and leaves the graph as it was. *)
Theorem addEdge_symmetric (g : Graph) (u v w : Z) :
  Z.of_nat (length (adj g)) = MAX -> vertices g <= MAX ->
  (0 <= u < vertices g /\ 0 <= v < vertices g ->
   exists g',
     addEdge g u v w = (g', []) /\
     vertices g' = vertices g /\ lights g' = lights g /\ names g' = names g /\
     lat g' = lat g /\ lon g' = lon g /\
     forall i,
       adj_of g' i =
         (if i =? v then [mkEdge u w] else []) ++
         (if i =? u then [mkEdge v w] else []) ++ adj_of g i) /\
  (~ (0 <= u < vertices g /\ 0 <= v < vertices g) ->
   addEdge g u v w = (g, [EvInvalidEdge u v])).
Proof.
  intros Hlen Hmax. split.
  - intros (Hu & Hv). apply addEdge_in_range; assumption.
  - intros Hout. unfold addEdge.
    destruct (Z.ltb_spec u 0); [reflexivity |].
    destruct (Z.geb_spec u (vertices g)); [reflexivity |].
    destruct (Z.ltb_spec v 0); [reflexivity |].
    destruct (Z.geb_spec v (vertices g)); [reflexivity |].
    lia.
Qed.

Lemma addEdge_symmetric_witness :
  (0 <= 0 < vertices demo_junctions /\ 0 <= 1 < vertices demo_junctions ->
   exists g',
     addEdge demo_junctions 0 1 4 = (g', []) /\
     vertices g' = vertices demo_junctions /\ lights g' = lights demo_junctions /\
     names g' = names demo_junctions /\
     lat g' = lat demo_junctions /\ lon g' = lon demo_junctions /\
     forall i,
       adj_of g' i =
         (if i =? 1 then [mkEdge 0 4] else []) ++
         (if i =? 0 then [mkEdge 1 4] else []) ++ adj_of demo_junctions i) /\
  (~ (0 <= 0 < vertices demo_junctions /\ 0 <= 1 < vertices demo_junctions) ->
   addEdge demo_junctions 0 1 4 = (demo_junctions, [EvInvalidEdge 0 1])).
Proof.
  apply (addEdge_symmetric demo_junctions 0 1 4); [reflexivity | vm_compute; congruence].
Defined.

(** C10: [addEdge] accepts a self-loop: for an in-range junction [u],
    [addEdge(g, u, u, w)] succeeds and puts two entries [u -> u] of weight
    [w] at the head of the adjacency list of [u]. *)
Theorem addEdge_self_loop (g : Graph) (u w : Z) :
  Z.of_nat (length (adj g)) = MAX -> vertices g <= MAX ->
  0 <= u < vertices g ->
  exists g',
    addEdge g u u w = (g', []) /\
    adj_of g' u = mkEdge u w :: mkEdge u w :: adj_of g u /\
    forall i, i <> u -> adj_of g' i = adj_of g i.
Proof.
  intros Hlen Hmax Hu.
  destruct (addEdge_in_range g u u w Hlen Hmax Hu Hu) as (g' & Hr & _ & _ & _ & _ & _ & Hadj).
  exists g'. split; [assumption |]. split.
  - rewrite Hadj, Z.eqb_refl. reflexivity.
  - intros i Hi. rewrite Hadj. destruct (Z.eqb_spec i u); [contradiction | reflexivity].
Qed.

Lemma addEdge_self_loop_witness :
  exists g',
    addEdge demo_junctions 2 2 7 = (g', []) /\
    adj_of g' 2 = mkEdge 2 7 :: mkEdge 2 7 :: adj_of demo_junctions 2 /\
    forall i, i <> 2 -> adj_of g' i = adj_of demo_junctions i.
Proof.
  apply (addEdge_self_loop demo_junctions 2 7); [reflexivity | vm_compute; congruence |].
  vm_compute. split; [congruence | reflexivity].
Defined.

(** ** Indexed min-heap *)

(** C3: take the heap built with one entry per junction and apply any
    sequence of [extractMin] and [decreaseKey] calls (each [decreaseKey]
    with a key not above the junction's current one, which is the contract
    of the operation).  Then [pos[v]] is [-1] exactly for the junctions
    extracted so far and otherwise names the slot that holds [v]; both
    operations return; and [extractMin] removes and returns an entry whose
    key is least among the entries present. *)
Theorem heap_run_consistent (n : Z) (h : MinHeap) (out : list Z) :
  0 <= n <= MAX -> heap_run n h out ->
  (forall v, 0 <= v < n ->
     (pos_of h v = -1 <-> In v out) /\
     (pos_of h v <> -1 -> 0 <= pos_of h v < size h /\ v_at h (pos_of h v) = v)) /\
  (forall i, 0 <= i < size h -> 0 <= v_at h i < n /\ pos_of h (v_at h i) = i) /\
  (forall v d, 0 <= v < n -> (pos_of h v <> -1 -> d <= key_of h v) ->
     exists h', decreaseKey h v d = Some h') /\
  (size h = 0 -> extractMin h = Some (h, None)) /\
  (0 < size h ->
     exists h' nd,
       extractMin h = Some (h', Some nd) /\
       0 <= hv nd < n /\ pos_of h (hv nd) <> -1 /\ hdist nd = key_of h (hv nd) /\
       (forall w, 0 <= w < n -> pos_of h w <> -1 -> hdist nd <= key_of h w) /\
       extracted n h (hv nd) h').
Proof.
  intros Hn Hrun. destruct (heap_run_inv n h out Hn Hrun) as (Hinv & Hout).
  pose proof Hinv as (Hs & Ho).
  split; [| split; [| split; [| split]]].
  - intros v Hv. split; [apply Hout; assumption |].
    apply (shape_present n h v Hs Hv).
  - intros i Hi. destruct (shape_slot n h i Hs Hi) as (nd & _ & _ & Hv & Hp). auto.
  - intros v d Hv Hd.
    destruct (decreaseKey_correct n h v d Hinv Hv Hd) as (h' & Hr & _). eauto.
  - intros Hz. unfold extractMin, isEmpty. rewrite Hz. reflexivity.
  - intros Hpos.
    destruct (extractMin_correct n h Hinv Hpos) as (h' & Hr & _ & Hex & Hv & Hp & Hmin).
    exists h', (node_at h 0). split; [assumption |].
    change (hv (node_at h 0)) with (v_at h 0).
    split; [assumption |]. split; [lia |].
    split; [unfold key_of; rewrite Hp; reflexivity |].
    split; [| assumption].
    intros w Hw Hpw. unfold key_of. apply Hmin.
    apply (shape_present n h w Hs Hw Hpw).
Qed.

Lemma demo_heap_run : heap_run 3 demo_heap [].
Proof.
  apply (run_decreaseKey 3 (build_heap 3) [] 1 5 demo_heap).
  - apply run_build.
  - lia.
  - intros _. vm_compute. congruence.
  - vm_compute. reflexivity.
Defined.

Lemma heap_run_consistent_witness :
  (forall v, 0 <= v < 3 ->
     (pos_of demo_heap v = -1 <-> In v []) /\
     (pos_of demo_heap v <> -1 ->
      0 <= pos_of demo_heap v < size demo_heap /\ v_at demo_heap (pos_of demo_heap v) = v)) /\
  (forall i, 0 <= i < size demo_heap ->
     0 <= v_at demo_heap i < 3 /\ pos_of demo_heap (v_at demo_heap i) = i) /\
  (forall v d, 0 <= v < 3 -> (pos_of demo_heap v <> -1 -> d <= key_of demo_heap v) ->
     exists h', decreaseKey demo_heap v d = Some h') /\
  (size demo_heap = 0 -> extractMin demo_heap = Some (demo_heap, None)) /\
  (0 < size demo_heap ->
     exists h' nd,
       extractMin demo_heap = Some (h', Some nd) /\
       0 <= hv nd < 3 /\ pos_of demo_heap (hv nd) <> -1 /\
       hdist nd = key_of demo_heap (hv nd) /\
       (forall w, 0 <= w < 3 -> pos_of demo_heap w <> -1 -> hdist nd <= key_of demo_heap w) /\
       extracted 3 demo_heap (hv nd) h').
Proof.
  apply (heap_run_consistent 3 demo_heap []); [vm_compute; split; congruence |].
  exact demo_heap_run.
Defined.

(** ** Search *)

(** C6: when no sequence of edges connects an in-range source to an
    in-range destination, the search ends with the destination's distance
    still [INF], and [dijkstra] prints "no path" and exports the map with
    an empty highlighted path. *)
Theorem dijkstra_unreachable (g : Graph) (src dest : Z) :
  wf_graph g = true ->
  0 <= src < vertices g -> 0 <= dest < vertices g ->
  (forall p, ~ connects g src dest p) ->
  (exists st, dijkstra_search g src dest = Some st /\ dist_of st dest = INF) /\
  dijkstra g src dest =
    Some [EvNoPath (name_of g src) (name_of g dest);
          EvExport (exportLeafletMap g [0] 0)] /\
  doc_sp (exportLeafletMap g [0] 0) = [].
Proof.
  intros Hwf Hsrc Hdest Hnone.
  destruct (dijkstra_search_reach g src dest Hwf Hsrc) as (st & Hr & Hreach).
  assert (Hinf : dist_of st dest = INF).
  { destruct (Z.eq_dec (dist_of st dest) INF) as [E | Hne]; [assumption |].
    destruct (Hreach dest Hdest Hne) as (p & Hp). destruct (Hnone p Hp). }
  split; [exists st; auto |]. split; [| reflexivity].
  rewrite dijkstra_in_range by assumption. rewrite Hr.
  apply dijkstra_report_no_path. assumption.
Qed.

Lemma demo_junctions_unconnected : forall p, ~ connects demo_junctions 0 2 p.
Proof.
  intros [| e p] (Hp & Hend).
  - discriminate Hend.
  - destruct Hp as (He & _). exact He.
Defined.

Lemma dijkstra_unreachable_witness :
  (exists st, dijkstra_search demo_junctions 0 2 = Some st /\ dist_of st 2 = INF) /\
  dijkstra demo_junctions 0 2 =
    Some [EvNoPath (name_of demo_junctions 0) (name_of demo_junctions 2);
          EvExport (exportLeafletMap demo_junctions [0] 0)] /\
  doc_sp (exportLeafletMap demo_junctions [0] 0) = [].
Proof.
  apply (dijkstra_unreachable demo_junctions 0 2);
    [reflexivity | vm_compute; split; congruence | vm_compute; split; congruence |].
  exact demo_junctions_unconnected.
Defined.

(** C8, as amended: [INF] is the finite number 999999.  For an in-range
    destination other than the source, if every candidate distance that
    the relaxations compute for it is at least 999999, [dijkstra] prints
    "no path" and exports the map without a path, as it does for a
    destination that is not connected. *)
Theorem inf_sentinel_no_path (g : Graph) (src dest : Z) (st : DState) :
  wf_graph g = true ->
  0 <= src < vertices g -> 0 <= dest < vertices g ->
  src <> dest ->
  dijkstra_search g src dest = Some st ->
  (forall c, In (dest, c) (st_cands st) -> INF <= c) ->
  dist_of st dest = INF /\
  dijkstra g src dest =
    Some [EvNoPath (name_of g src) (name_of g dest);
          EvExport (exportLeafletMap g [0] 0)].
Proof.
  intros Hwf Hsrc Hdest Hne Hsearch Hcands.
  destruct (dijkstra_search_cands g src dest Hwf Hsrc Hdest Hne) as (st' & Hr & Hc).
  rewrite Hsearch in Hr. injection Hr as <-.
  assert (Hinf : dist_of st dest = INF).
  { destruct Hc as [E | (Hlt & Hin)]; [assumption |].
    specialize (Hcands _ Hin). lia. }
  split; [assumption |].
  rewrite dijkstra_in_range by assumption. rewrite Hsearch.
  apply dijkstra_report_no_path. assumption.
Qed.

(** The witness is a destination that a road does connect: the candidate
    computed for it is 1000000. *)
Lemma inf_sentinel_no_path_witness :
  connects far_graph 0 1 [mkEdge 1 1000000] /\
  dijkstra far_graph 0 1 =
    Some [EvNoPath (name_of far_graph 0) (name_of far_graph 1);
          EvExport (exportLeafletMap far_graph [0] 0)].
Proof.
  split.
  - split; [split; [left; reflexivity | exact I] | reflexivity].
  - eapply (inf_sentinel_no_path far_graph 0 1).
    + reflexivity.
    + vm_compute. split; congruence.
    + vm_compute. split; congruence.
    + lia.
    + vm_compute. reflexivity.
    + intros c [E | []]. injection E as <-. vm_compute. congruence.
Defined.

(** C8 as stated fails when the destination is the source: no candidate
    is ever computed for it, yet the distance 0 is reported. *)
Lemma source_is_its_own_destination :
  exists st evs,
    dijkstra_search demo_junctions 0 0 = Some st /\
    (forall c, In (0, c) (st_cands st) -> INF <= c) /\
    dijkstra demo_junctions 0 0 = Some evs /\
    reported_distance evs = Some 0 /\
    evs <> [EvNoPath (name_of demo_junctions 0) (name_of demo_junctions 0);
            EvExport (exportLeafletMap demo_junctions [0] 0)].
Proof.
  eexists. eexists.
  split; [vm_compute; reflexivity |].
  split; [intros c [] |].
  split; [vm_compute; reflexivity |].
  split; [reflexivity | discriminate].
Qed.

(** C1, as amended: take a graph whose edge weights are non-negative (and
    small enough for line 482 to stay within [int]) and an in-range source
    and destination.  If the least cost of a simple path from the source to
    the destination (base weights plus the waits accumulated along that
    path) is below 999999, [dijkstra] reports exactly that least cost; if
    no simple path costs less than 999999, it reports "no path". *)
Theorem dijkstra_least_cost (g : Graph) (src dest : Z) :
  wf_graph g = true -> costs_ok g = true ->
  0 <= src < vertices g -> 0 <= dest < vertices g ->
  exists evs,
    dijkstra g src dest = Some evs /\
    match reported_distance evs with
    | Some d => d < INF /\ min_cost g src dest d
    | None =>
      evs = [EvNoPath (name_of g src) (name_of g dest);
             EvExport (exportLeafletMap g [0] 0)] /\
      forall p, simple_path g src dest p -> INF <= path_cost g p
    end.
Proof.
  intros Hwf Hok Hsrc Hdest.
  destruct (dijkstra_search_opt g src dest Hwf Hok Hsrc Hdest) as (st & Hr & _ & Hres).
  destruct (dijkstra_search_tree g src dest Hwf Hsrc) as (st' & Hr' & Hchain).
  rewrite Hr in Hr'. injection Hr' as <-.
  rewrite dijkstra_in_range by assumption. rewrite Hr.
  destruct (search_result_min_cost g src dest st Hwf Hok Hsrc Hres)
    as [(Hlt & Hmin) | (Hinf & Hlow)].
  - destruct (dijkstra_report_distance g src dest st Hdest ltac:(lia) (Hchain dest Hdest))
      as (evs & He & Hd).
    exists evs. split; [assumption |]. rewrite Hd. auto.
  - eexists. split; [apply dijkstra_report_no_path; assumption |].
    simpl. auto.
Qed.

Lemma dijkstra_least_cost_witness :
  exists evs,
    dijkstra demo_graph 0 2 = Some evs /\
    match reported_distance evs with
    | Some d => d < INF /\ min_cost demo_graph 0 2 d
    | None =>
      evs = [EvNoPath (name_of demo_graph 0) (name_of demo_graph 2);
             EvExport (exportLeafletMap demo_graph [0] 0)] /\
      forall p, simple_path demo_graph 0 2 p -> INF <= path_cost demo_graph p
    end.
Proof.
  apply (dijkstra_least_cost demo_graph 0 2);
    [reflexivity | reflexivity | vm_compute; split; congruence
     | vm_compute; split; congruence].
Defined.

(** C1 as stated fails where the least cost reaches the sentinel: the only
    simple path from A to B in [far_graph] costs 1000000, and [dijkstra]
    leaves the distance at 999999 and reports "no path". *)
Lemma dijkstra_misses_far_destination :
  min_cost far_graph 0 1 1000000 /\
  exists st,
    dijkstra_search far_graph 0 1 = Some st /\
    dist_of st 1 = 999999 /\
    dijkstra far_graph 0 1 =
      Some [EvNoPath (name_of far_graph 0) (name_of far_graph 1);
            EvExport (exportLeafletMap far_graph [0] 0)].
Proof.
  split.
  - split.
    + exists [mkEdge 1 1000000]. split; [| reflexivity].
      split; [split; [split; [left; reflexivity | exact I] | reflexivity] |].
      simpl. apply NoDup_cons. split; [| apply NoDup_singleton].
      intros H. apply list_elem_of_In in H. destruct H as [H | []]. discriminate H.
    + intros p ((Hp & Hend) & Hnd).
      destruct p as [| e p]; [discriminate Hend |].
      destruct Hp as (He & Hp).
      assert (Ee : e = mkEdge 1 1000000) by (destruct He as [E | []]; auto).
      subst e. destruct p as [| e' p].
      * vm_compute. congruence.
      * exfalso. destruct Hp as (He' & _).
        assert (Ee' : e' = mkEdge 0 1000000) by (destruct He' as [E | []]; auto).
        subst e'. simpl in Hnd. apply NoDup_cons in Hnd. destruct Hnd as (Hnotin & _).
        apply Hnotin. apply list_elem_of_In. right. left. reflexivity.
  - eexists. split; [vm_compute; reflexivity |].
    split; [reflexivity | vm_compute; reflexivity].
Qed.

(** C4 (amended): when a graph whose junctions have non-empty names
    without white space of at most 19 characters, whose phases and
    weights are [int] values, whose adjacency lists hold every road in
    both directions and no road from a junction to itself, and whose
    coordinates are finite doubles that six decimals determine, is saved
    with [saveGraphToFile] and the file is loaded with
    [loadGraphFromFile], the loaded graph has the same junction count,
    the same name, phases and coordinates at every junction, and at every
    junction the same adjacency entries up to their order; so the roads
    listed once are the same up to order as well. *)
Theorem snapshot_roundtrip (g g0 : Graph) (filename : string) :
  snapshot_ok g = true -> coords_ok g -> sized g0 = true ->
  let file := fst (fst (saveGraphToFile g filename)) in
  let g' := fst (loadGraphFromFile g0 filename (Some file)) in
  vertices g' = vertices g /\
  (forall i, 0 <= i < vertices g ->
     same_junction g' g i /\ Permutation (adj_of g' i) (adj_of g i)) /\
  Permutation (edges_once g') (edges_once g).
Proof.
  intros Hok Hco Hs0. cbv zeta. cbn [saveGraphToFile fst].
  destruct (load_snapshot_spec g g0 filename Hok
              ltac:(intros i Hi; destruct (Hco i Hi) as ((H1 & _) & (H2 & _)); auto) Hs0)
    as (Hv & Hj).
  cbv zeta in Hv, Hj.
  set (g' := fst (loadGraphFromFile g0 filename (Some (snapshot g)))) in *.
  split; [assumption |]. split.
  - intros i Hi. destruct (Hj i Hi) as (N1 & N2 & N3 & N4 & Hc).
    destruct (Hco i Hi) as ((_ & C1) & (_ & C2)).
    split.
    + unfold same_junction. rewrite N3, N4, C1, C2. auto.
    + apply (Permutation_count_occ Edge_eq_dec). assumption.
  - apply (Permutation_count_occ triple_eq_dec). intros [[a b] w].
    rewrite !count_edges_once, Hv. unfold in_bounds.
    destruct (Z.leb_spec 0 a); [| reflexivity].
    destruct (Z.ltb_spec a (vertices g)); [| reflexivity].
    destruct (a <? b); [| reflexivity]. cbn [andb].
    destruct (Hj a ltac:(lia)) as (_ & _ & _ & _ & Hc). apply Hc.
Qed.

Lemma city_graph_coords : coords_ok city_graph.
Proof.
  intros i Hi. change (vertices city_graph) with 3 in Hi.
  assert (E : i = 0 \/ i = 1 \/ i = 2) by lia.
  destruct E as [-> | [-> | ->]]; split; split; vm_compute; reflexivity.
Defined.

Lemma snapshot_roundtrip_witness :
  let file := fst (fst (saveGraphToFile city_graph "city.txt")) in
  let g' := fst (loadGraphFromFile demo_junctions "city.txt" (Some file)) in
  vertices g' = vertices city_graph /\
  (forall i, 0 <= i < vertices city_graph ->
     same_junction g' city_graph i /\ Permutation (adj_of g' i) (adj_of city_graph i)) /\
  Permutation (edges_once g') (edges_once city_graph).
Proof.
  apply (snapshot_roundtrip city_graph demo_junctions "city.txt");
    [vm_compute; reflexivity | exact city_graph_coords | vm_compute; reflexivity].
Defined.

(** C4 as stated fails for a road from a junction to itself, which
    [addEdge] accepts: line 151 writes an entry only when [u < p->to], so
    the file of [loop_graph] lists no road and the loaded graph has none,
    although the names are single words of one character. *)
Lemma snapshot_drops_self_loop :
  let file := fst (fst (saveGraphToFile loop_graph "city.txt")) in
  let g' := fst (loadGraphFromFile demo_junctions "city.txt" (Some file)) in
  forallb (fun i => name_ok (name_of loop_graph i)) (range (vertices loop_graph)) = true /\
  adj_of loop_graph 2 = [mkEdge 2 7; mkEdge 2 7] /\
  vertices g' = 3 /\ adj g' = replicate 50 [] /\
  ~ Permutation (adj_of g' 2) (adj_of loop_graph 2).
Proof.
  cbv zeta. split; [vm_compute; reflexivity |]. split; [vm_compute; reflexivity |].
  split; [vm_compute; reflexivity |]. split; [vm_compute; reflexivity |].
  intros H. apply Permutation_length in H. vm_compute in H. discriminate.
Qed.

(** The coordinates keep six decimals only: a latitude of 0.1234567 is
    written as [0.123457] and read back as another double. *)
Lemma snapshot_rounds_coordinates :
  let x := 0x1.f9adbb8f8da72p-4%float in
  is_number x = true /\
  Stdio.print_f6 x = lit "0.123457" /\
  reread x = 0x1.f9ae0c1765775p-4%float /\
  PrimFloat.eqb (reread x) x = false.
Proof. vm_compute. repeat split. Qed.

(** * Further properties of the program *)

(** ** The signal (lines 259-265) *)

(** X1: a traveller who arrives later never leaves earlier: for arrival
    times [0 <= a <= b] at the same light, [a] plus its wait is at most
    [b] plus its wait. *)
Theorem signal_fifo (light : TrafficLight) (a b : Z) :
  0 <= a -> a <= b ->
  a + getWaitingTime light a <= b + getWaitingTime light b.
Proof. intros Ha Hab. apply (depart_mono light a b Ha Hab). Qed.

Lemma signal_fifo_witness :
  26 + getWaitingTime (mkLight 30 25 5) 26 <= 40 + getWaitingTime (mkLight 30 25 5) 40.
Proof. apply (signal_fifo (mkLight 30 25 5) 26 40); lia. Defined.

(** X2: when the green phase lasts at least one time unit, the time at
    which the wait ends falls in a green phase: asking again at
    [a + getWaitingTime light a] gives a wait of 0. *)
Theorem signal_green_after_wait (light : TrafficLight) (a : Z) :
  0 <= a -> 1 <= green light ->
  getWaitingTime light (a + getWaitingTime light a) = 0.
Proof. intros Ha Hg. apply wait_after_wait; assumption. Qed.

Lemma signal_green_after_wait_witness :
  getWaitingTime (mkLight 30 25 5) (26 + getWaitingTime (mkLight 30 25 5) 26) = 0.
Proof. apply (signal_green_after_wait (mkLight 30 25 5) 26); simpl; lia. Defined.

(** ** The graph store (lines 78-105) *)

(** X3: [initGraph] sets the junction count to 0, empties all [MAX]
    adjacency lists and zeroes all [MAX] coordinates; the names and the
    signal phases stay as they were.  (The coordinates are read with a
    default other than 0, so the zeros found are those written.) *)
Theorem initGraph_resets (g : Graph) :
  sized g = true ->
  vertices (initGraph g) = 0 /\
  lights (initGraph g) = lights g /\ names (initGraph g) = names g /\
  sized (initGraph g) = true /\
  forall i, 0 <= i < MAX ->
    adj_of (initGraph g) i = [] /\
    aget 1%float (lat (initGraph g)) i = 0%float /\
    aget 1%float (lon (initGraph g)) i = 0%float.
Proof.
  intros Hs. destruct (initGraph_full g Hs) as (H1 & H2 & H3 & H4 & H5). auto.
Qed.

Lemma initGraph_resets_witness :
  vertices (initGraph city_graph) = 0 /\
  lights (initGraph city_graph) = lights city_graph /\
  names (initGraph city_graph) = names city_graph /\
  sized (initGraph city_graph) = true /\
  forall i, 0 <= i < MAX ->
    adj_of (initGraph city_graph) i = [] /\
    aget 1%float (lat (initGraph city_graph)) i = 0%float /\
    aget 1%float (lon (initGraph city_graph)) i = 0%float.
Proof. apply (initGraph_resets city_graph). vm_compute. reflexivity. Defined.

(** ** The heap (lines 268-323) *)

(** X4: on a heap that satisfies the heap invariant, [decreaseKey] for a
    junction that is absent changes nothing; for a junction that is
    present, with a key not above its current one, the junction gets that
    key, every other junction keeps its key, the same junctions are
    present, and the result is a heap again. *)
Theorem decreaseKey_effect (n : Z) (h : MinHeap) (v d : Z) :
  heap_inv n h -> 0 <= v < n ->
  (pos_of h v = -1 -> decreaseKey h v d = Some h) /\
  (pos_of h v <> -1 -> d <= key_of h v ->
   exists h',
     decreaseKey h v d = Some h' /\ heap_inv n h' /\ size h' = size h /\
     key_of h' v = d /\
     forall w, 0 <= w < n ->
       (pos_of h' w = -1 <-> pos_of h w = -1) /\
       (w <> v -> pos_of h w <> -1 -> key_of h' w = key_of h w)).
Proof.
  intros Hinv Hv. split.
  - intros Hp. unfold decreaseKey. rewrite Hp. reflexivity.
  - intros Hp Hd.
    destruct (decreaseKey_correct n h v d Hinv Hv ltac:(intros _; exact Hd))
      as (h' & E & Hinv' & Hsz & Hdec).
    exists h'. split; [assumption |]. split; [assumption |]. split; [assumption |].
    split.
    + destruct (Hdec v Hv) as (_ & Hk). rewrite (Hk Hp), Z.eqb_refl. reflexivity.
    + intros w Hw. destruct (Hdec w Hw) as (Hpres & Hk). split; [assumption |].
      intros Hwv Hpw. rewrite (Hk Hpw).
      destruct (Z.eqb_spec w v); [contradiction | reflexivity].
Qed.

Lemma decreaseKey_effect_witness :
  (pos_of (build_heap 3) 1 = -1 -> decreaseKey (build_heap 3) 1 5 = Some (build_heap 3)) /\
  (pos_of (build_heap 3) 1 <> -1 -> 5 <= key_of (build_heap 3) 1 ->
   exists h',
     decreaseKey (build_heap 3) 1 5 = Some h' /\ heap_inv 3 h' /\
     size h' = size (build_heap 3) /\ key_of h' 1 = 5 /\
     forall w, 0 <= w < 3 ->
       (pos_of h' w = -1 <-> pos_of (build_heap 3) w = -1) /\
       (w <> 1 -> pos_of (build_heap 3) w <> -1 ->
        key_of h' w = key_of (build_heap 3) w)).
Proof.
  apply (decreaseKey_effect 3 (build_heap 3) 1 5);
    [apply build_heap_inv; unfold MAX; lia | lia].
Defined.

(** X5: two calls of [extractMin] in a row return their entries in key
    order: the second key is not below the first, and the two junctions
    differ. *)
Theorem extractMin_twice_ordered (n : Z) (h h1 h2 : MinHeap) (n1 n2 : HeapNode) :
  heap_inv n h ->
  extractMin h = Some (h1, Some n1) ->
  extractMin h1 = Some (h2, Some n2) ->
  hdist n1 <= hdist n2 /\ hv n1 <> hv n2.
Proof.
  intros Hinv E1 E2.
  pose proof (extractMin_some_size n h h1 n1 Hinv E1) as Hpos.
  destruct (extractMin_correct n h Hinv Hpos)
    as (h1' & F1 & Hinv1 & (Hsz & Hgone & Hkeep) & Hv & Hp & Hmin).
  rewrite E1 in F1. injection F1 as <- ->.
  pose proof (extractMin_some_size n h1 h2 n2 Hinv1 E2) as Hpos1.
  destruct (extractMin_correct n h1 Hinv1 Hpos1)
    as (h2' & F2 & _ & _ & Hv1 & Hp1 & _).
  rewrite E2 in F2. injection F2 as <- ->.
  change (hv (node_at h 0)) with (v_at h 0).
  change (hv (node_at h1 0)) with (v_at h1 0).
  change (hdist (node_at h 0)) with (dist_at h 0).
  change (hdist (node_at h1 0)) with (dist_at h1 0).
  assert (Hne : v_at h 0 <> v_at h1 0).
  { intros E. rewrite <- E in Hp1. lia. }
  split; [| assumption].
  destruct (Hkeep (v_at h1 0) Hv1 ltac:(congruence)) as (Hpres & Hkey).
  assert (Hin : pos_of h (v_at h1 0) <> -1).
  { intros E. apply Hpres in E. lia. }
  specialize (Hkey Hin). unfold key_of in Hkey. rewrite Hp1 in Hkey. rewrite Hkey.
  apply Hmin. destruct Hinv as (Hs & _). apply (shape_present n h _ Hs Hv1 Hin).
Qed.

Lemma demo_heap_inv : heap_inv 3 demo_heap.
Proof. apply (heap_run_inv 3 demo_heap [] ltac:(unfold MAX; lia) demo_heap_run). Defined.

Lemma extractMin_twice_ordered_witness :
  hdist (mkNode 1 5) <= hdist (mkNode 2 INF) /\ hv (mkNode 1 5) <> hv (mkNode 2 INF).
Proof.
  eapply (extractMin_twice_ordered 3 demo_heap _ _ (mkNode 1 5) (mkNode 2 INF) demo_heap_inv);
    reflexivity.
Defined.

(** X6: every heap reached from the initial one by [decreaseKey] and
    [extractMin] calls is ordered (no entry has a key below its parent's),
    no junction has been extracted twice, and the number of entries is the
    number of junctions less the number of extractions. *)
Theorem heap_run_ordered (n : Z) (h : MinHeap) (out : list Z) :
  0 <= n <= MAX -> heap_run n h out ->
  heap_order h /\ List.NoDup out /\ size h + Z.of_nat (length out) = n.
Proof.
  intros Hn Hrun.
  destruct (heap_run_inv n h out Hn Hrun) as ((_ & Hord) & _).
  destruct (heap_run_count n h out Hn Hrun) as (Hnd & Hsz). auto.
Qed.

Lemma heap_run_ordered_witness :
  heap_order demo_heap /\ List.NoDup (@nil Z) /\
  size demo_heap + Z.of_nat (length (@nil Z)) = 3.
Proof.
  apply (heap_run_ordered 3 demo_heap []); [unfold MAX; lia | exact demo_heap_run].
Defined.

(** ** The search (lines 434-526) *)

(** X7: the initialisation of [dijkstra] (lines 441-463) leaves the
    distance 0 at the source and [INF] elsewhere, every parent at [-1],
    and a heap that holds every junction with its distance as key and the
    source at the root, so that the source is the first junction
    extracted. *)
Theorem dijkstra_init_state (g : Graph) (src : Z) :
  wf_graph g = true -> 0 <= src < vertices g ->
  exists st,
    dijkstra_init g src = Some st /\
    dist_of st src = 0 /\
    (forall v, 0 <= v < vertices g -> v <> src -> dist_of st v = INF) /\
    (forall v, 0 <= v < vertices g -> aget 0 (st_parent st) v = -1) /\
    size (st_heap st) = vertices g /\
    heap_inv (vertices g) (st_heap st) /\
    (forall v, 0 <= v < vertices g ->
       pos_of (st_heap st) v <> -1 /\ key_of (st_heap st) v = dist_of st v) /\
    v_at (st_heap st) 0 = src.
Proof.
  intros Hwf Hsrc.
  destruct (dijkstra_init_spec g src Hwf Hsrc)
    as (st & Hst & Hinv & Hsz & Hopen & Hd0 & Hinf & _ & Hpar).
  destruct Hinv as (Hheap & _ & _ & Hkey & _).
  exists st. repeat (split; [assumption |]).
  split; [intros v Hv; split; [apply (Hopen v Hv) | apply (Hkey v Hv (Hopen v Hv))] |].
  destruct Hheap as (Hs & Hord).
  destruct (shape_slot (vertices g) (st_heap st) 0 Hs ltac:(lia))
    as (nd & _ & _ & Hr & Hpos).
  destruct (Z.eq_dec (v_at (st_heap st) 0) src) as [E | E]; [assumption | exfalso].
  pose proof (Hkey _ Hr ltac:(rewrite Hpos; lia)) as K1.
  pose proof (Hkey src Hsrc (Hopen src Hsrc)) as K2.
  unfold key_of in K1, K2. rewrite Hpos in K1.
  pose proof (root_min (st_heap st) Hord (pos_of (st_heap st) src)
                ltac:(apply (shape_present (vertices g) _ src Hs Hsrc (Hopen src Hsrc)))) as Hmin.
  rewrite (Hinf _ Hr E) in K1. unfold INF in *. lia.
Qed.

Lemma dijkstra_init_state_witness :
  exists st,
    dijkstra_init demo_graph 0 = Some st /\
    dist_of st 0 = 0 /\
    (forall v, 0 <= v < vertices demo_graph -> v <> 0 -> dist_of st v = INF) /\
    (forall v, 0 <= v < vertices demo_graph -> aget 0 (st_parent st) v = -1) /\
    size (st_heap st) = vertices demo_graph /\
    heap_inv (vertices demo_graph) (st_heap st) /\
    (forall v, 0 <= v < vertices demo_graph ->
       pos_of (st_heap st) v <> -1 /\ key_of (st_heap st) v = dist_of st v) /\
    v_at (st_heap st) 0 = 0.
Proof.
  apply (dijkstra_init_state demo_graph 0); [reflexivity | vm_compute; split; congruence].
Defined.

(** ** The snapshot written (lines 126-161) *)

(** X8: the number of roads that [saveGraphToFile] writes on the count
    line (lines 138-146) is the number of road lines it then writes
    (lines 147-154), as long as that number fits an [int]. *)
Theorem saved_count_matches_lines (g : Graph) :
  Z.of_nat (length (edges_once g)) <= CInt.INT_MAX ->
  count_edges g = Z.of_nat (length (edges_once g)) /\
  snapshot g =
    print_int (vertices g) ++ [newline] ++
    concat (map (junction_line g) (range (vertices g))) ++
    print_int (Z.of_nat (length (edges_once g))) ++ [newline] ++
    concat (map edge_line (edges_once g)).
Proof.
  intros Hmax. pose proof (count_edges_length g Hmax) as E. split; [assumption |].
  unfold snapshot. rewrite snapshot_lines, E. reflexivity.
Qed.

Lemma saved_count_matches_lines_witness :
  count_edges city_graph = Z.of_nat (length (edges_once city_graph)) /\
  snapshot city_graph =
    print_int (vertices city_graph) ++ [newline] ++
    concat (map (junction_line city_graph) (range (vertices city_graph))) ++
    print_int (Z.of_nat (length (edges_once city_graph))) ++ [newline] ++
    concat (map edge_line (edges_once city_graph)).
Proof. apply (saved_count_matches_lines city_graph). vm_compute. discriminate. Defined.

(** X9: the road lines written are the adjacency entries [u -> v] with
    [u < v] of the junctions [0 <= u < vertices]: a line [a b w] is
    written as often as [(b, w)] occurs in the list of [a] when [a] is a
    junction and [a < b], and never otherwise; so an entry from a junction
    to itself is never written. *)
Theorem saved_roads_once (g : Graph) (a b w : Z) :
  count_occ triple_eq_dec (edges_once g) (a, b, w) =
    (if in_bounds (vertices g) a && (a <? b)
     then count_occ Edge_eq_dec (adj_of g a) (mkEdge b w) else 0%nat) /\
  (In (a, b, w) (edges_once g) ->
   0 <= a < vertices g /\ a < b /\ In (mkEdge b w) (adj_of g a)).
Proof.
  split; [apply count_edges_once | apply edges_once_in].
Qed.

(** ** Adding roads and saving (lines 93-105 and 126-161) *)

Ltac split_entries :=
  repeat match goal with
         | H : (_, _, _) = (_, _, _) |- _ => injection H as ? ? ?
         | H : mkEdge _ _ = mkEdge _ _ |- _ => injection H as ? ?
         end.

Lemma edges_once_addEdge (g : Graph) (u v w : Z) :
  Z.of_nat (length (adj g)) = MAX -> vertices g <= MAX ->
  0 <= u < vertices g -> 0 <= v < vertices g ->
  (u <> v ->
   Permutation (edges_once (fst (addEdge g u v w)))
               ((Z.min u v, Z.max u v, w) :: edges_once g)) /\
  (u = v -> Permutation (edges_once (fst (addEdge g u v w))) (edges_once g)).
Proof.
  intros Hlen Hmax Hu Hv.
  destruct (addEdge_in_range g u v w Hlen Hmax Hu Hv)
    as (g' & E & Hvert & _ & _ & _ & _ & Hadj).
  rewrite E. cbn [fst]. split; intros Huv;
    apply (Permutation_count_occ triple_eq_dec); intros [[a b] c];
    cbn [count_occ]; rewrite !count_edges_once, Hvert, Hadj, !count_occ_app;
    unfold in_bounds;
    destruct (Z.leb_spec 0 a), (Z.ltb_spec a (vertices g)), (Z.ltb_spec a b),
             (Z.eqb_spec a v), (Z.eqb_spec a u);
    cbn [andb count_occ app]; decide_entries; split_entries; try lia; try congruence.
  all: destruct (Z.lt_total u v) as [Hlt | [Heq | Hgt]]; try contradiction.
  all: try (rewrite Z.min_l, Z.max_r in * by lia).
  all: try (rewrite Z.min_r, Z.max_l in * by lia).
  all: split_entries; try lia; congruence.
Qed.

(** X10: each successful [addEdge] between two different junctions adds
    exactly one road to those that [saveGraphToFile], [writeGraphViz] and
    [exportLeafletMap] list, namely [min(u,v) max(u,v) w]; an [addEdge]
    from a junction to itself adds none. *)
Theorem addEdge_adds_one_road (g : Graph) (u v w : Z) :
  Z.of_nat (length (adj g)) = MAX -> vertices g <= MAX ->
  0 <= u < vertices g -> 0 <= v < vertices g ->
  (u <> v ->
   Permutation (edges_once (fst (addEdge g u v w)))
               ((Z.min u v, Z.max u v, w) :: edges_once g)) /\
  (u = v -> Permutation (edges_once (fst (addEdge g u v w))) (edges_once g)).
Proof. intros Hlen Hmax Hu Hv. apply edges_once_addEdge; assumption. Qed.

Lemma addEdge_adds_one_road_witness :
  (1 <> 0 ->
   Permutation (edges_once (fst (addEdge demo_graph 1 0 7)))
               ((Z.min 1 0, Z.max 1 0, 7) :: edges_once demo_graph)) /\
  (1 = 0 -> Permutation (edges_once (fst (addEdge demo_graph 1 0 7))) (edges_once demo_graph)).
Proof.
  apply (addEdge_adds_one_road demo_graph 1 0 7);
    [reflexivity | vm_compute; congruence | vm_compute; split; congruence
     | vm_compute; split; congruence].
Defined.

Lemma wf_graph_sized (g : Graph) : wf_graph g = true -> sized g = true.
Proof.
  unfold wf_graph, sized. rewrite !andb_true_iff.
  intros (((((((_ & _) & H1) & H2) & H3) & H4) & H5) & _). auto.
Qed.

Lemma wf_graph_intro (g : Graph) :
  0 <= vertices g <= MAX -> sized g = true ->
  (forall u e, 0 <= u < vertices g -> In e (adj_of g u) -> 0 <= to e < vertices g) ->
  wf_graph g = true.
Proof.
  intros Hn Hs Hto. unfold sized in Hs. rewrite !andb_true_iff in Hs.
  destruct Hs as ((((H1 & H2) & H3) & H4) & H5).
  unfold wf_graph. rewrite !andb_true_iff.
  repeat split; try assumption; try (apply Z.leb_le; lia).
  apply forallb_forall. intros es Hin.
  apply list_elem_of_In in Hin. apply elem_of_take in Hin. destruct Hin as (i & Hl & Hi).
  apply forallb_forall. intros e He.
  assert (Ei : adj_of g (Z.of_nat i) = es).
  { unfold adj_of. apply aget_lookup; [lia |]. rewrite Nat2Z.id. exact Hl. }
  specialize (Hto (Z.of_nat i) e ltac:(lia) ltac:(rewrite Ei; exact He)).
  unfold in_bounds. apply andb_true_iff. split; [apply Z.leb_le | apply Z.ltb_lt]; lia.
Qed.

Lemma addEdge_push (g : Graph) (u v w : Z) :
  0 <= u < vertices g -> 0 <= v < vertices g ->
  addEdge g u v w = (push_edge g u v w, []).
Proof.
  intros Hu Hv. unfold addEdge, push_edge.
  destruct (Z.ltb_spec u 0); [lia |].
  destruct (Z.geb_spec u (vertices g)); [lia |].
  destruct (Z.ltb_spec v 0); [lia |].
  destruct (Z.geb_spec v (vertices g)); [lia |].
  reflexivity.
Qed.

Lemma addEdge_rejected (g : Graph) (u v w : Z) :
  ~ (0 <= u < vertices g /\ 0 <= v < vertices g) ->
  addEdge g u v w = (g, [EvInvalidEdge u v]).
Proof.
  intros H. unfold addEdge.
  destruct (Z.ltb_spec u 0); [reflexivity |].
  destruct (Z.geb_spec u (vertices g)); [reflexivity |].
  destruct (Z.ltb_spec v 0); [reflexivity |].
  destruct (Z.geb_spec v (vertices g)); [reflexivity |].
  exfalso. apply H. lia.
Qed.

Lemma snapshot_ok_intro (g : Graph) :
  wf_graph g = true ->
  (forall i, 0 <= i < vertices g ->
     name_ok (name_of g i) = true /\ light_ok (light_of g i) = true) ->
  (forall u e, 0 <= u < vertices g -> In e (adj_of g u) ->
     int_ok (weight e) = true /\ to e <> u /\
     count_occ Edge_eq_dec (adj_of g u) e =
     count_occ Edge_eq_dec (adj_of g (to e)) (mkEdge u (weight e))) ->
  Z.of_nat (length (edges_once g)) <= CInt.INT_MAX ->
  snapshot_ok g = true.
Proof.
  intros Hwf Hj He Hlen. unfold snapshot_ok. rewrite !andb_true_iff.
  repeat split; try assumption; try (apply Z.leb_le; assumption).
  - apply forallb_forall. intros i Hi. apply in_range in Hi.
    apply andb_true_iff. apply (Hj i Hi).
  - apply forallb_forall. intros u Hu. apply in_range in Hu.
    apply forallb_forall. intros e Hin. apply (He u e Hu Hin).
  - apply forallb_forall. intros u Hu. apply in_range in Hu.
    apply forallb_forall. intros e Hin. apply negb_true_iff, Z.eqb_neq.
    apply (He u e Hu Hin).
  - apply forallb_forall. intros u Hu. apply in_range in Hu.
    apply forallb_forall. intros e Hin. apply Nat.eqb_eq. apply (He u e Hu Hin).
Qed.

Lemma snapshot_ok_addEdge (g : Graph) (u v w : Z) :
  snapshot_ok g = true -> u <> v -> int_ok w = true ->
  Z.of_nat (length (edges_once g)) < CInt.INT_MAX ->
  snapshot_ok (fst (addEdge g u v w)) = true.
Proof.
  intros Hok Huv Hw Hlen.
  destruct (snapshot_ok_facts g Hok) as (Hwf & Hj & He & _).
  destruct (wf_graph_facts g Hwf) as (Hn & Hto).
  pose proof (wf_graph_sized g Hwf) as Hs.
  destruct (sized_facts g Hs) as (S1 & S2 & S3 & S4 & S5).
  assert (Hcase : (0 <= u < vertices g /\ 0 <= v < vertices g) \/
                  ~ (0 <= u < vertices g /\ 0 <= v < vertices g)) by lia.
  destruct Hcase as [(Hu & Hv) | Hout];
    [| rewrite (addEdge_rejected g u v w Hout); exact Hok].
  destruct (edges_once_addEdge g u v w S1 ltac:(lia) Hu Hv) as (Hperm & _).
  specialize (Hperm Huv). apply Permutation_length in Hperm.
  rewrite (addEdge_push g u v w Hu Hv) in *. cbn [fst] in *.
  destruct (push_edge_spec g u v w S1 ltac:(lia) ltac:(lia))
    as (P1 & P2 & P3 & P4 & P5 & P6 & Padj).
  assert (Hin' : forall x e, In e (adj_of (push_edge g u v w) x) ->
                   (x = v /\ e = mkEdge u w) \/ (x = u /\ e = mkEdge v w) \/
                   In e (adj_of g x)).
  { intros x e Hin. rewrite Padj in Hin. apply in_app_or in Hin.
    destruct Hin as [Hin | Hin].
    - destruct (Z.eqb_spec x v); [| contradiction].
      destruct Hin as [<- | []]. auto.
    - apply in_app_or in Hin. destruct Hin as [Hin | Hin]; [| auto].
      destruct (Z.eqb_spec x u); [| contradiction].
      destruct Hin as [<- | []]. auto. }
  apply snapshot_ok_intro.
  - apply wf_graph_intro; [rewrite P1; lia | |].
    + apply sized_intro; rewrite ?P2, ?P3, ?P4, ?P5; assumption.
    + rewrite P1. intros x e Hx Hin.
      destruct (Hin' x e Hin) as [(-> & ->) | [(-> & ->) | Hold]]; cbn [to]; try lia.
      apply (Hto x e Hx Hold).
  - rewrite P1. unfold name_of, light_of. rewrite P2, P3. exact Hj.
  - rewrite P1. intros x e Hx Hin.
    assert (Hte : 0 <= to e < vertices g).
    { destruct (Hin' x e Hin) as [(-> & ->) | [(-> & ->) | Hold]]; cbn [to]; try lia.
      apply (Hto x e Hx Hold). }
    split; [| split].
    + destruct (Hin' x e Hin) as [(-> & ->) | [(-> & ->) | Hold]]; cbn [weight];
        try assumption. apply (He x e Hx Hold).
    + destruct (Hin' x e Hin) as [(-> & ->) | [(-> & ->) | Hold]]; cbn [to];
        try congruence. apply (He x e Hx Hold).
    + rewrite !Padj, !count_occ_app. destruct e as [t c]. cbn [to weight] in *.
      rewrite (symmetric_count g x t c Hok Hx Hte).
      destruct (Z.eqb_spec x v), (Z.eqb_spec x u), (Z.eqb_spec t v), (Z.eqb_spec t u);
        cbn [count_occ app]; decide_entries; split_entries; try lia; congruence.
  - cbn [length] in Hperm. lia.
Qed.

(** X11: the graphs that [saveGraphToFile] and [loadGraphFromFile]
    reproduce (in-range entries held in both directions, no road from a
    junction to itself, names and numbers that print and read back) stay
    such graphs under [addEdge] between two different junctions with an
    [int] weight, whether the call is accepted or rejected. *)
Theorem addEdge_keeps_snapshot_ok (g : Graph) (u v w : Z) :
  snapshot_ok g = true -> u <> v -> int_ok w = true ->
  Z.of_nat (length (edges_once g)) < CInt.INT_MAX ->
  snapshot_ok (fst (addEdge g u v w)) = true.
Proof. intros Hok Huv Hw Hlen. apply snapshot_ok_addEdge; assumption. Qed.

Lemma addEdge_keeps_snapshot_ok_witness :
  snapshot_ok (fst (addEdge city_graph 1 0 7)) = true.
Proof.
  apply (addEdge_keeps_snapshot_ok city_graph 1 0 7);
    [vm_compute; reflexivity | congruence | reflexivity | vm_compute; reflexivity].
Defined.

(** ** Loading (lines 165-230) *)

Lemma scan_int_no_leading_int (s : text) :
  no_leading_int s = true -> fst (scan_int s) = None.
Proof.
  unfold no_leading_int, scan_int. destruct (skip_space s) as [| c rest]; [reflexivity |].
  rewrite !andb_true_iff, !negb_true_iff. intros ((Hd & Hm) & Hp).
  unfold scan_sign. rewrite Hm, Hp. cbn [span_digits]. rewrite Hd. reflexivity.
Qed.

Lemma empty_graph_edges (g : Graph) : vertices g = 0 -> edges_once g = [].
Proof. intros E. unfold edges_once. rewrite E. reflexivity. Qed.

(** X12: when the file cannot be opened, or holds no number at its start
    (it is empty, blank, or starts with something else), [loadGraphFromFile]
    leaves the empty graph: no junction and no road.  The missing file is
    reported; the unreadable one is not, and nothing says it was loaded. *)
Theorem load_unreadable (g : Graph) (filename : string) (inp : text) :
  sized g = true -> no_leading_int inp = true ->
  snd (loadGraphFromFile g filename None) = [EvFileNotFound] /\
  snd (loadGraphFromFile g filename (Some inp)) = [] /\
  forall g',
    g' = fst (loadGraphFromFile g filename None) \/
    g' = fst (loadGraphFromFile g filename (Some inp)) ->
    vertices g' = 0 /\ edges_once g' = [] /\
    forall i, 0 <= i < MAX -> adj_of g' i = [].
Proof.
  intros Hs Hno. pose proof (scan_int_no_leading_int inp Hno) as Hscan.
  destruct (initGraph_spec g Hs) as (V1 & S1 & A1).
  destruct (initGraph_spec (initGraph g) S1) as (V2 & S2 & A2).
  unfold loadGraphFromFile. destruct (scan_int inp) as [[z |] rest]; [discriminate |].
  cbn [fst snd]. split; [reflexivity |]. split; [reflexivity |].
  intros g' [-> | ->]; (split; [assumption |]);
    (split; [apply empty_graph_edges; assumption | assumption]).
Qed.

Lemma load_unreadable_witness :
  snd (loadGraphFromFile city_graph "city.txt" None) = [EvFileNotFound] /\
  snd (loadGraphFromFile city_graph "city.txt" (Some (lit "roads: none"))) = [] /\
  forall g',
    g' = fst (loadGraphFromFile city_graph "city.txt" None) \/
    g' = fst (loadGraphFromFile city_graph "city.txt" (Some (lit "roads: none"))) ->
    vertices g' = 0 /\ edges_once g' = [] /\
    forall i, 0 <= i < MAX -> adj_of g' i = [].
Proof.
  apply (load_unreadable city_graph "city.txt" (lit "roads: none"));
    vm_compute; reflexivity.
Defined.

Lemma load_edges_firstn :
  forall (es : list (Z * Z * Z)) (n : nat) (gl : Graph),
    (forall u v w, In (u, v, w) es ->
       int_ok u = true /\ int_ok v = true /\ int_ok w = true) ->
    load_edges n gl (newline :: concat (map edge_line es)) =
    fold_left (fun gl e => push_edge gl (fst (fst e)) (snd (fst e)) (snd e))
              (firstn n es) gl.
Proof.
  induction es as [| [[u v] w] es IH]; intros n gl Hok.
  - destruct n; reflexivity.
  - destruct n as [| n]; [reflexivity |].
    destruct (Hok u v w ltac:(left; reflexivity)) as (Hu & Hv & Hw).
    cbn [firstn map concat fold_left load_edges fst snd].
    rewrite scan_edge_line by assumption.
    apply IH. intros u' v' w' H'. apply Hok. right. assumption.
Qed.

Lemma load_text_spec (g g0 : Graph) (filename : string) (c : Z) (es : list (Z * Z * Z)) :
  0 <= vertices g <= MAX ->
  (forall i, 0 <= i < vertices g -> junction_ok g i) ->
  int_ok c = true ->
  (forall u v w, In (u, v, w) es -> 0 <= u < MAX /\ 0 <= v < MAX /\ int_ok w = true) ->
  sized g0 = true ->
  let g' := fst (loadGraphFromFile g0 filename (Some (snapshot_text g c es))) in
  vertices g' = vertices g /\
  (forall i, 0 <= i < vertices g ->
     name_of g' i = name_of g i /\ light_of g' i = light_of g i /\
     aget 0%float (lat g') i = reread (aget 0%float (lat g) i) /\
     aget 0%float (lon g') i = reread (aget 0%float (lon g) i)) /\
  forall x e, 0 <= x < MAX ->
    count_occ Edge_eq_dec (adj_of g' x) e =
    (count_occ triple_eq_dec (firstn (Z.to_nat c) es) (x, to e, weight e)
     + count_occ triple_eq_dec (firstn (Z.to_nat c) es) (to e, x, weight e))%nat.
Proof.
  intros Hn Hj Hc Hes Hs0. cbv zeta.
  assert (HMAX : MAX <= CInt.INT_MAX) by (unfold MAX, CInt.INT_MAX; lia).
  destruct (initGraph_spec g0 Hs0) as (_ & Hsi & Hempty).
  unfold loadGraphFromFile, snapshot_text.
  rewrite scan_int_print; [| apply int_ok_small; lia | reflexivity].
  cbn [vertices]. rewrite for_upto_fold.
  change ([newline] ++ concat (map (junction_line g) (range (vertices g))) ++
          print_int c ++ [newline] ++ concat (map edge_line es))
    with (newline :: concat (map (junction_line g) (range (vertices g))) ++
          (print_int c ++ [newline] ++ concat (map edge_line es))).
  rewrite load_junctions_fold by (intros i Hi; apply in_range in Hi; auto).
  rewrite scan_int_space by reflexivity.
  rewrite scan_int_print; [| assumption | reflexivity].
  cbn [fst].
  change ([newline] ++ concat (map edge_line es))
    with (newline :: concat (map edge_line es)).
  rewrite load_edges_firstn.
  2:{ intros u v w Hin. destruct (Hes u v w Hin) as (Hu & Hv & Hw).
      repeat split; [apply int_ok_small; lia | apply int_ok_small; lia | assumption]. }
  revert Hsi Hempty. generalize (initGraph g0). intros gi Hsi Hempty.
  destruct (sized_facts _ Hsi) as (S1 & S2 & S3 & S4 & S5).
  set (gm := mkGraph (vertices g) (adj gi) (lights gi) (names gi) (lat gi) (lon gi)).
  assert (Hsm : sized gm = true)
    by (apply sized_intro; unfold gm; cbn [adj lights names lat lon]; assumption).
  destruct (restored_fold g (range (vertices g)) gm Hsm
              ltac:(intros i Hi; apply in_range in Hi; lia))
    as (Rv & Ra & Rs & Rj).
  set (gj := fold_left (restored g) (range (vertices g)) gm) in *.
  destruct (sized_facts _ Rs) as (J1 & _).
  destruct (push_fold_count (firstn (Z.to_nat c) es) gj J1) as (P1 & P2 & P3 & P4 & P5 & Pc).
  { intros u v w Hin. apply list_elem_of_In in Hin. apply subseteq_take in Hin.
    apply list_elem_of_In in Hin.
    destruct (Hes u v w Hin) as (Hu & Hv & _). auto. }
  set (gf := fold_left _ (firstn (Z.to_nat c) es) gj) in *.
  split; [rewrite P1, Rv; reflexivity |]. split.
  - intros i Hi. destruct (Rj i) as (_ & Rin).
    destruct (Hj i Hi) as (Hname & _).
    destruct (Rin (proj2 (in_range _ _) Hi) Hname) as (N1 & N2 & N3 & N4).
    unfold name_of, light_of in *. rewrite P2, P3, P4, P5. auto.
  - intros x e Hx. rewrite Pc.
    assert (Hnil : adj_of gj x = []).
    { unfold adj_of in Hempty |- *. rewrite Ra. unfold gm. cbn [adj].
      apply Hempty. lia. }
    rewrite Hnil. reflexivity.
Qed.

(** X13: [loadGraphFromFile] reads any text in the layout of a snapshot,
    whatever graph it describes.  It takes the junction count and the
    junction lines as written; it takes the first [c] road lines, where
    [c] is the count written, or all of them if fewer than [c] follow; and
    it stores both entries of every road taken without any check against
    the junction count, so that an endpoint beyond the last junction and a
    road from a junction to itself are stored as well. *)
Theorem load_text (g g0 : Graph) (filename : string) (c : Z) (es : list (Z * Z * Z)) :
  0 <= vertices g <= MAX ->
  (forall i, 0 <= i < vertices g -> junction_ok g i) ->
  int_ok c = true ->
  (forall u v w, In (u, v, w) es -> 0 <= u < MAX /\ 0 <= v < MAX /\ int_ok w = true) ->
  sized g0 = true ->
  let g' := fst (loadGraphFromFile g0 filename (Some (snapshot_text g c es))) in
  vertices g' = vertices g /\
  (forall i, 0 <= i < vertices g ->
     name_of g' i = name_of g i /\ light_of g' i = light_of g i /\
     aget 0%float (lat g') i = reread (aget 0%float (lat g) i) /\
     aget 0%float (lon g') i = reread (aget 0%float (lon g) i)) /\
  forall x e, 0 <= x < MAX ->
    count_occ Edge_eq_dec (adj_of g' x) e =
    (count_occ triple_eq_dec (firstn (Z.to_nat c) es) (x, to e, weight e)
     + count_occ triple_eq_dec (firstn (Z.to_nat c) es) (to e, x, weight e))%nat.
Proof. intros Hn Hj Hc Hes Hs0. apply load_text_spec; assumption. Qed.

Lemma city_junctions_ok (i : Z) :
  0 <= i < vertices city_junctions -> junction_ok city_junctions i.
Proof.
  intros Hi. change (vertices city_junctions) with 3 in Hi.
  assert (E : i = 0 \/ i = 1 \/ i = 2) by lia.
  destruct E as [-> | [-> | ->]]; repeat split; vm_compute; reflexivity.
Defined.

Lemma load_text_witness :
  let es := [(0, 7, 3); (2, 2, 9)] in
  let g' := fst (loadGraphFromFile demo_junctions "city.txt"
                   (Some (snapshot_text city_junctions 5 es))) in
  vertices g' = vertices city_junctions /\
  (forall i, 0 <= i < vertices city_junctions ->
     name_of g' i = name_of city_junctions i /\
     light_of g' i = light_of city_junctions i /\
     aget 0%float (lat g') i = reread (aget 0%float (lat city_junctions) i) /\
     aget 0%float (lon g') i = reread (aget 0%float (lon city_junctions) i)) /\
  forall x e, 0 <= x < MAX ->
    count_occ Edge_eq_dec (adj_of g' x) e =
    (count_occ triple_eq_dec (firstn (Z.to_nat 5) es) (x, to e, weight e)
     + count_occ triple_eq_dec (firstn (Z.to_nat 5) es) (to e, x, weight e))%nat.
Proof.
  apply (load_text city_junctions demo_junctions "city.txt" 5 [(0, 7, 3); (2, 2, 9)]).
  - vm_compute. split; congruence.
  - exact city_junctions_ok.
  - reflexivity.
  - intros u v w [H | [H | []]]; injection H as <- <- <-;
      (split; [unfold MAX; lia | split; [unfold MAX; lia | reflexivity]]).
  - reflexivity.
Defined.

(** ** Releasing the roads (lines 529-539) *)

Lemma freeGraph_spec (g : Graph) :
  0 <= vertices g <= MAX -> Z.of_nat (length (adj g)) = MAX ->
  vertices (freeGraph g) = vertices g /\
  lights (freeGraph g) = lights g /\ names (freeGraph g) = names g /\
  lat (freeGraph g) = lat g /\ lon (freeGraph g) = lon g /\
  Z.of_nat (length (adj (freeGraph g))) = MAX /\
  forall i, adj_of (freeGraph g) i =
            if (0 <=? i) && (i <? vertices g) then [] else adj_of g i.
Proof.
  intros Hn Hlen. unfold freeGraph.
  apply (for_upto_ind
           (fun k g' => vertices g' = vertices g /\
                        lights g' = lights g /\ names g' = names g /\
                        lat g' = lat g /\ lon g' = lon g /\
                        Z.of_nat (length (adj g')) = MAX /\
                        forall i, adj_of g' i =
                                  if (0 <=? i) && (i <? k) then [] else adj_of g i)).
  - lia.
  - repeat (split; [reflexivity || assumption |]).
    intros i. destruct (Z.leb_spec 0 i), (Z.ltb_spec i 0); cbn [andb]; try reflexivity; lia.
  - intros i g' Hi (H1 & H2 & H3 & H4 & H5 & H6 & Hadj).
    unfold set_adj. cbn [vertices lights names lat lon adj].
    repeat (split; [assumption |]).
    split; [rewrite length_aset; assumption |].
    intros j. unfold adj_of. cbn [adj]. rewrite aget_aset by lia.
    fold (adj_of g' j). rewrite Hadj.
    destruct (Z.eqb_spec j i) as [-> | Hne].
    + destruct (Z.leb_spec 0 i), (Z.ltb_spec i (i + 1)); cbn [andb]; try reflexivity; lia.
    + destruct (Z.leb_spec 0 j), (Z.ltb_spec j i), (Z.ltb_spec j (i + 1));
        cbn [andb]; try reflexivity; lia.
Qed.

Lemma edges_once_no_roads (g : Graph) :
  (forall i, 0 <= i < vertices g -> adj_of g i = []) -> edges_once g = [].
Proof.
  intros Hnil. rewrite edges_once_concat.
  assert (H : forall us, (forall u, In u us -> 0 <= u < vertices g) ->
                concat (map (fun u => map (fun p => (u, to p, weight p))
                                          (filter (fun p => u < to p) (adj_of g u))) us) = []).
  { induction us as [| u us IH]; intros Hus; [reflexivity |].
    cbn [map concat]. rewrite (Hnil u (Hus u ltac:(left; reflexivity))).
    rewrite IH by (intros x Hx; apply Hus; right; assumption). reflexivity. }
  apply H. intros u Hu. apply in_range in Hu. exact Hu.
Qed.

(** X14: [freeGraph] empties the adjacency list of every junction and
    touches nothing else: the junction count, the names, the phases and
    the coordinates stay, and so do the lists beyond the junction count.
    The graph left has no road to save. *)
Theorem freeGraph_clears (g : Graph) :
  0 <= vertices g <= MAX -> Z.of_nat (length (adj g)) = MAX ->
  vertices (freeGraph g) = vertices g /\
  lights (freeGraph g) = lights g /\ names (freeGraph g) = names g /\
  lat (freeGraph g) = lat g /\ lon (freeGraph g) = lon g /\
  (forall i, 0 <= i < vertices g -> adj_of (freeGraph g) i = []) /\
  (forall i, vertices g <= i -> adj_of (freeGraph g) i = adj_of g i) /\
  edges_once (freeGraph g) = [] /\ count_edges (freeGraph g) = 0.
Proof.
  intros Hn Hlen.
  destruct (freeGraph_spec g Hn Hlen) as (H1 & H2 & H3 & H4 & H5 & H6 & Hadj).
  repeat (split; [assumption |]).
  assert (Hin : forall i, 0 <= i < vertices g -> adj_of (freeGraph g) i = []).
  { intros i Hi. rewrite Hadj.
    destruct (Z.leb_spec 0 i), (Z.ltb_spec i (vertices g)); cbn [andb]; try reflexivity; lia. }
  split; [assumption |]. split.
  { intros i Hi. rewrite Hadj.
    destruct (Z.leb_spec 0 i), (Z.ltb_spec i (vertices g)); cbn [andb]; try reflexivity; lia. }
  assert (Hnone : edges_once (freeGraph g) = []).
  { apply edges_once_no_roads. rewrite H1. exact Hin. }
  split; [assumption |].
  rewrite count_edges_length; rewrite Hnone; simpl; [reflexivity | unfold CInt.INT_MAX; lia].
Qed.

Lemma freeGraph_clears_witness :
  vertices (freeGraph city_graph) = vertices city_graph /\
  lights (freeGraph city_graph) = lights city_graph /\
  names (freeGraph city_graph) = names city_graph /\
  lat (freeGraph city_graph) = lat city_graph /\
  lon (freeGraph city_graph) = lon city_graph /\
  (forall i, 0 <= i < vertices city_graph -> adj_of (freeGraph city_graph) i = []) /\
  (forall i, vertices city_graph <= i ->
     adj_of (freeGraph city_graph) i = adj_of city_graph i) /\
  edges_once (freeGraph city_graph) = [] /\ count_edges (freeGraph city_graph) = 0.
Proof.
  apply (freeGraph_clears city_graph); [vm_compute; split; congruence | reflexivity].
Defined.

(** ** The map page (lines 331-431) *)

Lemma js_escape_map (room : nat) :
  forall src : string,
    lit (js_escape room src) = map js_escape_char (firstn room (lit src)).
Proof.
  induction room as [| r IH]; intros src.
  - destruct src; reflexivity.
  - destruct src as [| c rest]; [reflexivity |].
    cbn [js_escape lit list_ascii_of_string firstn map].
    f_equal. apply IH.
Qed.

Lemma js_escape_char_safe (c : ascii) :
  js_escape_char c <> quote /\ js_escape_char c <> backslash.
Proof.
  unfold js_escape_char.
  destruct (Ascii.eqb_spec c quote) as [-> | Hq]; [split; discriminate |].
  destruct (Ascii.eqb_spec c backslash) as [-> | Hb]; [split; discriminate |].
  cbn [orb]. split; assumption.
Qed.

(** X15: [js_escape_name] copies at most [dstsz - 1] characters, each as
    it is except that a double quote and a backslash both become a single
    quote; so its result holds neither a double quote nor a backslash, and
    a name without them that fits is copied unchanged. *)
Theorem js_escape_name_safe (src : string) (dstsz : Z) :
  1 <= dstsz ->
  let out := js_escape_name src dstsz in
  lit out = map js_escape_char (firstn (Z.to_nat (dstsz - 1)) (lit src)) /\
  (forall c, In c (lit out) -> c <> quote /\ c <> backslash) /\
  Z.of_nat (length (lit out)) = Z.min (Z.of_nat (length (lit src))) (dstsz - 1) /\
  ((forall c, In c (lit src) -> c <> quote /\ c <> backslash) ->
   Z.of_nat (length (lit src)) < dstsz -> out = src).
Proof.
  intros Hsz. cbv zeta. unfold js_escape_name.
  pose proof (js_escape_map (Z.to_nat (dstsz - 1)) src) as E.
  split; [assumption |]. split; [| split].
  - intros c Hin. rewrite E in Hin. apply in_map_iff in Hin.
    destruct Hin as (c0 & <- & _). apply js_escape_char_safe.
  - rewrite E, length_map, length_firstn. lia.
  - intros Hplain Hfit.
    assert (E' : lit (js_escape (Z.to_nat (dstsz - 1)) src) = lit src).
    { rewrite E, firstn_all2 by lia.
      rewrite <- (map_id (lit src)) at 2. apply map_ext_in.
      intros c Hc. destruct (Hplain c Hc) as (Hq & Hb). unfold js_escape_char.
      destruct (Ascii.eqb_spec c quote); [contradiction |].
      destruct (Ascii.eqb_spec c backslash); [contradiction |]. reflexivity. }
    rewrite <- (string_of_list_ascii_of_string (js_escape _ src)).
    rewrite <- (string_of_list_ascii_of_string src) at 2.
    unfold lit in E'. rewrite E'. reflexivity.
Qed.

Lemma js_escape_name_safe_witness :
  let out := js_escape_name "Ring\Road" 64 in
  lit out = map js_escape_char (firstn (Z.to_nat (64 - 1)) (lit "Ring\Road")) /\
  (forall c, In c (lit out) -> c <> quote /\ c <> backslash) /\
  Z.of_nat (length (lit out)) = Z.min (Z.of_nat (length (lit "Ring\Road"))) (64 - 1) /\
  ((forall c, In c (lit "Ring\Road") -> c <> quote /\ c <> backslash) ->
   Z.of_nat (length (lit "Ring\Road")) < 64 -> out = "Ring\Road"%string).
Proof. apply (js_escape_name_safe "Ring\Road" 64). lia. Defined.


Lemma for_upto_collect {A : Type} (n : Z) (f : Z -> A) :
  for_upto n (fun i acc => acc ++ [f i]) [] = map f (range n).
Proof.
  rewrite for_upto_fold, (fold_left_append (fun i => [f i])). cbn [app].
  induction (range n) as [| i l IH]; [reflexivity |].
  cbn [map concat app]. rewrite IH. reflexivity.
Qed.



(** ** The route reported (lines 434-526) *)

Section Routes.
Variable g : Graph.
Variables src dest : Z.
Hypothesis Hwf : wf_graph g = true.
Hypothesis Hok : costs_ok g = true.
Hypothesis Hsrc : 0 <= src < vertices g.
Hypothesis Hdst : 0 <= dest < vertices g.

Lemma relaxed_link (u : Z) (done : list Edge) (e : Edge) (st st' : DState) :
  0 <= u < vertices g -> In e (adj_of g u) ->
  opt_inv g src dest u done st -> link_inv g src st ->
  relaxed g u e st st' -> link_inv g src st'.
Proof.
  intros Hu He Hinv Hlink Hrel.
  pose proof Hinv as (Hbound & Hzero & _ & Hfinal & _ & _ & _ & Hcur).
  destruct (Hcur Hu) as (Hclu & _).
  destruct (Hfinal u Hu Hclu) as (Hdu & _).
  destruct (Hbound u Hu) as (Hdu0 & _).
  destruct (wf_graph_facts g Hwf) as (_ & Hto).
  pose proof (Hto u e Hu He) as Hv.
  destruct (costs_ok_facts g u e Hok Hu He) as (Hwt & _).
  pose proof (candidate_exact g u (dist_of st u) e Hok Hu He ltac:(lia)) as Hcand.
  pose proof (arrive_ge g (dist_of st u) e Hdu0 Hwt) as Hge.
  destruct Hrel as [Hc -> | Hopen Hkeep ->
                   | Hopen Hlt Hbd Hbp Hd Hpar Hcands Hinv' (Hsz & Hdec)];
    [assumption | exact Hlink |].
  set (v := to e) in *. set (c := candidate g (dist_of st u) e) in *.
  assert (Hdist' : forall w, dist_of st' w = if w =? v then c else dist_of st w).
  { intros w. unfold dist_of. rewrite Hd. apply aget_aset. assumption. }
  assert (Hpar' : forall w, aget 0 (st_parent st') w =
                            if w =? v then u else aget 0 (st_parent st) w).
  { intros w. rewrite Hpar. apply aget_aset. assumption. }
  assert (Hclosed' : forall w, 0 <= w < vertices g -> (closed st' w <-> closed st w)).
  { intros w Hw. apply (Hdec w Hw). }
  assert (Hvsrc : v <> src).
  { intros E. rewrite E in Hlt. lia. }
  assert (Huv : u <> v).
  { intros E. apply Hopen. rewrite <- E. exact Hclu. }
  destruct Hlink as (Lsrc & Lall). split.
  - rewrite Hpar'. destruct (Z.eqb_spec src v); [congruence | assumption].
  - intros w Hw. destruct (Lall w Hw) as (Lnone & Lsome).
    rewrite Hpar', Hdist'. destruct (Z.eqb_spec w v) as [Ew | Hnw].
    + split; [intros E; lia |]. intros _.
      split; [assumption |]. split; [apply (Hclosed' u Hu); assumption |].
      assert (Edu : dist_of st' u = dist_of st u).
      { rewrite Hdist'. destruct (Z.eqb_spec u v); [contradiction | reflexivity]. }
      rewrite Edu. split; [assumption |].
      destruct (Hbound v Hv) as (_ & HvINF). split; [lia |].
      exists e. split; [assumption |]. split; [rewrite Ew; reflexivity |].
      exact Hcand.
    + split; [assumption |]. intros Hp.
      destruct (Lsome Hp) as (Hpr & Hpc & Hlp & Hlw & e' & He' & Hte' & Hde').
      split; [assumption |]. split; [apply (Hclosed' _ Hpr); assumption |].
      assert (Edp : dist_of st' (aget 0 (st_parent st) w) =
                    dist_of st (aget 0 (st_parent st) w)).
      { rewrite Hdist'.
        destruct (Z.eqb_spec (aget 0 (st_parent st) w) v) as [E | _]; [| reflexivity].
        exfalso. apply Hopen. rewrite <- E. exact Hpc. }
      rewrite Edp. split; [assumption |]. split; [assumption |].
      exists e'. split; [assumption |]. split; assumption.
Qed.

Lemma relaxed_all_link (u : Z) (es : list Edge) (st st' : DState) :
  0 <= u < vertices g ->
  relaxed_all g u es st st' ->
  forall done,
    (forall e, In e es -> In e (adj_of g u)) ->
    opt_inv g src dest u done st -> link_inv g src st -> link_inv g src st'.
Proof.
  intros Hu Hrel. induction Hrel as [st | e es st st1 st2 Hr Hrest IH];
    intros done Hes Hinv Hlink; [assumption |].
  apply (IH (e :: done)).
  - intros e' He'. apply Hes. right. assumption.
  - apply (relaxed_opt g src dest Hwf Hok Hsrc Hdst u done e st st1 Hu); auto.
    apply Hes. left. reflexivity.
  - apply (relaxed_link u done e st st1 Hu); auto. apply Hes. left. reflexivity.
Qed.

Lemma extracted_link (st : DState) (h' : MinHeap) (u : Z) :
  0 <= u < vertices g ->
  extracted (vertices g) (st_heap st) u h' ->
  link_inv g src st ->
  link_inv g src (mkDState (st_dist st) (st_parent st) h' (st_cands st)).
Proof.
  intros Hu (_ & Hgone & Hrest) (Lsrc & Lall). split; [exact Lsrc |].
  intros w Hw. destruct (Lall w Hw) as (Lnone & Lsome). split; [exact Lnone |].
  cbn [st_parent]. intros Hp.
  destruct (Lsome Hp) as (Hpr & Hpc & Hlp & Hlw & Hex).
  split; [assumption |]. split; [| split; [assumption | split; [assumption | exact Hex]]].
  unfold closed. cbn [st_heap].
  destruct (Z.eq_dec (aget 0 (st_parent st) w) u) as [-> | Hne]; [assumption |].
  apply (Hrest _ Hpr Hne). exact Hpc.
Qed.

Lemma dijkstra_search_links :
  exists st, dijkstra_search g src dest = Some st /\
             link_inv g src st /\ dist_of st src = 0 /\
             forall v, 0 <= v < vertices g -> 0 <= dist_of st v <= INF.
Proof.
  destruct (dijkstra_init_spec g src Hwf Hsrc)
    as (st0 & Hinit & Hinv0 & Hsz0 & Hopen0 & Hzero0 & Hinf0 & _ & Hpar0).
  rewrite (dijkstra_search_unfold g src dest st0 Hinit).
  apply (dijkstra_loop_rule g src dest
           (fun st => search_inv g src st /\ opt_inv g src dest (-1) [] st /\
                      link_inv g src st));
    try assumption.
  - tauto.
  - intros st (((Hs & _) & _) & (_ & _ & _ & _ & _ & _ & Hdest & _) & _) Hsize.
    exfalso. apply Hdest. unfold closed.
    destruct (Z.eq_dec (pos_of (st_heap st) dest) (-1)) as [E | Hn]; [assumption |].
    destruct (shape_present _ _ _ Hs Hdst Hn). lia.
  - intros st h' u (Hsinv & Hinv & Hlink) Hu Hopen Hex Hleast. split.
    + intros _. split; [apply (extracted_link st h' u); assumption |].
      destruct Hinv as (Hbound & Hzero & _). split; [exact Hzero | exact Hbound].
    + intros Hninf Hnd st2 Hrel Hsinv2. split; [assumption |].
      pose proof (extract_opt g src dest Hwf Hok Hsrc Hdst st h' u Hinv Hu Hopen Hex
                              Hleast Hninf Hnd) as Hinv1.
      split.
      * apply (opt_inv_finish g src dest u (rev (adj_of g u) ++ [])).
        -- apply (relaxed_all_opt g src dest Hwf Hok Hsrc Hdst u (adj_of g u) _ st2 Hu Hrel);
             [auto | assumption].
        -- intros e He. rewrite app_nil_r. apply in_rev in He. exact He.
      * apply (relaxed_all_link u (adj_of g u) _ st2 Hu Hrel []); [auto | assumption |].
        apply (extracted_link st h' u); assumption.
  - split; [assumption |]. split.
    + split; [| split; [| split; [| split; [| split; [| split; [| split]]]]]].
      * intros v Hv. destruct (Z.eq_dec v src) as [-> | Hne];
          [rewrite Hzero0 | rewrite (Hinf0 v Hv Hne)]; unfold INF; lia.
      * assumption.
      * intros v Hv Hlt. destruct (Z.eq_dec v src) as [-> | Hne].
        -- exists []. split; [apply connects_nil | rewrite Hzero0; reflexivity].
        -- rewrite (Hinf0 v Hv Hne) in Hlt. lia.
      * intros v Hv Hc. destruct (Hopen0 v Hv Hc).
      * intros u' e Hu' Hc. destruct (Hopen0 u' Hu' Hc).
      * intros x y Hx _ Hc. destruct (Hopen0 x Hx Hc).
      * apply Hopen0. assumption.
      * lia.
    + split; [apply Hpar0; assumption |].
      intros v Hv. split; [intros _ Hne; apply Hinf0; assumption |].
      intros Hp. destruct (Hp (Hpar0 v Hv)).
  - lia.
Qed.

Lemma links_route (st : DState) :
  link_inv g src st -> dist_of st src = 0 ->
  forall (v : Z) (k : nat),
    chain (st_parent st) v k -> 0 <= v < vertices g -> dist_of st v < INF ->
    exists p, connects g src v p /\ path_cost g p = dist_of st v /\
              rev (ancestors k (st_parent st) v) = src :: map to p.
Proof.
  intros (Lsrc & Lall) Hzero v k Hchain.
  induction Hchain as [| v k Hne Hchain IH]; intros Hv Hlt; [lia |].
  destruct (Lall v Hv) as (Lnone & Lsome).
  destruct (Z.eq_dec (aget 0 (st_parent st) v) (-1)) as [E | Hp].
  - assert (Ev : v = src).
    { destruct (Z.eq_dec v src) as [Ev | Hnv]; [assumption |].
      specialize (Lnone E Hnv). lia. }
    subst v. rewrite E in Hchain. inversion Hchain as [Hk | v' k' Hcontra]; [| lia].
    exists []. split; [apply connects_nil |]. split; [rewrite Hzero; reflexivity |].
    reflexivity.
  - destruct (Lsome Hp) as (Hpr & _ & Hlp & _ & e & He & Hte & Hde).
    destruct (IH Hpr Hlp) as (p & Hconn & Hcost & Hanc).
    exists (p ++ [e]). split; [| split].
    + rewrite <- Hte. apply (connects_snoc g src (aget 0 (st_parent st) v)); assumption.
    + rewrite path_cost_snoc, Hcost. symmetry. exact Hde.
    + cbn [ancestors rev]. rewrite Hanc, map_app. cbn [map]. rewrite Hte. reflexivity.
Qed.

Lemma chain_end_inv (parent : list Z) (k : nat) : chain parent (-1) k -> k = O.
Proof. intros H. inversion H as [| v k' Hne _]; [reflexivity | lia]. Qed.

Lemma ancestors_ranked (parent : list Z) :
  forall l : list Z,
    ranked parent l -> List.NoDup l -> (forall x, In x l -> x <> -1) ->
    forall (v : Z) (k : nat),
      In v l -> chain parent v k ->
      List.NoDup (ancestors k parent v) /\
      forall a, In a (ancestors k parent v) -> In a l.
Proof.
  induction l as [| x l IH]; intros Hr Hnd Hne v k Hin Hchain; [destruct Hin |].
  inversion Hr as [| x' l' Hr' Hpx]; subst x' l'.
  inversion Hnd as [| x' l' Hx Hnd']; subst x' l'.
  assert (Hne' : forall y, In y l -> y <> -1) by (intros y Hy; apply Hne; right; exact Hy).
  destruct (in_dec Z.eq_dec v l) as [Hvl | Hvl].
  - destruct (IH Hr' Hnd' Hne' v k Hvl Hchain) as (Hn & Hsub).
    split; [exact Hn |]. intros a Ha. right. apply Hsub. exact Ha.
  - assert (E : v = x) by (destruct Hin as [E | H]; [auto | contradiction]). subst v.
    inversion Hchain as [| v' k' Hnx Hc']; subst.
    + exfalso. apply (Hne (-1)); [left |]; reflexivity.
    + cbn [ancestors]. destruct Hpx as [Ep | Hp].
      * rewrite Ep in Hc' |- *. rewrite (chain_end_inv parent k' Hc'). cbn [ancestors].
        split; [repeat constructor; intros [] |]. intros a [<- | []]. left. reflexivity.
      * destruct (IH Hr' Hnd' Hne' _ k' Hp Hc') as (Hn & Hsub).
        split.
        -- constructor; [| exact Hn]. intros Hxa. apply Hx. apply Hsub. exact Hxa.
        -- intros a [<- | Ha]; [left; reflexivity | right; apply Hsub; exact Ha].
Qed.

Lemma dijkstra_search_order :
  exists st order,
    dijkstra_search g src dest = Some st /\
    ranked (st_parent st) order /\ List.NoDup order /\
    (forall x, In x order -> 0 <= x < vertices g) /\
    (dist_of st dest <> INF -> In dest order).
Proof.
  destruct (wf_graph_facts g Hwf) as (Hn & Hto).
  destruct (dijkstra_init_spec g src Hwf Hsrc)
    as (st0 & Hinit & Hinv0 & Hsz0 & Hopen0 & Hzero0 & Hinf0 & _ & Hpar0).
  rewrite (dijkstra_search_unfold g src dest st0 Hinit).
  assert (Hrule :
    exists st', dijkstra_loop (Datatypes.S (Z.to_nat (vertices g))) g dest st0 = Some st' /\
      exists order, ranked (st_parent st') order /\ List.NoDup order /\
        (forall x, In x order -> 0 <= x < vertices g) /\
        (dist_of st' dest <> INF -> In dest order)).
  { apply (dijkstra_loop_rule g src dest
             (fun st => search_inv g src st /\ opt_inv g src dest (-1) [] st /\
                        exists order, tree_inv g order st /\ List.NoDup order));
      try assumption.
    - tauto.
    - intros st (((Hs & _) & _) & (_ & _ & _ & _ & _ & _ & Hdest & _) & _) Hsize.
      exfalso. apply Hdest. unfold closed.
      destruct (Z.eq_dec (pos_of (st_heap st) dest) (-1)) as [E | Hne]; [assumption |].
      destruct (shape_present _ _ _ Hs Hdst Hne). lia.
    - intros st h' u (Hsinv & Hinv & order & Htree & Hnd) Hu Hopen Hex Hleast.
      pose proof Htree as (Hr & Hin & Hcl & Hp & Hlen).
      pose proof Hex as (Hsz & Hgone & Hrest).
      assert (Hfresh : ~ In u order).
      { intros Hi. destruct (Hin u Hi) as (_ & Hc). apply Hopen. exact Hc. }
      split.
      + intros Hexit. exists (u :: order). cbn [st_parent].
        split; [constructor; [assumption | apply Hp; assumption] |].
        split; [constructor; assumption |].
        split; [intros x [<- | Hx]; [assumption | apply (Hin x Hx)] |].
        intros Hd. change (dist_of (mkDState (st_dist st) (st_parent st) h' (st_cands st)) dest)
          with (dist_of st dest) in Hd.
        destruct (Z.eq_dec u dest) as [-> | Hud]; [left; reflexivity |].
        destruct Hexit as [Einf | E]; [| contradiction].
        exfalso. destruct Hinv as (Hbound & _ & _ & _ & _ & _ & Hdest & _).
        pose proof (Hleast dest Hdst Hdest). destruct (Hbound dest Hdst). lia.
      + intros Hninf Hnd' st2 Hrel Hsinv2. split; [assumption |].
        pose proof (extract_opt g src dest Hwf Hok Hsrc Hdst st h' u Hinv Hu Hopen Hex
                                Hleast Hninf Hnd') as Hinv1.
        split.
        * apply (opt_inv_finish g src dest u (rev (adj_of g u) ++ [])).
          -- apply (relaxed_all_opt g src dest Hwf Hok Hsrc Hdst u (adj_of g u) _ st2 Hu Hrel);
               [auto | assumption].
          -- intros e He. rewrite app_nil_r. apply in_rev in He. exact He.
        * exists (u :: order). split; [| constructor; assumption].
          apply (relaxed_all_tree g u (adj_of g u) (u :: order)
                   (mkDState (st_dist st) (st_parent st) h' (st_cands st)) st2);
            [intros e He; apply (Hto u); assumption | left; reflexivity | exact Hrel |].
          split; [| split; [| split; [| split]]].
          -- constructor; [assumption | apply Hp; assumption].
          -- intros x [<- | Hx]; [split; [assumption | exact Hgone] |].
             destruct (Hin x Hx) as (Hxr & Hxc). split; [assumption |].
             unfold closed. simpl.
             destruct (Z.eq_dec x u) as [-> | Hne]; [assumption |].
             apply (Hrest x Hxr Hne). assumption.
          -- intros v Hv Hcv. unfold closed in Hcv. simpl in Hcv.
             destruct (Z.eq_dec v u) as [-> | Hne]; [left; reflexivity | right].
             apply Hcl; [assumption |]. apply (Hrest v Hv Hne). assumption.
          -- intros v Hv. destruct (Hp v Hv) as [E | Hi];
               [left; exact E | right; right; exact Hi].
          -- simpl st_heap. simpl length.
             destruct Hsinv as ((Hs & _) & _).
             destruct (shape_present _ _ _ Hs Hu Hopen) as (Hpos & _). lia.
    - split; [assumption |]. split.
      + split; [| split; [| split; [| split; [| split; [| split; [| split]]]]]].
        * intros v Hv. destruct (Z.eq_dec v src) as [-> | Hne];
            [rewrite Hzero0 | rewrite (Hinf0 v Hv Hne)]; unfold INF; lia.
        * assumption.
        * intros v Hv Hlt. destruct (Z.eq_dec v src) as [-> | Hne].
          -- exists []. split; [apply connects_nil | rewrite Hzero0; reflexivity].
          -- rewrite (Hinf0 v Hv Hne) in Hlt. lia.
        * intros v Hv Hc. destruct (Hopen0 v Hv Hc).
        * intros u' e Hu' Hc. destruct (Hopen0 u' Hu' Hc).
        * intros x y Hx _ Hc. destruct (Hopen0 x Hx Hc).
        * apply Hopen0. assumption.
        * lia.
      + exists []. split; [| constructor]. split; [constructor |].
        split; [intros x [] |]. split; [intros v Hv Hc; destruct (Hopen0 v Hv Hc) |].
        split; [intros v Hv; left; apply Hpar0; assumption |]. simpl. lia.
    - lia. }
  destruct Hrule as (st' & Hrun & order & H1 & H2 & H3 & H4).
  exists st', order. auto.
Qed.

End Routes.

Lemma length_ancestors (parent : list Z) :
  forall (k : nat) (v : Z), length (ancestors k parent v) = k.
Proof. induction k as [| k IH]; intros v; [reflexivity |]. cbn [ancestors length]. f_equal. apply IH. Qed.

Lemma build_path_ancestors (parent : list Z) (v : Z) (k : nat) :
  chain parent v k ->
  forall (fuel : nat) (path : list Z) (idx : Z),
    (k <= fuel)%nat -> 0 <= idx -> idx + Z.of_nat k <= MAX ->
    Z.of_nat (length path) = MAX ->
    exists path',
      build_path fuel parent v path idx = Some (path', idx + Z.of_nat k) /\
      Z.of_nat (length path') = MAX /\
      (forall i, 0 <= i < idx -> aget 0 path' i = aget 0 path i) /\
      (forall j, (j < k)%nat ->
         aget 0 path' (idx + Z.of_nat j) = nth j (ancestors k parent v) 0).
Proof.
  induction 1 as [| v k Hne Hchain IH]; intros fuel path idx Hfuel Hidx Hmax Hlen.
  - exists path. rewrite Z.add_0_r.
    split; [destruct fuel; reflexivity |]. split; [assumption |].
    split; [auto |]. intros j Hj. lia.
  - destruct fuel as [| fuel]; [lia |]. simpl build_path.
    destruct (Z.eqb_spec v (-1)); [contradiction |].
    destruct (Z.ltb_spec idx MAX); [| lia].
    rewrite add_exact
      by (unfold CInt.in_range, CInt.INT_MIN, CInt.INT_MAX, MAX in *; lia).
    destruct (IH fuel (aset path idx v) (idx + 1) ltac:(lia) ltac:(lia) ltac:(lia)
                 ltac:(rewrite length_aset; assumption))
      as (path' & Hr & Hlen' & Hlow & Hanc).
    exists path'. split; [rewrite Hr; f_equal; f_equal; lia |].
    split; [assumption |]. split.
    + intros i Hi. rewrite Hlow by lia. apply aget_aset_ne. lia.
    + intros [| j] Hj.
      * rewrite Z.add_0_r, Hlow by lia. cbn [ancestors nth].
        apply aget_aset_eq. lia.
      * cbn [ancestors nth]. rewrite <- (Hanc j ltac:(lia)). f_equal. lia.
Qed.

Lemma nth_range (n : Z) (j : nat) :
  (j < Z.to_nat n)%nat -> nth j (range n) 0 = Z.of_nat j.
Proof.
  intros Hj. unfold range.
  change 0 with (Z.of_nat 0). rewrite map_nth, seq_nth by assumption. reflexivity.
Qed.

Lemma length_range (n : Z) : length (range n) = Z.to_nat n.
Proof. unfold range. rewrite length_map, length_seq. reflexivity. Qed.

Lemma map_backwards (l path : list Z) (k : nat) :
  length l = k ->
  (forall j, (j < k)%nat -> aget 0 path (Z.of_nat j) = nth j l 0) ->
  map (fun i => aget 0 path (Z.of_nat k - 1 - i)) (range (Z.of_nat k)) = rev l.
Proof.
  intros Hlen Hnth.
  apply (nth_ext _ _ (aget 0 path (Z.of_nat k - 1 - 0)) 0).
  - rewrite length_map, length_range, length_rev, Nat2Z.id. congruence.
  - intros n Hn. rewrite length_map, length_range, Nat2Z.id in Hn.
    rewrite (map_nth (fun i => aget 0 path (Z.of_nat k - 1 - i)) (range (Z.of_nat k)) 0 n).
    rewrite nth_range by (rewrite Nat2Z.id; assumption).
    rewrite rev_nth by lia. rewrite Hlen.
    rewrite <- (Hnth (k - Datatypes.S n)%nat) by lia. f_equal. lia.
Qed.

Lemma for_upto_aset (n : Z) (h : Z -> Z) (f0 : list Z) :
  0 <= n <= Z.of_nat (length f0) ->
  forall i, 0 <= i < n ->
    aget 0 (for_upto n (fun i f => aset f i (h i)) f0) i = h i.
Proof.
  intros Hn.
  apply (for_upto_ind
           (fun k f => length f = length f0 /\
                       forall i, 0 <= i < k -> aget 0 f i = h i)); [lia | |].
  - split; [reflexivity |]. intros i Hi. lia.
  - intros i f Hi (Hlen & Hget). split; [rewrite length_aset; assumption |].
    intros j Hj. rewrite aget_aset by lia.
    destruct (Z.eqb_spec j i) as [-> | Hne]; [reflexivity |]. apply Hget. lia.
Qed.

Lemma dijkstra_report_route (g : Graph) (src dest : Z) (st : DState) (k : nat) :
  dist_of st dest <> INF ->
  chain (st_parent st) dest k -> Z.of_nat k <= MAX ->
  exists forward,
    dijkstra_report g src dest st =
      Some [EvShortestTime (name_of g src) (name_of g dest) (dist_of st dest);
            EvPathSummary (map (name_of g) (rev (ancestors k (st_parent st) dest)));
            EvTotalTime (dist_of st dest);
            EvExport (exportLeafletMap g forward (Z.of_nat k))] /\
    doc_sp (exportLeafletMap g forward (Z.of_nat k)) =
      rev (ancestors k (st_parent st) dest).
Proof.
  intros Hne Hk Hle. unfold dijkstra_report. cbv zeta.
  fold (dist_of st dest).
  destruct (Z.eqb_spec (dist_of st dest) INF); [contradiction |].
  destruct (build_path_ancestors _ _ _ Hk (Z.to_nat MAX) (replicate (Z.to_nat MAX) 0) 0)
    as (path & Hr & Hlen & _ & Hanc); [lia | lia | lia | rewrite length_replicate; lia |].
  rewrite Z.add_0_l in Hr. rewrite Hr.
  assert (Hback : map (fun i => aget 0 path (Z.of_nat k - 1 - i)) (range (Z.of_nat k)) =
                  rev (ancestors k (st_parent st) dest)).
  { apply map_backwards; [apply length_ancestors |]. intros j Hj.
    rewrite <- (Hanc j Hj). f_equal. }
  eexists. split.
  - f_equal. f_equal. f_equal. f_equal.
    rewrite (for_upto_collect (Z.of_nat k)
               (fun i => name_of g (aget 0 path (Z.of_nat k - 1 - i)))).
    rewrite <- Hback, map_map. reflexivity.
  - unfold exportLeafletMap. cbn [doc_sp]. rewrite for_upto_collect.
    rewrite <- Hback. apply map_ext_in. intros i Hi. apply in_range in Hi.
    apply (for_upto_aset (Z.of_nat k) (fun i => aget 0 path (Z.of_nat k - 1 - i)));
      [rewrite length_replicate; unfold MAX in *; lia | lia].
Qed.

Lemma dijkstra_route_spec (g : Graph) (src dest : Z) :
  wf_graph g = true -> costs_ok g = true ->
  0 <= src < vertices g -> 0 <= dest < vertices g ->
  forall (evs : list Event) (d : Z),
    dijkstra g src dest = Some evs -> reported_distance evs = Some d ->
    exists p forward len,
      simple_path g src dest p /\ path_cost g p = d /\
      evs = [EvShortestTime (name_of g src) (name_of g dest) d;
             EvPathSummary (map (name_of g) (src :: map to p));
             EvTotalTime d;
             EvExport (exportLeafletMap g forward len)] /\
      doc_sp (exportLeafletMap g forward len) = src :: map to p.
Proof.
  intros Hwf Hok Hsrc Hdest evs d Hrun Hd.
  destruct (dijkstra_search_links g src dest Hwf Hok Hsrc Hdest)
    as (st & Hr & Hlink & Hzero & Hbound).
  destruct (dijkstra_search_tree g src dest Hwf Hsrc) as (st' & Hr' & Hchain).
  rewrite Hr in Hr'. injection Hr' as <-.
  rewrite dijkstra_in_range in Hrun by assumption. rewrite Hr in Hrun.
  destruct (Z.eq_dec (dist_of st dest) INF) as [Einf | Hne].
  - rewrite (dijkstra_report_no_path g src dest st Einf) in Hrun.
    injection Hrun as <-. discriminate.
  - destruct (Hchain dest Hdest) as (k & Hk & Hle).
    destruct (dijkstra_report_route g src dest st k Hne Hk Hle) as (forward & Hrep & Hsp).
    rewrite Hrep in Hrun. injection Hrun as <-. cbn [reported_distance] in Hd.
    injection Hd as <-.
    destruct (Hbound dest Hdest) as (_ & Hup).
    destruct (links_route g src st Hlink Hzero dest k Hk Hdest ltac:(lia))
      as (p & Hconn & Hcost & Hanc).
    destruct (dijkstra_search_order g src dest Hwf Hok Hsrc Hdest)
      as (st2 & order & Hr2 & Hrank & Hnd & Hrange & Hin).
    rewrite Hr in Hr2. injection Hr2 as <-.
    destruct (ancestors_ranked (st_parent st) order Hrank Hnd
                ltac:(intros x Hx; specialize (Hrange x Hx); lia) dest k (Hin Hne) Hk)
      as (Hnodup & _).
    apply NoDup_rev in Hnodup. rewrite Hanc in Hnodup. apply NoDup_ListNoDup in Hnodup.
    exists p, forward, (Z.of_nat k).
    split; [split; assumption |]. split; [assumption |].
    rewrite Hanc in Hsp. rewrite Hanc. split; [reflexivity | assumption].
Qed.

(** X17: when [dijkstra] reports a travel time, the route it prints and
    the route it highlights on the map are one and the same sequence of
    junctions: it starts at the source, follows adjacency entries of the
    graph to the destination, visits no junction twice, and its cost
    (weights plus the waits met on the way) is the time reported. *)
Theorem dijkstra_route (g : Graph) (src dest : Z) (evs : list Event) (d : Z) :
  wf_graph g = true -> costs_ok g = true ->
  0 <= src < vertices g -> 0 <= dest < vertices g ->
  dijkstra g src dest = Some evs -> reported_distance evs = Some d ->
  exists p forward len,
    simple_path g src dest p /\ path_cost g p = d /\
    evs = [EvShortestTime (name_of g src) (name_of g dest) d;
           EvPathSummary (map (name_of g) (src :: map to p));
           EvTotalTime d;
           EvExport (exportLeafletMap g forward len)] /\
    doc_sp (exportLeafletMap g forward len) = src :: map to p.
Proof.
  intros Hwf Hok Hsrc Hdest Hrun Hd.
  apply (dijkstra_route_spec g src dest Hwf Hok Hsrc Hdest evs d Hrun Hd).
Qed.

Lemma dijkstra_route_witness :
  exists p forward len,
    simple_path city_graph 0 2 p /\ path_cost city_graph p = 8 /\
    default [] (dijkstra city_graph 0 2) =
      [EvShortestTime (name_of city_graph 0) (name_of city_graph 2) 8;
       EvPathSummary (map (name_of city_graph) (0 :: map to p));
       EvTotalTime 8;
       EvExport (exportLeafletMap city_graph forward len)] /\
    doc_sp (exportLeafletMap city_graph forward len) = 0 :: map to p.
Proof.
  apply (dijkstra_route city_graph 0 2 (default [] (dijkstra city_graph 0 2)) 8);
    [vm_compute; reflexivity | vm_compute; reflexivity | vm_compute; split; congruence
     | vm_compute; split; congruence | vm_compute; reflexivity | vm_compute; reflexivity].
Defined.

Lemma init_root (g : Graph) (src : Z) (st : DState) :
  0 <= src < vertices g ->
  search_inv g src st ->
  (forall v, 0 <= v < vertices g -> ~ closed st v) ->
  dist_of st src = 0 ->
  (forall v, 0 <= v < vertices g -> v <> src -> dist_of st v = INF) ->
  v_at (st_heap st) 0 = src /\ dist_at (st_heap st) 0 = 0.
Proof.
  intros Hsrc (Hheap & _ & _ & Hkey & _) Hopen Hd0 Hinf.
  destruct Hheap as (Hs & Hord).
  destruct (shape_present (vertices g) _ src Hs Hsrc (Hopen src Hsrc)) as (Hps & _).
  destruct (shape_slot (vertices g) (st_heap st) 0 Hs ltac:(lia))
    as (nd & _ & _ & Hr & Hpos).
  pose proof (Hkey _ Hr ltac:(rewrite Hpos; lia)) as K1.
  pose proof (Hkey src Hsrc (Hopen src Hsrc)) as K2.
  unfold key_of in K1, K2. rewrite Hpos in K1.
  pose proof (root_min (st_heap st) Hord (pos_of (st_heap st) src) Hps) as Hmin.
  assert (E : v_at (st_heap st) 0 = src).
  { destruct (Z.eq_dec (v_at (st_heap st) 0) src) as [E | E]; [assumption | exfalso].
    rewrite (Hinf _ Hr E) in K1. unfold INF in *. lia. }
  split; [assumption |]. rewrite E in K1. lia.
Qed.

Lemma dijkstra_search_same (g : Graph) (src : Z) :
  wf_graph g = true -> 0 <= src < vertices g ->
  exists st, dijkstra_search g src src = Some st /\
             dist_of st src = 0 /\ aget 0 (st_parent st) src = -1.
Proof.
  intros Hwf Hsrc.
  destruct (dijkstra_init_spec g src Hwf Hsrc)
    as (st0 & Hinit & Hinv0 & Hsz0 & Hopen0 & Hzero0 & Hinf0 & _ & Hpar0).
  rewrite (dijkstra_search_unfold g src src st0 Hinit).
  destruct (init_root g src st0 Hsrc Hinv0 Hopen0 Hzero0 Hinf0) as (Hroot & Hkey).
  pose proof Hinv0 as (Hheap & _).
  destruct (extractMin_correct (vertices g) (st_heap st0) Hheap ltac:(lia))
    as (h' & Hex & _).
  cbn [dijkstra_loop]. unfold isEmpty.
  destruct (Z.eqb_spec (size (st_heap st0)) 0); [lia |].
  rewrite Hex.
  change (hv (node_at (st_heap st0) 0)) with (v_at (st_heap st0) 0).
  change (hdist (node_at (st_heap st0) 0)) with (dist_at (st_heap st0) 0).
  rewrite Hroot, Hkey, Z.eqb_refl. cbn [Z.eqb INF].
  eexists. split; [reflexivity |]. split; [exact Hzero0 | apply Hpar0; assumption].
Qed.

(** X18: asked for a route from a junction to itself, [dijkstra] stops as
    soon as it has extracted that junction, before it relaxes any road: it
    reports the time 0 and a route that is the junction alone, whatever
    the roads, the weights and the signals of the graph are. *)
Theorem dijkstra_same_junction (g : Graph) (src : Z) :
  wf_graph g = true -> 0 <= src < vertices g ->
  exists forward len,
    dijkstra g src src =
      Some [EvShortestTime (name_of g src) (name_of g src) 0;
            EvPathSummary [name_of g src];
            EvTotalTime 0;
            EvExport (exportLeafletMap g forward len)] /\
    doc_sp (exportLeafletMap g forward len) = [src].
Proof.
  intros Hwf Hsrc.
  destruct (dijkstra_search_same g src Hwf Hsrc) as (st & Hr & Hzero & Hpar).
  rewrite dijkstra_in_range by assumption. rewrite Hr.
  assert (Hk : chain (st_parent st) src 1).
  { constructor; [lia |]. rewrite Hpar. constructor. }
  destruct (dijkstra_report_route g src src st 1
              ltac:(rewrite Hzero; unfold INF; lia) Hk ltac:(unfold MAX; lia))
    as (forward & Hrep & Hsp).
  exists forward, (Z.of_nat 1). rewrite Hrep, Hzero. cbn [ancestors rev app map] in *.
  split; [reflexivity | exact Hsp].
Qed.

Lemma dijkstra_same_junction_witness :
  exists forward len,
    dijkstra city_graph 1 1 =
      Some [EvShortestTime (name_of city_graph 1) (name_of city_graph 1) 0;
            EvPathSummary [name_of city_graph 1];
            EvTotalTime 0;
            EvExport (exportLeafletMap city_graph forward len)] /\
    doc_sp (exportLeafletMap city_graph forward len) = [1].
Proof.
  apply (dijkstra_same_junction city_graph 1);
    [vm_compute; reflexivity | vm_compute; split; congruence].
Defined.








(** ** Files of the older layout (lines 190-211) *)












Lemma push_edge_fields (g : Graph) (u v w : Z) :
  vertices (push_edge g u v w) = vertices g /\
  forall j, same_junction (push_edge g u v w) g j.
Proof. split; [reflexivity |]. intros j. repeat split. Qed.






(** ** Entering a city at the menu (lines 564-595) *)

Lemma read_junction_line (gd gl : Graph) (i : Z) (rest : text) (out : list Shown) :
  junction_ok gd i -> sized gl = true -> 0 <= i < MAX ->
  read_junction i (gl, newline :: junction_line gd i ++ rest, out) =
    (entered gd gl i, newline :: rest, out ++ junction_prompts gd i).
Proof.
  intros (Hname & Hlight & Hla & Hlo) Hs Hi.
  destruct (sized_facts gl Hs) as (S1 & S2 & S3 & S4 & S5).
  destruct (name_ok_facts _ Hname) as (Hne & Hns & Hlen).
  destruct (light_ok_facts _ Hlight) as (Hr & Hg & Hy).
  unfold junction_line. rewrite <- !app_assoc. cbn [app].
  unfold read_junction.
  rewrite scan_str_space by reflexivity.
  rewrite scan_str_word by (assumption || reflexivity).
  assert (En : name_of (set_name gl i (lit (name_of gd i))) i = name_of gd i).
  { unfold name_of at 1, set_name. cbn [names]. rewrite aget_aset_eq by lia.
    apply string_of_list_ascii_of_string. }
  rewrite En. unfold read_phases.
  rewrite scan_int_space by reflexivity.
  rewrite scan_int_print by (assumption || reflexivity).
  rewrite scan_int_space by reflexivity.
  rewrite scan_int_print by (assumption || reflexivity).
  rewrite scan_int_space by reflexivity.
  rewrite scan_int_print by (assumption || reflexivity).
  cbv zeta. unfold read_coords.
  rewrite scan_lf_space by reflexivity.
  rewrite scan_lf_print by (assumption || reflexivity).
  rewrite scan_lf_space by reflexivity.
  rewrite scan_lf_print by (assumption || reflexivity).
  cbv zeta.
  f_equal; [f_equal |].
  - unfold entered, restored, store_junction, set_adj, set_lon, set_lat, set_light, set_name.
    cbn [vertices adj lights names lat lon]. rewrite !aset_aset_eq.
    rewrite firstn_all2 by assumption.
    destruct (aget light0 (lights gd) i) as [r gr y] eqn:El.
    unfold light_of. rewrite El. cbn [red green yellow]. reflexivity.
  - unfold junction_prompts, name_of, set_light, set_name. cbn [names].
    rewrite aget_aset_eq by lia. rewrite string_of_list_ascii_of_string.
    rewrite <- !app_assoc. reflexivity.
Qed.

Lemma entered_spec (g gl : Graph) (i : Z) :
  sized gl = true -> 0 <= i < MAX ->
  vertices (entered g gl i) = vertices gl /\
  sized (entered g gl i) = true /\
  (forall j, j <> i ->
     same_junction (entered g gl i) gl j /\ adj_of (entered g gl i) j = adj_of gl j) /\
  adj_of (entered g gl i) i = [] /\
  (name_ok (name_of g i) = true -> name_of (entered g gl i) i = name_of g i) /\
  light_of (entered g gl i) i = light_of g i /\
  aget 0%float (lat (entered g gl i)) i = reread (aget 0%float (lat g) i) /\
  aget 0%float (lon (entered g gl i)) i = reread (aget 0%float (lon g) i).
Proof.
  intros Hs Hi. destruct (sized_facts gl Hs) as (S1 & S2 & S3 & S4 & S5).
  destruct (restored_spec g gl i Hs Hi) as (Hv & Ha & Hs' & Hother & Hn & Hl & Hla & Hlo).
  destruct (sized_facts _ Hs') as (T1 & T2 & T3 & T4 & T5).
  unfold entered.
  split; [exact Hv |].
  split; [apply sized_intro; unfold set_adj; cbn [adj lights names lat lon];
          rewrite ?length_aset; assumption |].
  split.
  - intros j Hj. split; [apply (Hother j Hj) |].
    unfold adj_of, set_adj. cbn [adj]. apply aget_aset_ne. congruence.
  - split; [unfold adj_of, set_adj; cbn [adj]; apply aget_aset_eq; lia |].
    split; [exact Hn |]. split; [exact Hl |]. split; [exact Hla | exact Hlo].
Qed.

Lemma entered_fold (g : Graph) :
  forall (js : list Z) (gl : Graph),
    sized gl = true -> (forall i, In i js -> 0 <= i < MAX) ->
    vertices (fold_left (entered g) js gl) = vertices gl /\
    sized (fold_left (entered g) js gl) = true /\
    forall j,
      (~ In j js ->
       same_junction (fold_left (entered g) js gl) gl j /\
       adj_of (fold_left (entered g) js gl) j = adj_of gl j) /\
      (In j js ->
       adj_of (fold_left (entered g) js gl) j = [] /\
       (name_ok (name_of g j) = true ->
        name_of (fold_left (entered g) js gl) j = name_of g j) /\
       light_of (fold_left (entered g) js gl) j = light_of g j /\
       aget 0%float (lat (fold_left (entered g) js gl)) j =
         reread (aget 0%float (lat g) j) /\
       aget 0%float (lon (fold_left (entered g) js gl)) j =
         reread (aget 0%float (lon g) j)).
Proof.
  induction js as [| i js IH]; intros gl Hs Hjs.
  - simpl. split; [reflexivity |]. split; [assumption |].
    intros j. split; [intros _; repeat split | intros []].
  - assert (Hi : 0 <= i < MAX) by (apply Hjs; left; reflexivity).
    destruct (entered_spec g gl i Hs Hi)
      as (Hv & Hs' & Hother & Hadj & Hn & Hl & Hla & Hlo).
    destruct (IH (entered g gl i) Hs' ltac:(intros k Hk; apply Hjs; right; assumption))
      as (IHv & IHs & IHj).
    cbn [fold_left]. split; [congruence |]. split; [assumption |].
    intros j. destruct (IHj j) as (IHout & IHin). split.
    + intros Hnin. assert (Hji : j <> i) by (intros ->; apply Hnin; left; reflexivity).
      assert (Hnin' : ~ In j js) by (intros H; apply Hnin; right; assumption).
      destruct (IHout Hnin') as ((E1 & E2 & E3 & E4) & E5).
      destruct (Hother j Hji) as ((F1 & F2 & F3 & F4) & F5).
      unfold same_junction. repeat split; congruence.
    + intros Hin.
      destruct (in_dec Z.eq_dec j js) as [Hjs' | Hjs']; [apply IHin; assumption |].
      assert (E : j = i) by (destruct Hin as [E | H]; [auto | contradiction]).
      subst j. destruct (IHout Hjs') as ((E1 & E2 & E3 & E4) & E5).
      rewrite E1, E2, E3, E4, E5, Hl, Hla, Hlo, Hadj.
      split; [reflexivity |]. split; [exact Hn |]. auto.
Qed.

Lemma read_junctions_fold (gd : Graph) (rest : text) :
  forall (js : list Z) (gl : Graph) (out : list Shown),
    sized gl = true ->
    (forall i, In i js -> 0 <= i < MAX /\ junction_ok gd i) ->
    fold_left (fun st i => read_junction i st) js
              (gl, newline :: concat (map (junction_line gd) js) ++ rest, out) =
    (fold_left (entered gd) js gl, newline :: rest,
     out ++ concat (map (junction_prompts gd) js)).
Proof.
  induction js as [| i js IH]; intros gl out Hs Hok.
  - cbn [map concat fold_left app]. rewrite app_nil_r. reflexivity.
  - destruct (Hok i ltac:(left; reflexivity)) as (Hi & Hj).
    cbn [map concat fold_left]. rewrite <- app_assoc.
    rewrite read_junction_line by assumption.
    destruct (entered_spec gd gl i Hs Hi) as (_ & Hs' & _).
    rewrite IH; [| assumption | intros j Hin; apply Hok; right; assumption].
    rewrite <- app_assoc. reflexivity.
Qed.

Lemma read_roads_fold :
  forall (es : list (Z * Z * Z)) (g : Graph) (out : list Shown),
    (forall u v w, In (u, v, w) es ->
       int_ok u = true /\ int_ok v = true /\ int_ok w = true) ->
    exists out',
      read_roads (length es) (g, newline :: concat (map edge_line es), out) =
      Some (fold_left (fun g e => fst (addEdge g (fst (fst e)) (snd (fst e)) (snd e))) es g,
            [newline], out').
Proof.
  induction es as [| [[u v] w] es IH]; intros g out Hok.
  - exists out. reflexivity.
  - destruct (Hok u v w ltac:(left; reflexivity)) as (Hu & Hv & Hw).
    cbn [length map concat fold_left read_roads fst snd].
    rewrite scan_edge_line by assumption.
    destruct (addEdge g u v w) as [g' evs] eqn:E. cbn [fst].
    apply IH. intros u' v' w' H'. apply Hok. right. assumption.
Qed.

Lemma addEdge_vertices (g : Graph) (u v w : Z) :
  vertices (fst (addEdge g u v w)) = vertices g.
Proof.
  unfold addEdge.
  destruct ((u <? 0) || (u >=? vertices g) || (v <? 0) || (v >=? vertices g));
    reflexivity.
Qed.

Lemma addEdge_fold_valid :
  forall (es : list (Z * Z * Z)) (g : Graph),
    fold_left (fun g e => fst (addEdge g (fst (fst e)) (snd (fst e)) (snd e))) es g =
    fold_left (fun gl e => push_edge gl (fst (fst e)) (snd (fst e)) (snd e))
              (valid_roads (vertices g) es) g.
Proof.
  induction es as [| [[u v] w] es IH]; intros g; [reflexivity |].
  cbn [fold_left fst snd]. rewrite IH, addEdge_vertices.
  unfold valid_roads. cbn [List.filter fst snd]. unfold in_bounds.
  destruct (Z.leb_spec 0 u), (Z.ltb_spec u (vertices g)),
           (Z.leb_spec 0 v), (Z.ltb_spec v (vertices g)); cbn [andb fold_left fst snd];
    try (rewrite addEdge_rejected by lia; reflexivity).
  rewrite addEdge_push by lia. reflexivity.
Qed.

Lemma menu_invalid_spec (g : Graph) (v : Z) (rest : text) :
  int_ok v = true -> v < 1 \/ MAX < v ->
  match rest with c :: _ => isdigit c = false | [] => True end ->
  menu_choice1 g (print_int v ++ rest) =
    Some (freeGraph g, rest,
          [Say (lit "Enter number of junctions (max " ++ print_int MAX ++ lit "): ");
           Say (lit "Invalid number; must be 1.." ++ print_int MAX ++ [newline])]).
Proof.
  intros Hv Hbad Hrest. unfold menu_choice1.
  rewrite scan_int_print by assumption.
  destruct (Z.ltb_spec v 1), (Z.gtb_spec v MAX); cbn [orb]; try reflexivity. lia.
Qed.

(** X21: at menu choice 1 the roads are released before the junction
    count is read.  When the count entered is below 1 or above [MAX], the
    block prints the complaint and stops there: the graph keeps its
    junctions, with their names, phases and coordinates, but every road
    is gone. *)
Theorem menu_invalid_count (g : Graph) (v : Z) (rest : text) :
  0 <= vertices g <= MAX -> Z.of_nat (length (adj g)) = MAX ->
  int_ok v = true -> v < 1 \/ MAX < v ->
  match rest with c :: _ => isdigit c = false | [] => True end ->
  exists g',
    menu_choice1 g (print_int v ++ rest) =
      Some (g', rest,
            [Say (lit "Enter number of junctions (max " ++ print_int MAX ++ lit "): ");
             Say (lit "Invalid number; must be 1.." ++ print_int MAX ++ [newline])]) /\
    vertices g' = vertices g /\ names g' = names g /\ lights g' = lights g /\
    lat g' = lat g /\ lon g' = lon g /\
    (forall i, 0 <= i < vertices g -> adj_of g' i = []) /\
    edges_once g' = [].
Proof.
  intros Hn Hlen Hv Hbad Hrest. exists (freeGraph g).
  split; [apply menu_invalid_spec; assumption |].
  destruct (freeGraph_spec g Hn Hlen) as (H1 & H2 & H3 & H4 & H5 & H6 & Hadj).
  assert (Hin : forall i, 0 <= i < vertices g -> adj_of (freeGraph g) i = []).
  { intros i Hi. rewrite Hadj.
    destruct (Z.leb_spec 0 i), (Z.ltb_spec i (vertices g)); cbn [andb]; try reflexivity; lia. }
  repeat (split; [assumption |]).
  apply edges_once_no_roads. rewrite H1. exact Hin.
Qed.

Lemma menu_invalid_count_witness :
  exists g',
    menu_choice1 city_graph (print_int 0 ++ [newline]) =
      Some (g', [newline],
            [Say (lit "Enter number of junctions (max " ++ print_int MAX ++ lit "): ");
             Say (lit "Invalid number; must be 1.." ++ print_int MAX ++ [newline])]) /\
    vertices g' = vertices city_graph /\ names g' = names city_graph /\
    lights g' = lights city_graph /\
    lat g' = lat city_graph /\ lon g' = lon city_graph /\
    (forall i, 0 <= i < vertices city_graph -> adj_of g' i = []) /\
    edges_once g' = [].
Proof.
  apply (menu_invalid_count city_graph 0 [newline]);
    [vm_compute; split; congruence | reflexivity | reflexivity | left; lia | reflexivity].
Defined.

Lemma menu_enter_spec (g gd : Graph) (es : list (Z * Z * Z)) :
  0 <= vertices g <= MAX -> sized g = true ->
  1 <= vertices gd <= MAX ->
  (forall i, 0 <= i < vertices gd -> junction_ok gd i) ->
  (forall u v w, In (u, v, w) es ->
     int_ok u = true /\ int_ok v = true /\ int_ok w = true) ->
  Z.of_nat (length es) <= CInt.INT_MAX ->
  exists g' out,
    menu_choice1 g (snapshot_text gd (Z.of_nat (length es)) es) =
      Some (g', [newline], out) /\
    vertices g' = vertices gd /\
    (forall i, 0 <= i < vertices gd ->
       name_of g' i = name_of gd i /\ light_of g' i = light_of gd i /\
       aget 0%float (lat g') i = reread (aget 0%float (lat gd) i) /\
       aget 0%float (lon g') i = reread (aget 0%float (lon gd) i)) /\
    forall x e, 0 <= x < vertices gd ->
      count_occ Edge_eq_dec (adj_of g' x) e =
      (count_occ triple_eq_dec (valid_roads (vertices gd) es) (x, to e, weight e)
       + count_occ triple_eq_dec (valid_roads (vertices gd) es) (to e, x, weight e))%nat.
Proof.
  intros Hn Hs HV Hj Hes Hlen.
  assert (HMAX : MAX <= CInt.INT_MAX) by (unfold MAX, CInt.INT_MAX; lia).
  destruct (sized_facts g Hs) as (S1 & S2 & S3 & S4 & S5).
  destruct (freeGraph_spec g Hn S1) as (F1 & F2 & F3 & F4 & F5 & F6 & _).
  unfold menu_choice1, snapshot_text.
  rewrite scan_int_print; [| apply int_ok_small; lia | reflexivity].
  destruct (Z.ltb_spec (vertices gd) 1); [lia |].
  destruct (Z.gtb_spec (vertices gd) MAX); [lia |]. cbn [orb vertices].
  revert F1 F2 F3 F4 F5 F6. generalize (freeGraph g). intros gf F1 F2 F3 F4 F5 F6.
  set (gm := mkGraph (vertices gd) (adj gf) (lights gf) (names gf) (lat gf) (lon gf)).
  assert (Hsm : sized gm = true).
  { apply sized_intro; unfold gm; cbn [adj lights names lat lon]; congruence. }
  rewrite for_upto_fold.
  change ([newline] ++ concat (map (junction_line gd) (range (vertices gd))) ++
          print_int (Z.of_nat (length es)) ++ [newline] ++ concat (map edge_line es))
    with (newline :: concat (map (junction_line gd) (range (vertices gd))) ++
          (print_int (Z.of_nat (length es)) ++ [newline] ++ concat (map edge_line es))).
  rewrite read_junctions_fold;
    [| assumption | intros i Hi; apply in_range in Hi; split; [lia | auto]].
  rewrite scan_int_space by reflexivity.
  rewrite scan_int_print; [| apply int_ok_small; lia | reflexivity].
  rewrite Nat2Z.id.
  change ([newline] ++ concat (map edge_line es))
    with (newline :: concat (map edge_line es)).
  destruct (entered_fold gd (range (vertices gd)) gm Hsm
              ltac:(intros i Hi; apply in_range in Hi; lia))
    as (Ev & Es & Ej).
  set (gj := fold_left (entered gd) (range (vertices gd)) gm) in *.
  match goal with
  | |- context [read_roads _ (gj, _, ?o)] =>
    destruct (read_roads_fold es gj o Hes) as (out' & Hroads)
  end.
  eexists. exists out'. split; [exact Hroads |].
  rewrite addEdge_fold_valid, Ev. change (vertices gm) with (vertices gd) in *.
  destruct (sized_facts _ Es) as (J1 & _).
  destruct (push_fold_count (valid_roads (vertices gd) es) gj J1)
    as (P1 & P2 & P3 & P4 & P5 & Pc).
  { intros u v w Hin. unfold valid_roads in Hin. apply filter_In in Hin.
    destruct Hin as (_ & Hb). cbn [fst snd] in Hb. unfold in_bounds in Hb. lia. }
  split; [rewrite P1, Ev; reflexivity |]. split.
  - intros i Hi. destruct (Ej i) as (_ & Ein).
    destruct (Ein (proj2 (in_range _ _) Hi)) as (_ & N1 & N2 & N3 & N4).
    destruct (Hj i Hi) as (Hname & _). specialize (N1 Hname).
    unfold name_of, light_of in *. rewrite P2, P3, P4, P5. auto.
  - intros x e Hx. rewrite Pc.
    destruct (Ej x) as (_ & Ein).
    destruct (Ein (proj2 (in_range _ _) Hx)) as (Hnil & _).
    rewrite Hnil. reflexivity.
Qed.

(** X22: typed at menu choice 1, a description in the layout of a
    snapshot (the junction count, one line per junction, the road count,
    one line per road) replaces the city by the one described: the
    junctions get the names, phases and coordinates of their lines, and
    the roads are those of the lines whose two ends are junctions, each
    held in both directions; a line with an end that is no junction adds
    nothing. *)
Theorem menu_enter_city (g gd : Graph) (es : list (Z * Z * Z)) :
  0 <= vertices g <= MAX -> sized g = true ->
  1 <= vertices gd <= MAX ->
  (forall i, 0 <= i < vertices gd -> junction_ok gd i) ->
  (forall u v w, In (u, v, w) es ->
     int_ok u = true /\ int_ok v = true /\ int_ok w = true) ->
  Z.of_nat (length es) <= CInt.INT_MAX ->
  exists g' out,
    menu_choice1 g (snapshot_text gd (Z.of_nat (length es)) es) =
      Some (g', [newline], out) /\
    vertices g' = vertices gd /\
    (forall i, 0 <= i < vertices gd ->
       name_of g' i = name_of gd i /\ light_of g' i = light_of gd i /\
       aget 0%float (lat g') i = reread (aget 0%float (lat gd) i) /\
       aget 0%float (lon g') i = reread (aget 0%float (lon gd) i)) /\
    forall x e, 0 <= x < vertices gd ->
      count_occ Edge_eq_dec (adj_of g' x) e =
      (count_occ triple_eq_dec (valid_roads (vertices gd) es) (x, to e, weight e)
       + count_occ triple_eq_dec (valid_roads (vertices gd) es) (to e, x, weight e))%nat.
Proof.
  intros Hn Hs HV Hj Hes Hlen. apply menu_enter_spec; assumption.
Qed.

Lemma menu_enter_city_witness :
  exists g' out,
    menu_choice1 demo_graph
      (snapshot_text city_junctions
         (Z.of_nat (length sample_roads))
         sample_roads) =
      Some (g', [newline], out) /\
    vertices g' = vertices city_junctions /\
    (forall i, 0 <= i < vertices city_junctions ->
       name_of g' i = name_of city_junctions i /\
       light_of g' i = light_of city_junctions i /\
       aget 0%float (lat g') i = reread (aget 0%float (lat city_junctions) i) /\
       aget 0%float (lon g') i = reread (aget 0%float (lon city_junctions) i)) /\
    forall x e, 0 <= x < vertices city_junctions ->
      count_occ Edge_eq_dec (adj_of g' x) e =
      (count_occ triple_eq_dec
         (valid_roads (vertices city_junctions) sample_roads)
         (x, to e, weight e)
       + count_occ triple_eq_dec
           (valid_roads (vertices city_junctions) sample_roads)
           (to e, x, weight e))%nat.
Proof.
  apply (menu_enter_city demo_graph city_junctions sample_roads).
  - vm_compute. split; congruence.
  - reflexivity.
  - vm_compute. split; congruence.
  - exact city_junctions_ok.
  - unfold sample_roads. intros u v w [H | [H | [H | []]]]; injection H as <- <- <-;
      repeat split.
  - vm_compute. congruence.
Defined.

(** ** A heap just created (lines 268-273, 295-323) *)

(** X23: on the heap that [createMinHeap] returns for [n] junctions,
    [isEmpty] holds, no junction below [n] is in the heap, [extractMin]
    returns [NULL] and [decreaseKey] does nothing. *)
Theorem createMinHeap_empty (n : Z) :
  0 <= n <= MAX ->
  isEmpty (createMinHeap n) = true /\
  extractMin (createMinHeap n) = Some (createMinHeap n, None) /\
  forall v, 0 <= v < n ->
    isInMinHeap (createMinHeap n) v = false /\
    forall d, decreaseKey (createMinHeap n) v d = Some (createMinHeap n).
Proof.
  intros Hn. destruct (createMinHeap_spec n Hn) as (Hsz & _ & _ & Hpos).
  assert (He : isEmpty (createMinHeap n) = true).
  { unfold isEmpty. rewrite Hsz. reflexivity. }
  split; [exact He |]. split; [unfold extractMin; rewrite He; reflexivity |].
  intros v Hv. split.
  - unfold isInMinHeap. rewrite (Hpos v Hv). reflexivity.
  - intros d. unfold decreaseKey. rewrite (Hpos v Hv). reflexivity.
Qed.

Lemma createMinHeap_empty_witness :
  isEmpty (createMinHeap 3) = true /\
  extractMin (createMinHeap 3) = Some (createMinHeap 3, None) /\
  forall v, 0 <= v < 3 ->
    isInMinHeap (createMinHeap 3) v = false /\
    forall d, decreaseKey (createMinHeap 3) v d = Some (createMinHeap 3).
Proof. apply (createMinHeap_empty 3). unfold MAX. lia. Defined.

(** ** Reading the menu choice (lines 559-562) *)






(** ** A new road and the time reported (lines 93-105 and 434-526) *)

Lemma dijkstra_min_cost_spec (g : Graph) (src dest : Z) :
  wf_graph g = true -> costs_ok g = true ->
  0 <= src < vertices g -> 0 <= dest < vertices g ->
  exists evs,
    dijkstra g src dest = Some evs /\
    match reported_distance evs with
    | Some d => d < INF /\ min_cost g src dest d
    | None => forall p, simple_path g src dest p -> INF <= path_cost g p
    end.
Proof.
  intros Hwf Hok Hsrc Hdest.
  destruct (dijkstra_search_opt g src dest Hwf Hok Hsrc Hdest) as (st & Hr & _ & Hres).
  destruct (dijkstra_search_tree g src dest Hwf Hsrc) as (st' & Hr' & Hchain).
  rewrite Hr in Hr'. injection Hr' as <-.
  rewrite dijkstra_in_range by assumption. rewrite Hr.
  destruct (search_result_min_cost g src dest st Hwf Hok Hsrc Hres)
    as [(Hlt & Hmin) | (Hinf & Hlow)].
  - destruct (dijkstra_report_distance g src dest st Hdest ltac:(lia) (Hchain dest Hdest))
      as (evs & He & Hd).
    exists evs. split; [assumption |]. rewrite Hd. auto.
  - eexists. split; [apply dijkstra_report_no_path; assumption |]. exact Hlow.
Qed.

Lemma addEdge_keeps_paths (g : Graph) (u v w : Z) :
  wf_graph g = true ->
  let g' := fst (addEdge g u v w) in
  vertices g' = vertices g /\ wf_graph g' = true /\
  (forall x e, In e (adj_of g x) -> In e (adj_of g' x)) /\
  (forall p, path_cost g' p = path_cost g p).
Proof.
  intros Hwf. cbv zeta.
  destruct (wf_graph_facts g Hwf) as (Hn & Hto).
  pose proof (wf_graph_sized g Hwf) as Hs.
  destruct (sized_facts g Hs) as (S1 & S2 & S3 & S4 & S5).
  assert (Hcase : (0 <= u < vertices g /\ 0 <= v < vertices g) \/
                  ~ (0 <= u < vertices g /\ 0 <= v < vertices g)) by lia.
  destruct Hcase as [(Hu & Hv) | Hout];
    [| rewrite (addEdge_rejected g u v w Hout); cbn [fst]; auto].
  rewrite (addEdge_push g u v w Hu Hv). cbn [fst].
  destruct (push_edge_spec g u v w S1 ltac:(lia) ltac:(lia))
    as (P1 & P2 & P3 & P4 & P5 & P6 & Padj).
  split; [assumption |]. split; [| split].
  - apply wf_graph_intro; [rewrite P1; lia | |].
    + apply sized_intro; rewrite ?P2, ?P3, ?P4, ?P5; assumption.
    + rewrite P1. intros x e Hx Hin. rewrite Padj in Hin.
      apply in_app_or in Hin. destruct Hin as [Hin | Hin].
      * destruct (Z.eqb_spec x v); [| contradiction].
        destruct Hin as [<- | []]. cbn [to]. lia.
      * apply in_app_or in Hin. destruct Hin as [Hin | Hin]; [| apply (Hto x e Hx Hin)].
        destruct (Z.eqb_spec x u); [| contradiction].
        destruct Hin as [<- | []]. cbn [to]. lia.
  - intros x e Hin. rewrite Padj. apply in_or_app. right. apply in_or_app. right. exact Hin.
  - intros p. unfold path_cost.
    assert (E : forall t e, arrive (push_edge g u v w) t e = arrive g t e).
    { intros t e. unfold arrive, light_of. rewrite P2. reflexivity. }
    generalize 0. induction p as [| e p IH]; intros t; [reflexivity |].
    cbn [fold_left]. rewrite E. apply IH.
Qed.

Lemma addEdge_keeps_simple (g : Graph) (u v w src dest : Z) (p : list Edge) :
  wf_graph g = true ->
  simple_path g src dest p -> simple_path (fst (addEdge g u v w)) src dest p.
Proof.
  intros Hwf ((Hp & Hend) & Hnd).
  destruct (addEdge_keeps_paths g u v w Hwf) as (_ & _ & Hin & _).
  split; [split; [| assumption] | assumption].
  clear Hend Hnd. revert src Hp. induction p as [| e p IH]; intros src Hp; [exact I |].
  destruct Hp as (He & Hp). split; [apply Hin; assumption | apply IH; assumption].
Qed.

Lemma addEdge_not_slower_spec (g : Graph) (u v w src dest : Z) (evs : list Event) (d : Z) :
  wf_graph g = true -> costs_ok g = true ->
  costs_ok (fst (addEdge g u v w)) = true ->
  0 <= src < vertices g -> 0 <= dest < vertices g ->
  dijkstra g src dest = Some evs -> reported_distance evs = Some d ->
  exists evs' d',
    dijkstra (fst (addEdge g u v w)) src dest = Some evs' /\
    reported_distance evs' = Some d' /\ d' <= d.
Proof.
  intros Hwf Hok Hok' Hsrc Hdest Hrun Hd.
  destruct (dijkstra_min_cost_spec g src dest Hwf Hok Hsrc Hdest) as (evs0 & E0 & Hres).
  rewrite Hrun in E0. injection E0 as <-. rewrite Hd in Hres.
  destruct Hres as (Hlt & (p & Hp & Hcost) & _).
  destruct (addEdge_keeps_paths g u v w Hwf) as (Hv' & Hwf' & _ & Hpc).
  pose proof (addEdge_keeps_simple g u v w src dest p Hwf Hp) as Hp'.
  destruct (dijkstra_min_cost_spec (fst (addEdge g u v w)) src dest Hwf' Hok'
              ltac:(rewrite Hv'; assumption) ltac:(rewrite Hv'; assumption))
    as (evs' & E' & Hres').
  exists evs'. destruct (reported_distance evs') as [d' |].
  - exists d'. split; [assumption |]. split; [reflexivity |].
    destruct Hres' as (_ & _ & Hmin). specialize (Hmin p Hp'). rewrite Hpc in Hmin. lia.
  - exfalso. specialize (Hres' p Hp'). rewrite Hpc in Hres'. lia.
Qed.

(** X25: a new road never makes a journey slower: if [dijkstra] reports
    the time [d] from a source to a destination, then after any [addEdge]
    (with a weight that keeps the costs non-negative and within bounds)
    it reports, for the same source and destination, a time of at most
    [d]. *)
Theorem addEdge_not_slower (g : Graph) (u v w src dest : Z) (evs : list Event) (d : Z) :
  wf_graph g = true -> costs_ok g = true ->
  costs_ok (fst (addEdge g u v w)) = true ->
  0 <= src < vertices g -> 0 <= dest < vertices g ->
  dijkstra g src dest = Some evs -> reported_distance evs = Some d ->
  exists evs' d',
    dijkstra (fst (addEdge g u v w)) src dest = Some evs' /\
    reported_distance evs' = Some d' /\ d' <= d.
Proof.
  intros Hwf Hok Hok' Hsrc Hdest Hrun Hd.
  apply (addEdge_not_slower_spec g u v w src dest evs d); assumption.
Qed.

Lemma addEdge_not_slower_witness :
  exists evs' d',
    dijkstra (fst (addEdge city_graph 0 2 3)) 0 2 = Some evs' /\
    reported_distance evs' = Some d' /\ d' <= 8.
Proof.
  apply (addEdge_not_slower city_graph 0 2 3 0 2 (default [] (dijkstra city_graph 0 2)) 8);
    [vm_compute; reflexivity | vm_compute; reflexivity | vm_compute; reflexivity
     | vm_compute; split; congruence | vm_compute; split; congruence
     | vm_compute; reflexivity | vm_compute; reflexivity].
Defined.
